(** * Drone route planning: nearest-neighbour tour with obstacle avoidance

    A shallow embedding of the JavaScript route optimisers
    (DronePath/turn2/model1.js, DronePath/turn2/model2.js and the plain
    nearest-neighbour variant) and the properties their specification
    states about them; then of the code around them: the grid-walking
    optimiser, and what the variants with a report print of a route.

    Numbers.  The specification's data model takes coordinates, radii and
    step lengths to be real numbers, and so does this development: a
    JavaScript number is an element of [R], [Math.sqrt] is [sqrt],
    [Math.cos]/[Math.sin] are [cos]/[sin], [Math.PI] is [PI] and
    [Math.atan2] is the two-argument arctangent defined below.  Rounding,
    infinities and NaN are outside this model; the quotient [0 / 0] of the
    line-drawing loops is written out where it occurs, and module [Double]
    runs the resolver of model1.js on doubles, where rounding decides
    whether it returns.

    Objects.  Waypoints are immutable; the code reads their coordinates and,
    in one place ([indexOf]), looks one up, by identity, in the array it was
    just taken from.  They are modelled as values; module [Ref] keeps the
    identities and [indexOf_identity_or_value] shows that the look-up by
    identity and the look-up by value find the same index.

    Control.  A [while] loop is a [Fixpoint] on a fuel argument; running out
    of fuel is the outcome [OutOfFuel], a JavaScript [throw] is the outcome
    [Throws]. *)

From Stdlib Require Import Reals Lra Lia List Bool String Permutation Arith Sorted.
From Stdlib Require Floats.
Import ListNotations.
Open Scope R_scope.

(** ** Outcomes of a call *)

Inductive outcome (A : Type) : Type :=
| Returns (a : A)
| Throws (msg : string)
| OutOfFuel.

Arguments Returns {A} a.
Arguments Throws {A} msg.
Arguments OutOfFuel {A}.

Definition bind {A B : Type} (m : outcome A) (k : A -> outcome B) : outcome B :=
  match m with
  | Returns a => k a
  | Throws msg => Throws msg
  | OutOfFuel => OutOfFuel
  end.

Notation "x <- m ;; k" := (bind m (fun x => k))
  (at level 61, m at next level, right associativity).

(** ** JavaScript numbers as reals *)

Module Js.

(** [a <= b], [a < b], [a > b] and [a === b] on numbers. *)
Definition leb (a b : R) : bool := if Rle_dec a b then true else false.
Definition ltb (a b : R) : bool := if Rlt_dec a b then true else false.
Definition gtb (a b : R) : bool := if Rgt_dec a b then true else false.
Definition eqb (a b : R) : bool := if Req_dec_T a b then true else false.

(** [Math.atan2(y, x)]: the angle of the vector [(x, y)], in [(-PI, PI]];
    [0] for the null vector. *)
Definition atan2 (y x : R) : R :=
  if Rlt_dec 0 x then atan (y / x)
  else if Rlt_dec x 0 then
         (if Rle_dec 0 y then atan (y / x) + PI else atan (y / x) - PI)
  else if Rlt_dec 0 y then PI / 2
  else if Rlt_dec y 0 then - (PI / 2)
  else 0.

(** [arr.slice(1)]. *)
Definition slice1 {A : Type} (l : list A) : list A := tl l.

(** [arr[arr.length - 1]]; [None] is [undefined]. *)
Definition lastEntry {A : Type} (l : list A) : option A :=
  nth_error l (List.length l - 1).

End Js.

(** ** class Waypoint (the same in every variant) *)

Module Waypoint.

Record t : Type := new { x : R; y : R }.

Definition distanceTo (this otherWaypoint : t) : R :=
  sqrt ((x this - x otherWaypoint) ^ 2 + (y this - y otherWaypoint) ^ 2).

Definition eq_dec (a b : t) : {a = b} + {a <> b}.
Proof.
  destruct a as [ax ay], b as [bx b_y].
  destruct (Req_dec_T ax bx) as [Hx | Hx];
    [ destruct (Req_dec_T ay b_y) as [Hy | Hy] | ].
  - left. now subst.
  - right. intros H. injection H. intros. contradiction.
  - right. intros H. injection H. intros. contradiction.
Defined.

End Waypoint.

Abbreviation Waypoint := Waypoint.t.

(** A point of the plane lies on the segment from [a] to [b]. *)
Definition onSegment (a b p : Waypoint) : Prop :=
  exists t : R, 0 <= t <= 1 /\
    Waypoint.x p = Waypoint.x a + t * (Waypoint.x b - Waypoint.x a) /\
    Waypoint.y p = Waypoint.y a + t * (Waypoint.y b - Waypoint.y a).

(** The specification's [closestPointOnSegment(p, seg)]: the projection of
    [p] on the line through the segment's ends [a] and [b], with its
    parameter clamped to [[0, 1]]; [a] itself when the segment is reduced to
    a point. *)
Definition closestPointOnSegment (p a b : Waypoint) : Waypoint :=
  if Waypoint.eq_dec a b then a
  else
    let dx := Waypoint.x b - Waypoint.x a in
    let dy := Waypoint.y b - Waypoint.y a in
    let t := ((Waypoint.x p - Waypoint.x a) * dx + (Waypoint.y p - Waypoint.y a) * dy)
             / (dx ^ 2 + dy ^ 2) in
    let tClamped := Rmax 0 (Rmin 1 t) in
    Waypoint.new (Waypoint.x a + tClamped * dx) (Waypoint.y a + tClamped * dy).

(** ** The tour builder

    [optimizeRoute] is the same loop in model1.js, model2.js and the plain
    variant; the three differ in how a leg is resolved.  The loop is written
    once, over the resolver [findSafeRoute]. *)

Module Tour.

(** The callback of [unvisitedWaypoints.reduce]. *)
Definition closer (currentWaypoint minWaypoint waypoint : Waypoint) : Waypoint :=
  if Js.ltb (Waypoint.distanceTo waypoint currentWaypoint)
            (Waypoint.distanceTo minWaypoint currentWaypoint)
  then waypoint
  else minWaypoint.

(** [unvisitedWaypoints.reduce(callback, initial)]: a left fold over the
    whole array, entry [0] included. *)
Definition reduce (currentWaypoint : Waypoint) (unvisitedWaypoints : list Waypoint)
  (initial : Waypoint) : Waypoint :=
  fold_left (closer currentWaypoint) unvisitedWaypoints initial.

(** [arr.indexOf(w)]; [None] is [-1].  The entry looked for was returned by
    [reduce] over the same array: the search stops at the first entry equal
    to it (see [Ref.indexOf] for the search by identity). *)
Fixpoint indexOf (w : Waypoint) (arr : list Waypoint) : option nat :=
  match arr with
  | [] => None
  | v :: rest =>
    if Waypoint.eq_dec v w then Some O
    else match indexOf w rest with
         | Some i => Some (S i)
         | None => None
         end
  end.

(** [arr.splice(i, 1)]: the array without its entry [i]; with [i = -1] the
    last entry is the one removed. *)
Definition splice1 (arr : list Waypoint) (i : option nat) : list Waypoint :=
  match i with
  | Some n => firstn n arr ++ skipn (S n) arr
  | None => removelast arr
  end.

Section Builder.

Variable findSafeRoute : Waypoint -> Waypoint -> outcome (list Waypoint).

(** The [while (unvisitedWaypoints.length > 0)] loop.  Route entries are
    [option]s because [this.waypoints[0]] is [undefined] on an empty input;
    reading a coordinate of [undefined] is a [TypeError]. *)
Fixpoint optimizeRoute_while (fuel : nat)
  (route : list (option Waypoint)) (unvisitedWaypoints : list Waypoint)
  : outcome (list (option Waypoint)) :=
  match fuel with
  | O => OutOfFuel
  | S fuel' =>
    match unvisitedWaypoints with
    | [] => Returns route
    | first :: _ =>
      match Js.lastEntry route with
      | Some (Some currentWaypoint) =>
        let closestWaypoint := reduce currentWaypoint unvisitedWaypoints first in
        safeRoute <- findSafeRoute currentWaypoint closestWaypoint ;;
        optimizeRoute_while fuel'
          (route ++ map Some (Js.slice1 safeRoute))
          (splice1 unvisitedWaypoints (indexOf closestWaypoint unvisitedWaypoints))
      | _ => Throws "TypeError"
      end
    end
  end.

(** The closing leg: [if (route.length > 1) { ... }]. *)
Definition returnToStart (route : list (option Waypoint))
  : outcome (list (option Waypoint)) :=
  if (1 <? List.length route)%nat then
    match Js.lastEntry route, nth_error route 0 with
    | Some (Some last), Some (Some origin) =>
      safeRoute <- findSafeRoute last origin ;;
      Returns (route ++ map Some (Js.slice1 safeRoute))
    | _, _ => Throws "TypeError"
    end
  else Returns route.

Definition optimizeRoute (fuel : nat) (waypoints : list Waypoint)
  : outcome (list (option Waypoint)) :=
  let route := [nth_error waypoints 0] in
  let unvisitedWaypoints := Js.slice1 waypoints in
  route <- optimizeRoute_while fuel route unvisitedWaypoints ;;
  returnToStart route.

End Builder.

End Tour.

(** ** Waypoint objects with their identity

    An array of waypoint objects as JavaScript has it: each entry is a
    reference, here a number, together with the object it refers to.  Two
    entries with the same reference are the same object. *)

Module Ref.

Definition obj : Type := (nat * Waypoint)%type.

Definition consistent (arr : list obj) : Prop :=
  forall a b : obj, In a arr -> In b arr -> fst a = fst b -> snd a = snd b.

(** The callback of [reduce], on objects. *)
Definition closer (currentWaypoint : Waypoint) (minWaypoint waypoint : obj) : obj :=
  if Js.ltb (Waypoint.distanceTo (snd waypoint) currentWaypoint)
            (Waypoint.distanceTo (snd minWaypoint) currentWaypoint)
  then waypoint
  else minWaypoint.

Definition reduce (currentWaypoint : Waypoint) (unvisitedWaypoints : list obj)
  (initial : obj) : obj :=
  fold_left (closer currentWaypoint) unvisitedWaypoints initial.

(** [arr.indexOf(w)], comparing references. *)
Fixpoint indexOf (w : obj) (arr : list obj) : option nat :=
  match arr with
  | [] => None
  | v :: rest =>
    if Nat.eq_dec (fst v) (fst w) then Some O
    else match indexOf w rest with
         | Some i => Some (S i)
         | None => None
         end
  end.

End Ref.

(** ** model1.js: bounded-step subdivision (Policy A) *)

Module Model1.

Record LineSegment : Type := newLineSegment { start : Waypoint; end_ : Waypoint }.

Record Obstacle : Type := newObstacle { x : R; y : R; radius : R }.

(** [Obstacle.distanceTo(point)] *)
Definition distanceTo (this : Obstacle) (point : Waypoint) : R :=
  sqrt ((x this - Waypoint.x point) ^ 2 + (y this - Waypoint.y point) ^ 2).

(** [Obstacle.distanceToLineSegment(lineSegment)] *)
Definition distanceToLineSegment (this : Obstacle) (lineSegment : LineSegment) : R :=
  let dx := Waypoint.x (end_ lineSegment) - Waypoint.x (start lineSegment) in
  let dy := Waypoint.y (end_ lineSegment) - Waypoint.y (start lineSegment) in
  let lengthSquared := dx ^ 2 + dy ^ 2 in
  if Js.eqb lengthSquared 0 then distanceTo this (start lineSegment)
  else
    let t := ((x this - Waypoint.x (start lineSegment)) * dx
              + (y this - Waypoint.y (start lineSegment)) * dy) / lengthSquared in
    let tClamped := Rmax 0 (Rmin 1 t) in
    let nearestX := Waypoint.x (start lineSegment) + tClamped * dx in
    let nearestY := Waypoint.y (start lineSegment) + tClamped * dy in
    sqrt ((x this - nearestX) ^ 2 + (y this - nearestY) ^ 2).

(** The same function with every division checked: [None] as soon as a
    division by zero is executed. *)
Definition checkedDiv (a b : R) : option R :=
  if Js.eqb b 0 then None else Some (a / b).

Definition distanceToLineSegment_checked
  (this : Obstacle) (lineSegment : LineSegment) : option R :=
  let dx := Waypoint.x (end_ lineSegment) - Waypoint.x (start lineSegment) in
  let dy := Waypoint.y (end_ lineSegment) - Waypoint.y (start lineSegment) in
  let lengthSquared := dx ^ 2 + dy ^ 2 in
  if Js.eqb lengthSquared 0 then Some (distanceTo this (start lineSegment))
  else
    match checkedDiv ((x this - Waypoint.x (start lineSegment)) * dx
                      + (y this - Waypoint.y (start lineSegment)) * dy) lengthSquared with
    | None => None
    | Some t =>
      let tClamped := Rmax 0 (Rmin 1 t) in
      let nearestX := Waypoint.x (start lineSegment) + tClamped * dx in
      let nearestY := Waypoint.y (start lineSegment) + tClamped * dy in
      Some (sqrt ((x this - nearestX) ^ 2 + (y this - nearestY) ^ 2))
    end.

(** [Obstacle.intersectsWithLineSegment(lineSegment)] *)
Definition intersectsWithLineSegment (this : Obstacle) (lineSegment : LineSegment) : bool :=
  let distance := distanceToLineSegment this lineSegment in
  Js.leb distance (radius this).

Record RouteOptimizer : Type := newRouteOptimizer {
  waypoints : list Waypoint;
  obstacles : list Obstacle;
  safeDistance : R
}.

(** [RouteOptimizer.findIntermediateWaypoint(start, end)] *)
Definition findIntermediateWaypoint (this : RouteOptimizer) (start end_ : Waypoint) : Waypoint :=
  let angle := Js.atan2 (Waypoint.y end_ - Waypoint.y start) (Waypoint.x end_ - Waypoint.x start) in
  let distance := safeDistance this in
  let intermediateX := Waypoint.x start + distance * cos angle in
  let intermediateY := Waypoint.y start + distance * sin angle in
  Waypoint.new intermediateX intermediateY.

(** The [while] loop of [findSafeRoute]. *)
Fixpoint findSafeRoute_while (fuel : nat) (this : RouteOptimizer)
  (safeRoute : list Waypoint) (currentWaypoint nextWaypoint : Waypoint)
  : outcome (list Waypoint) :=
  match fuel with
  | O => OutOfFuel
  | S fuel' =>
    if Js.gtb (Waypoint.distanceTo currentWaypoint nextWaypoint) (safeDistance this) then
      let intermediateWaypoint :=
        findIntermediateWaypoint this currentWaypoint nextWaypoint in
      findSafeRoute_while fuel' this (safeRoute ++ [intermediateWaypoint])
                          intermediateWaypoint nextWaypoint
    else Returns (safeRoute ++ [nextWaypoint])
  end.

(** [RouteOptimizer.findSafeRoute(lineSegment)] *)
Definition findSafeRoute (fuel : nat) (this : RouteOptimizer) (lineSegment : LineSegment)
  : outcome (list Waypoint) :=
  findSafeRoute_while fuel this [start lineSegment] (start lineSegment) (end_ lineSegment).

(** [RouteOptimizer.isSafeRoute(lineSegment)]: the [for ... of] loop over
    the obstacles, with its early [return false]. *)
Fixpoint isSafeRoute_for (obstacles : list Obstacle) (lineSegment : LineSegment) : bool :=
  match obstacles with
  | [] => true
  | obstacle :: rest =>
    if intersectsWithLineSegment obstacle lineSegment then false
    else isSafeRoute_for rest lineSegment
  end.

Definition isSafeRoute (this : RouteOptimizer) (lineSegment : LineSegment) : bool :=
  isSafeRoute_for (obstacles this) lineSegment.

(** [RouteOptimizer.optimizeRoute()] *)
Definition optimizeRoute (fuel : nat) (this : RouteOptimizer)
  : outcome (list (option Waypoint)) :=
  Tour.optimizeRoute
    (fun a b => findSafeRoute fuel this (newLineSegment a b))
    fuel (waypoints this).

End Model1.

(** ** The resolver of model1.js in double precision

    The numbers of the program are the doubles of IEEE 754, which are Rocq's
    primitive [float]s, with the same rounding of [+], [-], [*] and
    [Math.sqrt]; [v ** 2] is taken as [v * v].  [Math.atan2], [Math.cos] and
    [Math.sin] are the platform's: ECMAScript asks of them an approximation
    and fixes their value at some arguments; they are a parameter,
    [Libm]. *)

Module Double.

Import Floats.

Record Waypoint : Type := newWaypoint { x : float; y : float }.

(** [Waypoint.distanceTo(otherWaypoint)] *)
Definition distanceTo (this otherWaypoint : Waypoint) : float :=
  PrimFloat.sqrt
    ((x this - x otherWaypoint) * (x this - x otherWaypoint)
     + (y this - y otherWaypoint) * (y this - y otherWaypoint))%float.

Record Libm : Type := newLibm {
  atan2 : float -> float -> float;
  cos : float -> float;
  sin : float -> float
}.


(** [RouteOptimizer.findIntermediateWaypoint(start, end)] *)
Definition findIntermediateWaypoint (libm : Libm) (safeDistance : float)
  (start end_ : Waypoint) : Waypoint :=
  let angle := atan2 libm (y end_ - y start)%float (x end_ - x start)%float in
  let distance := safeDistance in
  let intermediateX := (x start + distance * cos libm angle)%float in
  let intermediateY := (y start + distance * sin libm angle)%float in
  newWaypoint intermediateX intermediateY.

(** The [while] loop of [findSafeRoute]. *)
Fixpoint findSafeRoute_while (libm : Libm) (fuel : nat) (safeDistance : float)
  (safeRoute : list Waypoint) (currentWaypoint nextWaypoint : Waypoint)
  : outcome (list Waypoint) :=
  match fuel with
  | O => OutOfFuel
  | S fuel' =>
    if PrimFloat.ltb safeDistance (distanceTo currentWaypoint nextWaypoint) then
      let intermediateWaypoint :=
        findIntermediateWaypoint libm safeDistance currentWaypoint nextWaypoint in
      findSafeRoute_while libm fuel' safeDistance (safeRoute ++ [intermediateWaypoint])
                          intermediateWaypoint nextWaypoint
    else Returns (safeRoute ++ [nextWaypoint])
  end.

(** [RouteOptimizer.findSafeRoute(lineSegment)] *)
Definition findSafeRoute (libm : Libm) (fuel : nat) (safeDistance : float)
  (start end_ : Waypoint) : outcome (list Waypoint) :=
  findSafeRoute_while libm fuel safeDistance [start] start end_.

End Double.

(** ** model2.js: obstacle-offset detour (Policy B) *)

Module Model2.

(** The object literal [{ x1, y1, x2, y2 }]. *)
Record LineSegment : Type := newLineSegment { x1 : R; y1 : R; x2 : R; y2 : R }.

Record Obstacle : Type := newObstacle { x : R; y : R; radius : R }.

(** [Obstacle.distanceToLineSegment(lineSegment)] *)
Definition distanceToLineSegment (this : Obstacle) (lineSegment : LineSegment) : R :=
  let '(x1, y1, x2, y2) :=
    (x1 lineSegment, y1 lineSegment, x2 lineSegment, y2 lineSegment) in
  let '(x, y) := (x this, y this) in
  let lineSegmentLength := sqrt ((x2 - x1) ^ 2 + (y2 - y1) ^ 2) in
  if Js.eqb lineSegmentLength 0 then sqrt ((x - x1) ^ 2 + (y - y1) ^ 2)
  else
    let t := ((x - x1) * (x2 - x1) + (y - y1) * (y2 - y1)) / (lineSegmentLength ^ 2) in
    let tClamped := Rmax 0 (Rmin 1 t) in
    let nearestX := x1 + tClamped * (x2 - x1) in
    let nearestY := y1 + tClamped * (y2 - y1) in
    sqrt ((x - nearestX) ^ 2 + (y - nearestY) ^ 2).

(** The same function with its division checked. *)
Definition distanceToLineSegment_checked
  (this : Obstacle) (lineSegment : LineSegment) : option R :=
  let '(x1, y1, x2, y2) :=
    (x1 lineSegment, y1 lineSegment, x2 lineSegment, y2 lineSegment) in
  let '(x, y) := (x this, y this) in
  let lineSegmentLength := sqrt ((x2 - x1) ^ 2 + (y2 - y1) ^ 2) in
  if Js.eqb lineSegmentLength 0 then Some (sqrt ((x - x1) ^ 2 + (y - y1) ^ 2))
  else
    match Model1.checkedDiv ((x - x1) * (x2 - x1) + (y - y1) * (y2 - y1))
                            (lineSegmentLength ^ 2) with
    | None => None
    | Some t =>
      let tClamped := Rmax 0 (Rmin 1 t) in
      let nearestX := x1 + tClamped * (x2 - x1) in
      let nearestY := y1 + tClamped * (y2 - y1) in
      Some (sqrt ((x - nearestX) ^ 2 + (y - nearestY) ^ 2))
    end.

(** [Obstacle.intersectsWithLineSegment(lineSegment)] *)
Definition intersectsWithLineSegment (this : Obstacle) (lineSegment : LineSegment) : bool :=
  let distance := distanceToLineSegment this lineSegment in
  Js.leb distance (radius this).

Record RouteOptimizer : Type := newRouteOptimizer {
  waypoints : list Waypoint;
  obstacles : list Obstacle
}.

(** The segment object both [findSafeRoute] and [findAlternativeSafePath] build. *)
Definition segmentOf (startWaypoint endWaypoint : Waypoint) : LineSegment :=
  newLineSegment (Waypoint.x startWaypoint) (Waypoint.y startWaypoint)
                 (Waypoint.x endWaypoint) (Waypoint.y endWaypoint).

(** [RouteOptimizer.findAlternativeSafePath(startWaypoint, endWaypoint)] *)
Definition findAlternativeSafePath (this : RouteOptimizer)
  (startWaypoint endWaypoint : Waypoint) : outcome (list Waypoint) :=
  match find (fun obstacle =>
                let lineSegment := segmentOf startWaypoint endWaypoint in
                intersectsWithLineSegment obstacle lineSegment)
             (obstacles this) with
  | None => Throws "No obstacle found"
  | Some obstacle =>
    let angle := Js.atan2 (Waypoint.y endWaypoint - Waypoint.y startWaypoint)
                          (Waypoint.x endWaypoint - Waypoint.x startWaypoint) in
    let radius := radius obstacle + 1 in
    let intermediateWaypoint1 :=
      Waypoint.new (Waypoint.x startWaypoint + radius * cos (angle + PI / 4))
                   (Waypoint.y startWaypoint + radius * sin (angle + PI / 4)) in
    let intermediateWaypoint2 :=
      Waypoint.new (Waypoint.x endWaypoint - radius * cos (angle - PI / 4))
                   (Waypoint.y endWaypoint - radius * sin (angle - PI / 4)) in
    Returns [startWaypoint; intermediateWaypoint1; intermediateWaypoint2; endWaypoint]
  end.

(** [RouteOptimizer.findSafeRoute(startWaypoint, endWaypoint)] *)
Definition findSafeRoute (this : RouteOptimizer)
  (startWaypoint endWaypoint : Waypoint) : outcome (list Waypoint) :=
  let lineSegment := segmentOf startWaypoint endWaypoint in
  if existsb (fun obstacle => intersectsWithLineSegment obstacle lineSegment)
             (obstacles this)
  then findAlternativeSafePath this startWaypoint endWaypoint
  else Returns [startWaypoint; endWaypoint].

(** [RouteOptimizer.optimizeRoute()] *)
Definition optimizeRoute (fuel : nat) (this : RouteOptimizer)
  : outcome (list (option Waypoint)) :=
  Tour.optimizeRoute (findSafeRoute this) fuel (waypoints this).

End Model2.

(** ** The plain nearest-neighbour variant (no obstacles, no resolver) *)

Module Plain.

Fixpoint optimizeRoute_while (fuel : nat)
  (route : list (option Waypoint)) (unvisitedWaypoints : list Waypoint)
  : outcome (list (option Waypoint)) :=
  match fuel with
  | O => OutOfFuel
  | S fuel' =>
    match unvisitedWaypoints with
    | [] => Returns route
    | first :: _ =>
      match Js.lastEntry route with
      | Some (Some currentWaypoint) =>
        let closestWaypoint := Tour.reduce currentWaypoint unvisitedWaypoints first in
        optimizeRoute_while fuel'
          (route ++ [Some closestWaypoint])
          (Tour.splice1 unvisitedWaypoints
                        (Tour.indexOf closestWaypoint unvisitedWaypoints))
      | _ => Throws "TypeError"
      end
    end
  end.

(** [RouteOptimizer.optimizeRoute()] *)
Definition optimizeRoute (fuel : nat) (waypoints : list Waypoint)
  : outcome (list (option Waypoint)) :=
  let route := [nth_error waypoints 0] in
  let unvisitedWaypoints := Js.slice1 waypoints in
  route <- optimizeRoute_while fuel route unvisitedWaypoints ;;
  (if (1 <? List.length route)%nat then
     match nth_error route 0 with
     | Some origin => Returns (route ++ [origin])
     | None => Returns (route ++ [None])
     end
   else Returns route).

End Plain.

(** ** The grid-walking variant (class DroneRouteOptimizer)

    Only its obstacle test is modelled: points and obstacles are object
    literals [{ x, y }], an obstacle has no radius of its own. *)

Module Grid.

(** [calculateDistance(point1, point2)] *)
Definition calculateDistance (point1 point2 : Waypoint) : R :=
  sqrt ((Waypoint.x point2 - Waypoint.x point1) ^ 2
        + (Waypoint.y point2 - Waypoint.y point1) ^ 2).

(** [isObstructed(point)], a [for ... of] loop over [this.obstacles]. *)
Fixpoint isObstructed (obstacles : list Waypoint) (point : Waypoint) : bool :=
  match obstacles with
  | [] => false
  | obstacle :: rest =>
    if Js.ltb (calculateDistance point obstacle) 10 then true
    else isObstructed rest point
  end.

End Grid.


(** ** The rest of class DroneRouteOptimizer: the walk on the grid

    [this.route] is the state of the object; here it is passed along.  Its
    entries are [option]s because [findNextPoint] returns [null] when no
    point qualifies, and [optimizeRoute] pushes what it returns. *)

Module Drone.

Record DroneRouteOptimizer : Type := newDroneRouteOptimizer {
  start : Waypoint;
  destination : Waypoint;
  obstacles : list Waypoint
}.

(** The route the constructor sets: [this.route = [start]]. *)
Definition initialRoute (this : DroneRouteOptimizer) : list (option Waypoint) :=
  [Some (start this)].

(** [this.route.some(p => p.x === point.x && p.y === point.y)]; reading a
    coordinate of [null] is a [TypeError]. *)
Fixpoint onRoute (route : list (option Waypoint)) (point : Waypoint) : outcome bool :=
  match route with
  | [] => Returns false
  | None :: _ => Throws "TypeError"
  | Some p :: rest =>
    if Js.eqb (Waypoint.x p) (Waypoint.x point) && Js.eqb (Waypoint.y p) (Waypoint.y point)
    then Returns true
    else onRoute rest point
  end.

(** The two variables of the scan: [nextPoint], [null] at first, and
    [minDistance], [Infinity] at first ([None]). *)
Record scan : Type := newScan { nextPoint : option Waypoint; minDistance : option R }.

(** [distance < minDistance] *)
Definition below (distance : R) (minDistance : option R) : bool :=
  match minDistance with
  | None => true
  | Some m => Js.ltb distance m
  end.

(** The body of the inner [for] loop, for the point [{ x, y }]. *)
Definition visit (this : DroneRouteOptimizer) (route : list (option Waypoint))
  (x y : R) (st : scan) : outcome scan :=
  let point := Waypoint.new x y in
  seen <- onRoute route point ;;
  if seen || Grid.isObstructed (obstacles this) point then Returns st
  else
    let distance := Grid.calculateDistance point (destination this) in
    if below distance (minDistance st) then Returns (newScan (Some point) (Some distance))
    else Returns st.

(** [for (let y = last.y - 10; y <= last.y + 10; y++)] *)
Fixpoint forY (fuel : nat) (this : DroneRouteOptimizer) (route : list (option Waypoint))
  (last : Waypoint) (x y : R) (st : scan) : outcome scan :=
  match fuel with
  | O => OutOfFuel
  | S fuel' =>
    if Js.leb y (Waypoint.y last + 10) then
      st' <- visit this route x y st ;;
      forY fuel' this route last x (y + 1) st'
    else Returns st
  end.

(** [for (let x = last.x - 10; x <= last.x + 10; x++)] *)
Fixpoint forX (fuel scanFuel : nat) (this : DroneRouteOptimizer)
  (route : list (option Waypoint)) (last : Waypoint) (x : R) (st : scan) : outcome scan :=
  match fuel with
  | O => OutOfFuel
  | S fuel' =>
    if Js.leb x (Waypoint.x last + 10) then
      st' <- forY scanFuel this route last x (Waypoint.y last - 10) st ;;
      forX fuel' scanFuel this route last (x + 1) st'
    else Returns st
  end.

(** [findNextPoint()] *)
Definition findNextPoint (fuel : nat) (this : DroneRouteOptimizer)
  (route : list (option Waypoint)) : outcome (option Waypoint) :=
  match Js.lastEntry route with
  | Some (Some last) =>
    st <- forX fuel fuel this route last (Waypoint.x last - 10) (newScan None None) ;;
    Returns (nextPoint st)
  | _ => Throws "TypeError"
  end.

(** The [while] loop of [optimizeRoute()]. *)
Fixpoint optimizeRoute_while (fuel scanFuel : nat) (this : DroneRouteOptimizer)
  (route : list (option Waypoint)) : outcome (list (option Waypoint)) :=
  match fuel with
  | O => OutOfFuel
  | S fuel' =>
    match Js.lastEntry route with
    | Some (Some last) =>
      if Js.gtb (Grid.calculateDistance last (destination this)) 10 then
        nextPoint <- findNextPoint scanFuel this route ;;
        optimizeRoute_while fuel' scanFuel this (route ++ [nextPoint])
      else Returns route
    | _ => Throws "TypeError"
    end
  end.

(** [optimizeRoute()] followed by [getRoute()], on a new object. *)
Definition optimizeRoute (fuel : nat) (this : DroneRouteOptimizer)
  : outcome (list (option Waypoint)) :=
  optimizeRoute_while fuel fuel this (initialRoute this).

(** The points the two [for] loops go through around [last], in the order
    they do: column after column, each from bottom to top. *)
Definition column (last : Waypoint) (i : nat) : list Waypoint :=
  map (fun j => Waypoint.new (Waypoint.x last - 10 + INR i) (Waypoint.y last - 10 + INR j))
      (seq 0 21).

Definition candidates (last : Waypoint) : list Waypoint :=
  flat_map (column last) (seq 0 21).

(** A point [findNextPoint] may return: not on the route, not obstructed. *)
Definition admissible (this : DroneRouteOptimizer) (points : list Waypoint)
  (q : Waypoint) : Prop :=
  ~ In q points /\ Grid.isObstructed (obstacles this) q = false.

(** The body of the loops run over a list of points, in order. *)
Fixpoint visitAll (this : DroneRouteOptimizer) (route : list (option Waypoint))
  (points : list Waypoint) (st : scan) : outcome scan :=
  match points with
  | [] => Returns st
  | p :: rest =>
    st' <- visit this route (Waypoint.x p) (Waypoint.y p) st ;;
    visitAll this route rest st'
  end.

(** [nearestAdmissible this points seen r]: [r] is [None] and no point of
    [seen] is admissible, or [r] is an admissible point of [seen], strictly
    nearer to the destination than the admissible points before it and at
    least as near as those after it. *)
Definition nearestAdmissible (this : DroneRouteOptimizer) (points seen : list Waypoint)
  (r : option Waypoint) : Prop :=
  match r with
  | None => forall q, In q seen -> ~ admissible this points q
  | Some p =>
    admissible this points p /\
    exists before after,
      seen = before ++ p :: after /\
      (forall q, In q before -> admissible this points q ->
         Grid.calculateDistance p (destination this)
         < Grid.calculateDistance q (destination this)) /\
      (forall q, In q after -> admissible this points q ->
         Grid.calculateDistance p (destination this)
         <= Grid.calculateDistance q (destination this))
  end.

(** Each point of the list is within [10] of the one before it, along
    each axis. *)
Fixpoint hops (points : list Waypoint) : Prop :=
  match points with
  | p :: ((q :: _) as rest) =>
    Rabs (Waypoint.x q - Waypoint.x p) <= 10 /\
    Rabs (Waypoint.y q - Waypoint.y p) <= 10 /\
    hops rest
  | _ => True
  end.

(** [walk this points final]: from the route [points], the loop of
    [optimizeRoute] pushes, one per iteration, the point [findNextPoint]
    chooses, and exits with the route [final]. *)
Inductive walk (this : DroneRouteOptimizer) : list Waypoint -> list Waypoint -> Prop :=
| walk_arrived (points : list Waypoint) (last : Waypoint) :
    Js.lastEntry points = Some last ->
    Grid.calculateDistance last (destination this) <= 10 ->
    walk this points points
| walk_on (points : list Waypoint) (last next : Waypoint) (final : list Waypoint) :
    Js.lastEntry points = Some last ->
    10 < Grid.calculateDistance last (destination this) ->
    nearestAdmissible this points (candidates last) (Some next) ->
    walk this (points ++ [next]) final ->
    walk this points final.

(** The state of the scan agrees with [nearestAdmissible]. *)
Definition scanned (this : DroneRouteOptimizer) (points seen : list Waypoint)
  (st : scan) : Prop :=
  nearestAdmissible this points seen (nextPoint st) /\
  match nextPoint st with
  | None => minDistance st = None
  | Some p => minDistance st = Some (Grid.calculateDistance p (destination this))
  end.




End Drone.

(** ** Reporting (the first two variants of the unnamed file)

    Of [visualizeRoute] the total it accumulates is modelled, not the text
    it prints. *)

Module Report.

(** The chain of tests of [getDirection], on the angle; [None] is the
    [undefined] of a call that reaches the end of the chain. *)
Definition labelOf (angle : R) : option string :=
  if Js.gtb angle 0 && Js.ltb angle (PI / 2) then Some "NE"%string
  else if Js.gtb angle (PI / 2) && Js.ltb angle PI then Some "SE"%string
  else if Js.gtb angle (- PI) && Js.ltb angle (- PI / 2) then Some "SW"%string
  else if Js.gtb angle (- PI / 2) && Js.ltb angle 0 then Some "NW"%string
  else if Js.eqb angle 0 then Some "E"%string
  else if Js.eqb angle (PI / 2) then Some "N"%string
  else if Js.eqb angle (- PI / 2) then Some "S"%string
  else if Js.eqb angle PI then Some "W"%string
  else None.

(** [getDirection(startWaypoint, endWaypoint)].  [Math.atan2] also returns
    [-PI], for a difference of [-0] in [y] and a negative one in [x]; the
    angle of [Js.atan2] is never that one. *)
Definition getDirection (startWaypoint endWaypoint : Waypoint) : option string :=
  let angle := Js.atan2 (Waypoint.y endWaypoint - Waypoint.y startWaypoint)
                        (Waypoint.x endWaypoint - Waypoint.x startWaypoint) in
  labelOf angle.

End Report.

(** ** part_000: the character grids of [printAsciiArt] and [printTopDownView]

    The two methods fill a grid of characters and print it row by row; the
    grid they print is what is modelled.  The coordinates of the cells are
    integers, the floors of the coordinates of the waypoints and obstacles.
    A [for] loop on an integer counter the body does not change runs through
    the values of [range]. *)

Module View.

(** [Math.floor] *)
Definition floor (r : R) : Z := Int_part r.

Definition gridSize : Z := 20.

(** [grid[y][x]] is entry [x] of row [y]. *)
Definition Grid : Type := list (list string).

(** [Array(gridSize).fill(0).map(() => Array(gridSize).fill(" "))] *)
Definition blank : Grid :=
  repeat (repeat " "%string (Z.to_nat gridSize)) (Z.to_nat gridSize).

(** [arr[i] = v], for an index within the array. *)
Fixpoint assign {A : Type} (arr : list A) (i : nat) (v : A) : list A :=
  match arr, i with
  | [], _ => []
  | _ :: rest, O => v :: rest
  | a :: rest, S i' => a :: assign rest i' v
  end.

(** [grid[y][x] = c].  The source guards each of these assignments by
    [inGrid]: the indices are within the grid. *)
Definition put (grid : Grid) (y x : Z) (c : string) : Grid :=
  match nth_error grid (Z.to_nat y) with
  | Some row => assign grid (Z.to_nat y) (assign row (Z.to_nat x) c)
  | None => grid
  end.

(** [grid[y][x]], read when the rows are printed. *)
Definition cell (grid : Grid) (y x : Z) : option string :=
  if (0 <=? y)%Z && (0 <=? x)%Z then
    match nth_error grid (Z.to_nat y) with
    | Some row => nth_error row (Z.to_nat x)
    | None => None
    end
  else None.

(** [x >= 0 && x < gridSize && y >= 0 && y < gridSize] *)
Definition inGrid (x y : Z) : bool :=
  (0 <=? x)%Z && (x <? gridSize)%Z && (0 <=? y)%Z && (y <? gridSize)%Z.

(** The values of the counter of [for (let i = lo; i <= hi; i++)]. *)
Definition range (lo hi : Z) : list Z :=
  map (fun k => (lo + Z.of_nat k)%Z) (seq 0 (Z.to_nat (hi - lo + 1))).

(** The body of [for (const obstacle of this.obstacles)], the same in both
    methods: the loops on [i] and [j]. *)
Definition drawObstacle (grid : Grid) (obstacle : Model1.Obstacle) : Grid :=
  let x := floor (Model1.x obstacle) in
  let y := floor (Model1.y obstacle) in
  let radius := floor (Model1.radius obstacle) in
  fold_left
    (fun grid i =>
       fold_left
         (fun grid j =>
            let newX := (x + i)%Z in
            let newY := (y + j)%Z in
            if inGrid newX newY && Js.leb (sqrt (IZR i ^ 2 + IZR j ^ 2)) (IZR radius)
            then put grid newY newX "O"
            else grid)
         (range (- radius) radius) grid)
    (range (- radius) radius) grid.

Definition drawObstacles (this : Model1.RouteOptimizer) (grid : Grid) : Grid :=
  fold_left drawObstacle (Model1.obstacles this) grid.

(** The body of [for (const waypoint of route)]. *)
Definition markWaypoint (grid : Grid) (waypoint : Waypoint) : Grid :=
  let x := floor (Waypoint.x waypoint) in
  let y := floor (Waypoint.y waypoint) in
  if inGrid x y then put grid y x "W" else grid.

(** [printTopDownView(route)]: the grid printed. *)
Definition printTopDownView (this : Model1.RouteOptimizer) (route : list Waypoint) : Grid :=
  let grid := blank in
  let grid := fold_left markWaypoint route grid in
  drawObstacles this grid.

(** [Math.floor(a / steps)] for an integer [a] and [steps >= 0].  When
    [steps] is [0], so is [a] where the source divides: the quotient is NaN,
    [None] here, and every comparison with it is false. *)
Definition floorDiv (a steps : Z) : option Z :=
  if (steps =? 0)%Z then None else Some (a / steps)%Z.

(** The loop on [j] of [printAsciiArt], for one leg of the route. *)
Definition drawLeg (grid : Grid) (currentWaypoint nextWaypoint : Waypoint) : Grid :=
  let x1 := floor (Waypoint.x currentWaypoint) in
  let y1 := floor (Waypoint.y currentWaypoint) in
  let x2 := floor (Waypoint.x nextWaypoint) in
  let y2 := floor (Waypoint.y nextWaypoint) in
  let dx := (x2 - x1)%Z in
  let dy := (y2 - y1)%Z in
  let steps := Z.max (Z.abs dx) (Z.abs dy) in
  fold_left
    (fun grid j =>
       match floorDiv (j * dx) steps, floorDiv (j * dy) steps with
       | Some qx, Some qy =>
         let x := (x1 + qx)%Z in
         let y := (y1 + qy)%Z in
         if inGrid x y then put grid y x "*" else grid
       | _, _ => grid
       end)
    (range 0 steps) grid.

(** [for (let i = 0; i < route.length - 1; i++)] of [printAsciiArt]. *)
Fixpoint printAsciiArt_for (route : list Waypoint) (grid : Grid) : Grid :=
  match route with
  | currentWaypoint :: ((nextWaypoint :: _) as rest) =>
    printAsciiArt_for rest (drawLeg grid currentWaypoint nextWaypoint)
  | _ => grid
  end.

(** [printAsciiArt(route)]: the grid printed. *)
Definition printAsciiArt (this : Model1.RouteOptimizer) (route : list Waypoint) : Grid :=
  drawObstacles this (printAsciiArt_for route blank).

(** A grid of [gridSize] rows of [gridSize] entries. *)
Definition wellFormed (grid : Grid) : Prop :=
  List.length grid = Z.to_nat gridSize /\
  Forall (fun row => List.length row = Z.to_nat gridSize) grid.

(** The cell [(x, y)] is in the disk of cells drawn for [obstacle]. *)
Definition covers (obstacle : Model1.Obstacle) (y x : Z) : Prop :=
  let i := (x - floor (Model1.x obstacle))%Z in
  let j := (y - floor (Model1.y obstacle))%Z in
  let radius := floor (Model1.radius obstacle) in
  (0 <= radius /\ i * i + j * j <= radius * radius)%Z.

(** The cell [(x, y)] is one of those the loop on [j] reaches on the leg
    from [p] to [q]: none when the two ends are in the same cell. *)
Definition onLeg (p q : Waypoint) (y x : Z) : Prop :=
  let x1 := floor (Waypoint.x p) in
  let y1 := floor (Waypoint.y p) in
  let dx := (floor (Waypoint.x q) - x1)%Z in
  let dy := (floor (Waypoint.y q) - y1)%Z in
  let steps := Z.max (Z.abs dx) (Z.abs dy) in
  steps <> 0%Z /\
  exists j : Z, (0 <= j <= steps /\ x = x1 + j * dx / steps /\ y = y1 + j * dy / steps)%Z.

(** [arr[i] = v] for any index [i >= 0]: past the end, the array is extended
    and the entries skipped are holes, printed by [join] as empty strings. *)
Fixpoint writeAt (arr : list string) (i : nat) (v : string) : list string :=
  match arr, i with
  | [], O => [v]
  | [], S i' => EmptyString :: writeAt [] i' v
  | _ :: rest, O => v :: rest
  | a :: rest, S i' => a :: writeAt rest i' v
  end.

(** [grid[y][x] = c], not guarded, as in [drawLine]; [None] is NaN.
    Outside the rows (and for NaN) [grid[y]] is [undefined], and assigning
    to an entry of it is a [TypeError].  In a row, a negative index or NaN
    sets a property and leaves the entries as they are. *)
Definition store (grid : Grid) (y x : option Z) (c : string) : outcome Grid :=
  match y with
  | None => Throws "TypeError"
  | Some y =>
    if (y <? 0)%Z then Throws "TypeError"
    else
      match nth_error grid (Z.to_nat y) with
      | None => Throws "TypeError"
      | Some row =>
        match x with
        | None => Returns grid
        | Some x =>
          if (x <? 0)%Z then Returns grid
          else Returns (assign grid (Z.to_nat y) (writeAt row (Z.to_nat x) c))
        end
      end
  end.

(** [Math.round(a / steps)] for an integer [a] and [steps >= 0]: the nearest
    integer, the larger one of two.  When [steps] is [0], so is [a] where
    the source divides, and the quotient is NaN. *)
Definition roundDiv (a steps : Z) : option Z :=
  if (steps =? 0)%Z then None else Some ((2 * a + steps) / (2 * steps))%Z.

(** The loop of [drawLine], on the values of [i] left. *)
Fixpoint drawLine_for (values : list Z) (x1 y1 dx dy steps : Z) (grid : Grid)
  : outcome Grid :=
  match values with
  | [] => Returns grid
  | i :: rest =>
    let x := option_map (Z.add x1) (roundDiv (dx * i) steps) in
    let y := option_map (Z.add y1) (roundDiv (dy * i) steps) in
    grid' <- store grid y x "*" ;;
    drawLine_for rest x1 y1 dx dy steps grid'
  end.

(** [drawLine(grid, x1, y1, x2, y2)] of the second variant, on the integers
    its caller passes; the grid is updated in place, and returned here. *)
Definition drawLine (grid : Grid) (x1 y1 x2 y2 : Z) : outcome Grid :=
  let dx := (x2 - x1)%Z in
  let dy := (y2 - y1)%Z in
  let steps := Z.max (Z.abs dx) (Z.abs dy) in
  drawLine_for (range 0 steps) x1 y1 dx dy steps grid.

End View.

(** The two offset points of a detour around [obstacle]. *)
Definition offset1 (obstacle : Model2.Obstacle) (from to : Waypoint) : Waypoint :=
  let theta := Js.atan2 (Waypoint.y to - Waypoint.y from) (Waypoint.x to - Waypoint.x from) in
  let r := Model2.radius obstacle + 1 in
  Waypoint.new (Waypoint.x from + r * cos (theta + PI / 4))
               (Waypoint.y from + r * sin (theta + PI / 4)).

Definition offset2 (obstacle : Model2.Obstacle) (from to : Waypoint) : Waypoint :=
  let theta := Js.atan2 (Waypoint.y to - Waypoint.y from) (Waypoint.x to - Waypoint.x from) in
  let r := Model2.radius obstacle + 1 in
  Waypoint.new (Waypoint.x to - r * cos (theta - PI / 4))
               (Waypoint.y to - r * sin (theta - PI / 4)).

(** The point at distance [c] from [a] on the ray from [a] through [b]. *)
Definition pointAlong (a b : Waypoint) (c : R) : Waypoint :=
  let d := Waypoint.distanceTo a b in
  Waypoint.new (Waypoint.x a + c * ((Waypoint.x b - Waypoint.x a) / d))
               (Waypoint.y a + c * ((Waypoint.y b - Waypoint.y a) / d)).

(** The resolver that leaves every leg as it is: the plain variant pushes
    the chosen waypoint itself. *)
Definition direct (a b : Waypoint) : outcome (list Waypoint) := Returns [a; b].

(** ** The example runs of the sources *)

(** The waypoints, obstacles and step of model1.js's example. *)
Definition sample1 : Model1.RouteOptimizer :=
  Model1.newRouteOptimizer
    [Waypoint.new 0 0; Waypoint.new 10 0; Waypoint.new 5 5; Waypoint.new 0 10]
    [Model1.newObstacle 3 3 1; Model1.newObstacle 7 2 (3 / 2)]
    (3 / 2).

(** The waypoints and obstacles of model2.js's example. *)
Definition sample2 : Model2.RouteOptimizer :=
  Model2.newRouteOptimizer
    [Waypoint.new 0 0; Waypoint.new 10 0; Waypoint.new 5 5; Waypoint.new 0 10]
    [Model2.newObstacle 3 3 2; Model2.newObstacle 7 2 1].

(** ** Runs of the two loops, as relations *)

(** [subdivides s to current mids]: starting at [current], the loop of
    model1.js's [findSafeRoute] inserts the points [mids], each one a step
    [s] from the previous along the bearing to [to], as long as the distance
    left exceeds [s]. *)
Inductive subdivides (s : R) (to : Waypoint) : Waypoint -> list Waypoint -> Prop :=
| subdivides_arrived (current : Waypoint) :
    Waypoint.distanceTo current to <= s ->
    subdivides s to current []
| subdivides_advance (current : Waypoint) (mids : list Waypoint) :
    s < Waypoint.distanceTo current to ->
    let angle := Js.atan2 (Waypoint.y to - Waypoint.y current)
                          (Waypoint.x to - Waypoint.x current) in
    let next := Waypoint.new (Waypoint.x current + s * cos angle)
                             (Waypoint.y current + s * sin angle) in
    subdivides s to next mids ->
    subdivides s to current (next :: mids).

(** [selects resolve route unvisited chosen route']: from the loop state
    [(route, unvisited)], the tour builder's loop runs one iteration per
    entry of [chosen], choosing these waypoints in this order, and exits with
    [route']. *)
Inductive selects (resolve : Waypoint -> Waypoint -> outcome (list Waypoint)) :
  list (option Waypoint) -> list Waypoint -> list Waypoint ->
  list (option Waypoint) -> Prop :=
| selects_exit (route : list (option Waypoint)) :
    selects resolve route [] [] route
| selects_iteration (route : list (option Waypoint)) (first : Waypoint)
    (rest : list Waypoint) (currentWaypoint : Waypoint) (safeRoute : list Waypoint)
    (chosen : list Waypoint) (route' : list (option Waypoint)) :
    Js.lastEntry route = Some (Some currentWaypoint) ->
    let closestWaypoint := Tour.reduce currentWaypoint (first :: rest) first in
    resolve currentWaypoint closestWaypoint = Returns safeRoute ->
    selects resolve
      (route ++ map Some (Js.slice1 safeRoute))
      (Tour.splice1 (first :: rest) (Tour.indexOf closestWaypoint (first :: rest)))
      chosen route' ->
    selects resolve route (first :: rest) (closestWaypoint :: chosen) route'.

(** * Properties *)

(** ** Comparisons *)

Lemma leb_true_iff (a b : R) : Js.leb a b = true <-> a <= b.
Proof. unfold Js.leb. destruct (Rle_dec a b); split; intros; (congruence || lra). Qed.

Lemma leb_false_iff (a b : R) : Js.leb a b = false <-> b < a.
Proof. unfold Js.leb. destruct (Rle_dec a b); split; intros; (congruence || lra). Qed.

Lemma ltb_true_iff (a b : R) : Js.ltb a b = true <-> a < b.
Proof. unfold Js.ltb. destruct (Rlt_dec a b); split; intros; (congruence || lra). Qed.

Lemma ltb_false_iff (a b : R) : Js.ltb a b = false <-> b <= a.
Proof. unfold Js.ltb. destruct (Rlt_dec a b); split; intros; (congruence || lra). Qed.

Lemma gtb_true_iff (a b : R) : Js.gtb a b = true <-> b < a.
Proof. unfold Js.gtb. destruct (Rgt_dec a b); split; intros; (congruence || lra). Qed.

Lemma gtb_false_iff (a b : R) : Js.gtb a b = false <-> a <= b.
Proof. unfold Js.gtb. destruct (Rgt_dec a b); split; intros; (congruence || lra). Qed.

Lemma eqb_true_iff (a b : R) : Js.eqb a b = true <-> a = b.
Proof. unfold Js.eqb. destruct (Req_dec_T a b); split; intros; congruence. Qed.

Lemma eqb_false_iff (a b : R) : Js.eqb a b = false <-> a <> b.
Proof. unfold Js.eqb. destruct (Req_dec_T a b); split; intros; congruence. Qed.

(** ** Square roots and the polar form of a vector *)

Lemma sqrt_sq_sum_nonneg (a b : R) : 0 <= a ^ 2 + b ^ 2.
Proof. nra. Qed.

Lemma sqrt_sq_sum_pos (a b : R) : a <> 0 \/ b <> 0 -> 0 < sqrt (a ^ 2 + b ^ 2).
Proof. intros H. apply sqrt_lt_R0. destruct H; nra. Qed.

Lemma sqrt_sq_sum_sq (a b : R) : sqrt (a ^ 2 + b ^ 2) ^ 2 = a ^ 2 + b ^ 2.
Proof. apply pow2_sqrt, sqrt_sq_sum_nonneg. Qed.

Lemma sq_sum_zero (a b : R) : a ^ 2 + b ^ 2 = 0 -> a = 0 /\ b = 0.
Proof. intros H. split; nra. Qed.

(** [sqrt u = v] as soon as [v] is non-negative with square [u]. *)
Lemma sqrt_unique (u v : R) : 0 <= v -> v ^ 2 = u -> sqrt u = v.
Proof.
  intros Hv <-. replace (v ^ 2) with (v * v) by ring. now apply sqrt_square.
Qed.

Lemma cos_atan_scaled (a b : R) :
  0 < a -> cos (atan (b / a)) = a / sqrt (a ^ 2 + b ^ 2).
Proof.
  intros Ha. rewrite cos_atan.
  assert (Hd : 0 < sqrt (a ^ 2 + b ^ 2)) by (apply sqrt_sq_sum_pos; left; lra).
  replace (1 + (b / a)²) with ((a ^ 2 + b ^ 2) / a ^ 2)
    by (unfold Rsqr; field; lra).
  rewrite sqrt_div_alt by nra.
  rewrite sqrt_pow2 by lra. field. split; lra.
Qed.

Lemma sin_atan_scaled (a b : R) :
  0 < a -> sin (atan (b / a)) = b / sqrt (a ^ 2 + b ^ 2).
Proof.
  intros Ha. rewrite sin_atan.
  assert (Hd : 0 < sqrt (a ^ 2 + b ^ 2)) by (apply sqrt_sq_sum_pos; left; lra).
  replace (1 + (b / a)²) with ((a ^ 2 + b ^ 2) / a ^ 2)
    by (unfold Rsqr; field; lra).
  rewrite sqrt_div_alt by nra.
  rewrite sqrt_pow2 by lra. field. split; lra.
Qed.

(** The angle [Math.atan2] returns is the direction of the vector. *)
Lemma atan2_polar (dy dx : R) :
  dx <> 0 \/ dy <> 0 ->
  cos (Js.atan2 dy dx) = dx / sqrt (dx ^ 2 + dy ^ 2) /\
  sin (Js.atan2 dy dx) = dy / sqrt (dx ^ 2 + dy ^ 2).
Proof.
  intros Hnz.
  assert (Hd : 0 < sqrt (dx ^ 2 + dy ^ 2)) by now apply sqrt_sq_sum_pos.
  unfold Js.atan2.
  destruct (Rlt_dec 0 dx) as [Hpos | Hnpos].
  - split; [now apply cos_atan_scaled | now apply sin_atan_scaled].
  - destruct (Rlt_dec dx 0) as [Hneg | Hnneg].
    + assert (Hc : cos (atan (dy / dx)) = - dx / sqrt (dx ^ 2 + dy ^ 2)).
      { replace (dy / dx) with ((- dy) / (- dx)) by (field; lra).
        rewrite cos_atan_scaled by lra.
        replace ((- dx) ^ 2 + (- dy) ^ 2) with (dx ^ 2 + dy ^ 2) by ring.
        reflexivity. }
      assert (Hs : sin (atan (dy / dx)) = - dy / sqrt (dx ^ 2 + dy ^ 2)).
      { replace (dy / dx) with ((- dy) / (- dx)) by (field; lra).
        rewrite sin_atan_scaled by lra.
        replace ((- dx) ^ 2 + (- dy) ^ 2) with (dx ^ 2 + dy ^ 2) by ring.
        reflexivity. }
      destruct (Rle_dec 0 dy).
      * rewrite neg_cos, neg_sin, Hc, Hs. split; field; lra.
      * replace (atan (dy / dx) - PI) with (- (- atan (dy / dx) + PI)) by ring.
        rewrite cos_neg, sin_neg, neg_cos, neg_sin, cos_neg, sin_neg, Hc, Hs.
        split; field; lra.
    + assert (dx = 0) by lra. subst dx.
      replace (0 ^ 2 + dy ^ 2) with (dy ^ 2) in * by ring.
      destruct (Rlt_dec 0 dy).
      * rewrite cos_PI2, sin_PI2, sqrt_pow2 by lra. split; field; lra.
      * destruct (Rlt_dec dy 0).
        -- rewrite cos_neg, sin_neg, cos_PI2, sin_PI2.
           replace (dy ^ 2) with ((- dy) ^ 2) by ring.
           rewrite sqrt_pow2 by lra. split; field; lra.
        -- exfalso. destruct Hnz; lra.
Qed.

(** ** The closest point of a segment *)

Lemma clamp_bounds (t : R) : 0 <= Rmax 0 (Rmin 1 t) <= 1.
Proof.
  split; [apply Rmax_l |].
  apply Rmax_lub; [lra | apply Rmin_l].
Qed.

(** Among the parameters of [[0, 1]], the clamped projection minimises the
    squared distance [u ^ 2 * L - 2 * u * N] (up to a constant). *)
Lemma clamp_minimises (L N s : R) :
  0 < L -> 0 <= s <= 1 ->
  Rmax 0 (Rmin 1 (N / L)) ^ 2 * L - 2 * Rmax 0 (Rmin 1 (N / L)) * N
  <= s ^ 2 * L - 2 * s * N.
Proof.
  intros HL [Hs0 Hs1].
  assert (HN : N = (N / L) * L) by (field; lra).
  set (t0 := N / L) in *. clearbody t0. subst N.
  assert (Hscale : forall u v : R, u <= v -> u * L <= v * L)
    by (intros u v Huv; apply Rmult_le_compat_r; lra).
  unfold Rmax, Rmin.
  destruct (Rle_dec 1 t0); destruct (Rle_dec 0 _); try lra.
  - assert (H : 1 - 2 * t0 <= s ^ 2 - 2 * s * t0).
    { pose proof (Rmult_le_pos (1 - s) (2 * t0 - 1 - s) ltac:(lra) ltac:(lra)). lra. }
    apply Hscale in H. lra.
  - assert (H : - t0 ^ 2 <= s ^ 2 - 2 * s * t0).
    { pose proof (pow2_ge_0 (s - t0)). lra. }
    apply Hscale in H. lra.
  - assert (H : 0 <= s ^ 2 - 2 * s * t0).
    { pose proof (Rmult_le_pos s (s - 2 * t0) ltac:(lra) ltac:(lra)). lra. }
    apply Hscale in H. lra.
Qed.

Lemma closestPointOnSegment_degenerate (p a : Waypoint) :
  closestPointOnSegment p a a = a.
Proof.
  unfold closestPointOnSegment. destruct (Waypoint.eq_dec a a); congruence.
Qed.

Lemma closestPointOnSegment_onSegment (p a b : Waypoint) :
  onSegment a b (closestPointOnSegment p a b).
Proof.
  unfold closestPointOnSegment, onSegment.
  destruct (Waypoint.eq_dec a b) as [-> | Hab].
  - exists 0. repeat split; try lra; ring.
  - eexists. split; [apply clamp_bounds |]. split; reflexivity.
Qed.

Lemma sq_sum_pos (u v : R) : u <> 0 \/ v <> 0 -> 0 < u ^ 2 + v ^ 2.
Proof.
  intros [H | H]; nra.
Qed.

Lemma waypoints_differ (a b : Waypoint) :
  a <> b ->
  0 < (Waypoint.x b - Waypoint.x a) ^ 2 + (Waypoint.y b - Waypoint.y a) ^ 2.
Proof.
  intros Hab. destruct a as [ax ay], b as [bx b_y].
  unfold Waypoint.x, Waypoint.y. apply sq_sum_pos.
  destruct (Req_dec_T ax bx) as [-> | Hx].
  - destruct (Req_dec_T ay b_y) as [-> | Hy]; [congruence | right; lra].
  - left; lra.
Qed.

(** No point of the segment is nearer to [p] than [closestPointOnSegment]. *)
Lemma closestPointOnSegment_nearest (p a b q : Waypoint) :
  onSegment a b q ->
  Waypoint.distanceTo (closestPointOnSegment p a b) p <= Waypoint.distanceTo q p.
Proof.
  intros (s & Hs & Hqx & Hqy).
  unfold Waypoint.distanceTo. apply sqrt_le_1_alt.
  unfold closestPointOnSegment.
  destruct (Waypoint.eq_dec a b) as [-> | Hab].
  - rewrite Hqx, Hqy. apply Req_le. ring.
  - pose proof (waypoints_differ a b Hab) as HL.
    cbv zeta. cbn [Waypoint.x Waypoint.y]. rewrite Hqx, Hqy.
    set (dx := Waypoint.x b - Waypoint.x a) in *.
    set (dy := Waypoint.y b - Waypoint.y a) in *.
    set (N := (Waypoint.x p - Waypoint.x a) * dx + (Waypoint.y p - Waypoint.y a) * dy).
    pose proof (clamp_minimises (dx ^ 2 + dy ^ 2) N s HL Hs) as Hmin.
    set (t := Rmax 0 (Rmin 1 (N / (dx ^ 2 + dy ^ 2)))) in *.
    unfold N in Hmin. clearbody t. clear N. clearbody dx dy. nra.
Qed.

(** model1.js computes the distance to that point. *)
Lemma model1_distance_closest (o : Model1.Obstacle) (seg : Model1.LineSegment) :
  Model1.distanceToLineSegment o seg =
  Waypoint.distanceTo
    (closestPointOnSegment (Waypoint.new (Model1.x o) (Model1.y o))
                           (Model1.start seg) (Model1.end_ seg))
    (Waypoint.new (Model1.x o) (Model1.y o)).
Proof.
  unfold Model1.distanceToLineSegment, closestPointOnSegment, Model1.distanceTo.
  destruct seg as [a b]. simpl Model1.start. simpl Model1.end_. cbv zeta.
  destruct (Waypoint.eq_dec a b) as [-> | Hab].
  - replace (Js.eqb _ 0) with true
      by (symmetry; apply eqb_true_iff; ring).
    unfold Waypoint.distanceTo. simpl. f_equal. ring.
  - pose proof (waypoints_differ a b Hab) as HL.
    replace (Js.eqb _ 0) with false
      by (symmetry; apply eqb_false_iff; lra).
    unfold Waypoint.distanceTo. simpl. f_equal. ring.
Qed.

(** model2.js computes the same distance as model1.js. *)
Lemma model2_distance_model1 (ox oy r : R) (a b : Waypoint) :
  Model2.distanceToLineSegment (Model2.newObstacle ox oy r) (Model2.segmentOf a b) =
  Model1.distanceToLineSegment (Model1.newObstacle ox oy r) (Model1.newLineSegment a b).
Proof.
  unfold Model2.distanceToLineSegment, Model1.distanceToLineSegment,
    Model2.segmentOf, Model1.distanceTo.
  simpl.
  set (dx := Waypoint.x b - Waypoint.x a).
  set (dy := Waypoint.y b - Waypoint.y a).
  replace (sqrt (dx * (dx * 1) + dy * (dy * 1)) * (sqrt (dx * (dx * 1) + dy * (dy * 1)) * 1))
    with (dx * (dx * 1) + dy * (dy * 1)).
  2:{ pose proof (sqrt_sq_sum_sq dx dy) as H. simpl in H. lra. }
  unfold Js.eqb.
  destruct (Req_dec_T (sqrt _) 0) as [Hz | Hnz];
    destruct (Req_dec_T (dx * (dx * 1) + dy * (dy * 1)) 0) as [Hz' | Hnz'];
    try reflexivity.
  - exfalso. apply Hnz'. apply sqrt_eq_0; [nra | exact Hz].
  - exfalso. apply Hnz. rewrite Hz'. apply sqrt_0.
Qed.

Lemma model2_segmentOf_eta (seg : Model2.LineSegment) :
  seg = Model2.segmentOf (Waypoint.new (Model2.x1 seg) (Model2.y1 seg))
                         (Waypoint.new (Model2.x2 seg) (Model2.y2 seg)).
Proof. now destruct seg. Qed.

Lemma model2_distance_closest (o : Model2.Obstacle) (seg : Model2.LineSegment) :
  Model2.distanceToLineSegment o seg =
  Waypoint.distanceTo
    (closestPointOnSegment (Waypoint.new (Model2.x o) (Model2.y o))
                           (Waypoint.new (Model2.x1 seg) (Model2.y1 seg))
                           (Waypoint.new (Model2.x2 seg) (Model2.y2 seg)))
    (Waypoint.new (Model2.x o) (Model2.y o)).
Proof.
  rewrite (model2_segmentOf_eta seg) at 1. destruct o as [ox oy r].
  rewrite model2_distance_model1. now rewrite model1_distance_closest.
Qed.

(** The predicate holds exactly when the obstacle's disk meets the segment. *)
Lemma model1_intersects_meets (o : Model1.Obstacle) (seg : Model1.LineSegment) :
  Model1.intersectsWithLineSegment o seg = true <->
  exists q : Waypoint,
    onSegment (Model1.start seg) (Model1.end_ seg) q /\
    Waypoint.distanceTo q (Waypoint.new (Model1.x o) (Model1.y o)) <= Model1.radius o.
Proof.
  unfold Model1.intersectsWithLineSegment. cbv zeta.
  rewrite leb_true_iff, model1_distance_closest. split.
  - intros H. eexists. split; [apply closestPointOnSegment_onSegment | exact H].
  - intros (q & Hq & Hd).
    eapply Rle_trans; [apply closestPointOnSegment_nearest, Hq | exact Hd].
Qed.

(** C6: the segment-circle predicate of model1.js and of model2.js is true
    exactly when the distance from the obstacle's centre to the closest
    point of the segment is at most the radius; an obstacle whose radius is
    exactly that distance intersects the segment. *)
Theorem intersectsWithLineSegment_iff_closest_within_radius :
  (forall (o : Model1.Obstacle) (seg : Model1.LineSegment),
     let centre := Waypoint.new (Model1.x o) (Model1.y o) in
     Model1.intersectsWithLineSegment o seg = true <->
     Waypoint.distanceTo
       (closestPointOnSegment centre (Model1.start seg) (Model1.end_ seg)) centre
     <= Model1.radius o) /\
  (forall (o : Model2.Obstacle) (seg : Model2.LineSegment),
     let centre := Waypoint.new (Model2.x o) (Model2.y o) in
     Model2.intersectsWithLineSegment o seg = true <->
     Waypoint.distanceTo
       (closestPointOnSegment centre (Waypoint.new (Model2.x1 seg) (Model2.y1 seg))
                              (Waypoint.new (Model2.x2 seg) (Model2.y2 seg))) centre
     <= Model2.radius o) /\
  (forall (cx cy : R) (seg : Model1.LineSegment),
     let centre := Waypoint.new cx cy in
     let approach := Waypoint.distanceTo
       (closestPointOnSegment centre (Model1.start seg) (Model1.end_ seg)) centre in
     Model1.intersectsWithLineSegment (Model1.newObstacle cx cy approach) seg = true) /\
  (forall (cx cy : R) (seg : Model2.LineSegment),
     let centre := Waypoint.new cx cy in
     let approach := Waypoint.distanceTo
       (closestPointOnSegment centre (Waypoint.new (Model2.x1 seg) (Model2.y1 seg))
                              (Waypoint.new (Model2.x2 seg) (Model2.y2 seg))) centre in
     Model2.intersectsWithLineSegment (Model2.newObstacle cx cy approach) seg = true).
Proof.
  repeat split.
  - unfold Model1.intersectsWithLineSegment. cbv zeta.
    rewrite leb_true_iff, model1_distance_closest. tauto.
  - unfold Model1.intersectsWithLineSegment. cbv zeta.
    rewrite leb_true_iff, model1_distance_closest. tauto.
  - unfold Model2.intersectsWithLineSegment. cbv zeta.
    rewrite leb_true_iff, model2_distance_closest. tauto.
  - unfold Model2.intersectsWithLineSegment. cbv zeta.
    rewrite leb_true_iff, model2_distance_closest. tauto.
  - intros cx cy seg. cbv zeta. unfold Model1.intersectsWithLineSegment. cbv zeta.
    rewrite leb_true_iff, model1_distance_closest. apply Rle_refl.
  - intros cx cy seg. cbv zeta. unfold Model2.intersectsWithLineSegment. cbv zeta.
    rewrite leb_true_iff, model2_distance_closest. apply Rle_refl.
Qed.

(** ** Degenerate segments and division *)

Lemma model1_checked_total (o : Model1.Obstacle) (seg : Model1.LineSegment) :
  Model1.distanceToLineSegment_checked o seg = Some (Model1.distanceToLineSegment o seg).
Proof.
  unfold Model1.distanceToLineSegment_checked, Model1.distanceToLineSegment,
    Model1.checkedDiv.
  cbv zeta. destruct (Js.eqb _ 0); reflexivity.
Qed.

Lemma model2_checked_total (o : Model2.Obstacle) (seg : Model2.LineSegment) :
  Model2.distanceToLineSegment_checked o seg = Some (Model2.distanceToLineSegment o seg).
Proof.
  unfold Model2.distanceToLineSegment_checked, Model2.distanceToLineSegment,
    Model1.checkedDiv.
  cbv zeta beta iota.
  set (len := sqrt _).
  destruct (Js.eqb len 0) eqn:Hlen; [reflexivity |].
  apply eqb_false_iff in Hlen.
  replace (Js.eqb (len ^ 2) 0) with false; [reflexivity |].
  symmetry. apply eqb_false_iff. intros H. apply Hlen. nra.
Qed.

(** C7: on a segment reduced to the point [a], the distance computed is the
    distance to [a] (its closest point is [a]); and on no segment at all does
    the computation divide by zero. *)
Theorem distanceToLineSegment_degenerate_no_division_by_zero :
  (forall (o : Model1.Obstacle) (a : Waypoint),
     Model1.distanceToLineSegment o (Model1.newLineSegment a a) = Model1.distanceTo o a /\
     Model1.distanceToLineSegment_checked o (Model1.newLineSegment a a)
     = Some (Model1.distanceTo o a)) /\
  (forall (o : Model2.Obstacle) (a : Waypoint),
     let d := sqrt ((Model2.x o - Waypoint.x a) ^ 2 + (Model2.y o - Waypoint.y a) ^ 2) in
     Model2.distanceToLineSegment o (Model2.segmentOf a a) = d /\
     Model2.distanceToLineSegment_checked o (Model2.segmentOf a a) = Some d) /\
  (forall p a : Waypoint, closestPointOnSegment p a a = a) /\
  (forall (o : Model1.Obstacle) (seg : Model1.LineSegment),
     Model1.distanceToLineSegment_checked o seg <> None) /\
  (forall (o : Model2.Obstacle) (seg : Model2.LineSegment),
     Model2.distanceToLineSegment_checked o seg <> None).
Proof.
  assert (H1 : forall (o : Model1.Obstacle) (a : Waypoint),
             Model1.distanceToLineSegment o (Model1.newLineSegment a a)
             = Model1.distanceTo o a).
  { intros o a. unfold Model1.distanceToLineSegment. cbv zeta.
    cbn [Model1.start Model1.end_].
    replace (Js.eqb _ 0) with true; [reflexivity |].
    symmetry. apply eqb_true_iff. ring. }
  assert (H2 : forall (o : Model2.Obstacle) (a : Waypoint),
             Model2.distanceToLineSegment o (Model2.segmentOf a a)
             = sqrt ((Model2.x o - Waypoint.x a) ^ 2 + (Model2.y o - Waypoint.y a) ^ 2)).
  { intros o a. unfold Model2.distanceToLineSegment, Model2.segmentOf.
    cbv zeta beta iota.
    cbn [Model2.x1 Model2.y1 Model2.x2 Model2.y2].
    replace (Js.eqb _ 0) with true; [reflexivity |].
    symmetry. apply eqb_true_iff.
    replace ((Waypoint.x a - Waypoint.x a) ^ 2 + (Waypoint.y a - Waypoint.y a) ^ 2)
      with 0 by ring.
    apply sqrt_0. }
  repeat split.
  - apply H1.
  - rewrite model1_checked_total. f_equal. apply H1.
  - apply H2.
  - rewrite model2_checked_total. f_equal. apply H2.
  - intros p a. apply closestPointOnSegment_degenerate.
  - intros o seg. rewrite model1_checked_total. discriminate.
  - intros o seg. rewrite model2_checked_total. discriminate.
Qed.

Lemma model2_intersects_meets (o : Model2.Obstacle) (a b : Waypoint) :
  Model2.intersectsWithLineSegment o (Model2.segmentOf a b) = true <->
  exists q : Waypoint,
    onSegment a b q /\
    Waypoint.distanceTo q (Waypoint.new (Model2.x o) (Model2.y o)) <= Model2.radius o.
Proof.
  unfold Model2.intersectsWithLineSegment. cbv zeta.
  rewrite leb_true_iff, model2_distance_closest.
  cbn [Model2.segmentOf Model2.x1 Model2.y1 Model2.x2 Model2.y2].
  replace (Waypoint.new (Waypoint.x a) (Waypoint.y a)) with a by now destruct a.
  replace (Waypoint.new (Waypoint.x b) (Waypoint.y b)) with b by now destruct b.
  split.
  - intros H. eexists. split; [apply closestPointOnSegment_onSegment | exact H].
  - intros (q & Hq & Hd).
    eapply Rle_trans; [apply closestPointOnSegment_nearest, Hq | exact Hd].
Qed.

(** ** The obstacle-offset resolver of model2.js *)

(** [find] returns the first entry that satisfies the test. *)
Lemma find_first {A : Type} (f : A -> bool) (l : list A) :
  match find f l with
  | None => Forall (fun a => f a = false) l
  | Some a => exists before after,
      l = before ++ a :: after /\ Forall (fun b => f b = false) before /\ f a = true
  end.
Proof.
  induction l as [| a l IH]; simpl.
  - constructor.
  - destruct (f a) eqn:Hfa.
    + exists [], l. repeat split; [constructor | exact Hfa].
    + destruct (find f l) as [c |].
      * destruct IH as (before & after & -> & Hb & Hc).
        exists (a :: before), after. repeat split; [now constructor | exact Hc].
      * now constructor.
Qed.

Lemma existsb_find {A : Type} (f : A -> bool) (l : list A) :
  existsb f l = match find f l with Some _ => true | None => false end.
Proof.
  induction l as [| a l IH]; simpl; [reflexivity |].
  destruct (f a); [reflexivity | exact IH].
Qed.

(** C2: either no obstacle intersects the straight leg and the resolver
    returns [[from; to]], or it takes the first intersecting obstacle in
    input order and returns [[from; offset1; offset2; to]], the offsets at
    distance [radius + 1] from the ends, at 45 degrees on either side of the
    bearing [atan2 (to.y - from.y) (to.x - from.x)]. *)
Theorem findSafeRoute_straight_or_offset_detour
  (this : Model2.RouteOptimizer) (from to : Waypoint) :
  let hits := fun o => Model2.intersectsWithLineSegment o (Model2.segmentOf from to) in
  (Forall (fun o => hits o = false) (Model2.obstacles this) /\
   Model2.findSafeRoute this from to = Returns [from; to])
  \/
  (exists before obstacle after,
     Model2.obstacles this = before ++ obstacle :: after /\
     Forall (fun o => hits o = false) before /\
     hits obstacle = true /\
     Model2.findSafeRoute this from to =
     Returns
       [from;
        Waypoint.new
          (Waypoint.x from + (Model2.radius obstacle + 1)
             * cos (Js.atan2 (Waypoint.y to - Waypoint.y from)
                             (Waypoint.x to - Waypoint.x from) + PI / 4))
          (Waypoint.y from + (Model2.radius obstacle + 1)
             * sin (Js.atan2 (Waypoint.y to - Waypoint.y from)
                             (Waypoint.x to - Waypoint.x from) + PI / 4));
        Waypoint.new
          (Waypoint.x to - (Model2.radius obstacle + 1)
             * cos (Js.atan2 (Waypoint.y to - Waypoint.y from)
                             (Waypoint.x to - Waypoint.x from) - PI / 4))
          (Waypoint.y to - (Model2.radius obstacle + 1)
             * sin (Js.atan2 (Waypoint.y to - Waypoint.y from)
                             (Waypoint.x to - Waypoint.x from) - PI / 4));
        to]).
Proof.
  cbv zeta. unfold Model2.findSafeRoute, Model2.findAlternativeSafePath. cbv zeta.
  rewrite existsb_find.
  pose proof (find_first
    (fun o => Model2.intersectsWithLineSegment o (Model2.segmentOf from to))
    (Model2.obstacles this)) as Hfind.
  cbv beta in Hfind.
  destruct (find _ (Model2.obstacles this)) as [obstacle |].
  - right. destruct Hfind as (before & after & Heq & Hb & Ho).
    exists before, obstacle, after. repeat split; assumption || reflexivity.
  - left. split; [exact Hfind | reflexivity].
Qed.

(** C8: when [findSafeRoute] has found an intersecting obstacle, the search
    in [findAlternativeSafePath] finds one too: the call returns, it does not
    throw. *)
Theorem findAlternativeSafePath_finds_obstacle
  (this : Model2.RouteOptimizer) (startWaypoint endWaypoint : Waypoint) :
  existsb (fun obstacle =>
             Model2.intersectsWithLineSegment
               obstacle (Model2.segmentOf startWaypoint endWaypoint))
          (Model2.obstacles this) = true ->
  exists obstacle,
    In obstacle (Model2.obstacles this) /\
    Model2.findAlternativeSafePath this startWaypoint endWaypoint =
    Returns [startWaypoint; offset1 obstacle startWaypoint endWaypoint;
             offset2 obstacle startWaypoint endWaypoint; endWaypoint].
Proof.
  intros Hsome. unfold Model2.findAlternativeSafePath. cbv zeta.
  rewrite existsb_find in Hsome.
  destruct (find _ (Model2.obstacles this)) as [obstacle |] eqn:Hfind;
    [| discriminate].
  exists obstacle. split; [| reflexivity].
  now apply find_some in Hfind.
Qed.

(** [findSafeRoute] never throws. *)
Lemma model2_findSafeRoute_returns (this : Model2.RouteOptimizer) (from to : Waypoint) :
  exists middle, Model2.findSafeRoute this from to = Returns (from :: middle ++ [to]).
Proof.
  unfold Model2.findSafeRoute, Model2.findAlternativeSafePath. cbv zeta.
  rewrite existsb_find.
  destruct (find _ (Model2.obstacles this)) as [o |].
  - now exists [offset1 o from to; offset2 o from to].
  - now exists [].
Qed.

(** ** The nearest-waypoint scan *)

(** What a left fold with the callback of [reduce] returns: the initial
    value if no entry is strictly nearer, and otherwise the first entry at
    the least distance. *)
Section Scan.

Context {A : Type}.
Variable dist : A -> R.
Variable callback : A -> A -> A.
Hypothesis callback_eq :
  forall m w : A, callback m w = if Js.ltb (dist w) (dist m) then w else m.

Lemma scan_first_least (l : list A) :
  forall init : A,
  let m := fold_left callback l init in
  (m = init /\ Forall (fun w => dist init <= dist w) l) \/
  (exists l1 l2,
     l = l1 ++ m :: l2 /\
     dist m < dist init /\
     Forall (fun w => dist m < dist w) l1 /\
     Forall (fun w => dist m <= dist w) l2).
Proof.
  induction l as [| a l IH]; intros init; cbn [fold_left].
  - left. split; [reflexivity | constructor].
  - rewrite (callback_eq init a).
    destruct (Js.ltb (dist a) (dist init)) eqn:Hlt.
    + apply ltb_true_iff in Hlt. right.
      destruct (IH a) as [[Hm Hall] | (l1 & l2 & Hl & Hlt' & H1 & H2)].
      * exists [], l. rewrite Hm. repeat split; auto.
      * exists (a :: l1), l2. rewrite Hl at 1. repeat split; auto; try lra.
    + apply ltb_false_iff in Hlt.
      destruct (IH init) as [[Hm Hall] | (l1 & l2 & Hl & Hlt' & H1 & H2)].
      * left. split; [exact Hm | constructor; [exact Hlt | exact Hall]].
      * right. exists (a :: l1), l2. rewrite Hl at 1.
        repeat split; auto. constructor; [lra | exact H1].
Qed.

End Scan.

Lemma reduce_scan (cur : Waypoint) (l : list Waypoint) :
  forall init : Waypoint,
  let m := Tour.reduce cur l init in
  (m = init /\
   Forall (fun w => Waypoint.distanceTo init cur <= Waypoint.distanceTo w cur) l) \/
  (exists l1 l2,
     l = l1 ++ m :: l2 /\
     Waypoint.distanceTo m cur < Waypoint.distanceTo init cur /\
     Forall (fun w => Waypoint.distanceTo m cur < Waypoint.distanceTo w cur) l1 /\
     Forall (fun w => Waypoint.distanceTo m cur <= Waypoint.distanceTo w cur) l2).
Proof.
  exact (scan_first_least (fun w => Waypoint.distanceTo w cur) (Tour.closer cur)
                          (fun _ _ => eq_refl) l).
Qed.

(** The scan as the loop runs it, started on the array's own first entry. *)
Lemma reduce_first_nearest (cur first : Waypoint) (rest : list Waypoint) :
  let m := Tour.reduce cur (first :: rest) first in
  exists l1 l2,
    first :: rest = l1 ++ m :: l2 /\
    Forall (fun w => Waypoint.distanceTo m cur < Waypoint.distanceTo w cur) l1 /\
    Forall (fun w => Waypoint.distanceTo m cur <= Waypoint.distanceTo w cur) l2.
Proof.
  cbv zeta.
  destruct (reduce_scan cur (first :: rest) first)
    as [[Hm Hall] | (l1 & l2 & Hl & _ & H1 & H2)].
  - exists [], rest. rewrite Hm. repeat split; [constructor |].
    now inversion Hall.
  - exists l1, l2. auto.
Qed.

Lemma indexOf_first (m : Waypoint) (l1 l2 : list Waypoint) :
  ~ In m l1 -> Tour.indexOf m (l1 ++ m :: l2) = Some (List.length l1).
Proof.
  induction l1 as [| a l1 IH]; intros Hnotin; cbn [app Tour.indexOf List.length].
  - destruct (Waypoint.eq_dec m m); congruence.
  - destruct (Waypoint.eq_dec a m) as [-> | Hne].
    + exfalso. apply Hnotin. now left.
    + rewrite IH; [reflexivity |]. intros Hin. apply Hnotin. now right.
Qed.

Lemma splice1_middle (m : Waypoint) (l1 l2 : list Waypoint) :
  Tour.splice1 (l1 ++ m :: l2) (Some (List.length l1)) = l1 ++ l2.
Proof.
  unfold Tour.splice1.
  rewrite firstn_app, firstn_all, Nat.sub_diag. cbn [firstn].
  rewrite app_nil_r. f_equal.
  replace (S (List.length l1)) with (List.length (l1 ++ [m]))
    by (rewrite length_app; simpl; lia).
  replace (l1 ++ m :: l2) with ((l1 ++ [m]) ++ l2) by now rewrite <- app_assoc.
  rewrite skipn_app, skipn_all, Nat.sub_diag. reflexivity.
Qed.

(** One iteration removes from the array exactly the entry it chose. *)
Lemma iteration_choice (cur first : Waypoint) (rest : list Waypoint) :
  let m := Tour.reduce cur (first :: rest) first in
  exists l1 l2,
    first :: rest = l1 ++ m :: l2 /\
    Forall (fun w => Waypoint.distanceTo m cur < Waypoint.distanceTo w cur) l1 /\
    Forall (fun w => Waypoint.distanceTo m cur <= Waypoint.distanceTo w cur) l2 /\
    Tour.indexOf m (first :: rest) = Some (List.length l1) /\
    Tour.splice1 (first :: rest) (Tour.indexOf m (first :: rest)) = l1 ++ l2.
Proof.
  cbv zeta.
  destruct (reduce_first_nearest cur first rest) as (l1 & l2 & Hl & H1 & H2).
  exists l1, l2.
  assert (Hidx : Tour.indexOf (Tour.reduce cur (first :: rest) first) (first :: rest)
                 = Some (List.length l1)).
  { rewrite Hl at 2. apply indexOf_first. intros Hin.
    rewrite Forall_forall in H1. specialize (H1 _ Hin). lra. }
  repeat split; auto.
  rewrite Hidx. rewrite Hl at 1. apply splice1_middle.
Qed.

(** *** Identity or value *)

Lemma ref_reduce_value (cur : Waypoint) (arr : list Ref.obj) :
  forall init : Ref.obj,
    snd (Ref.reduce cur arr init) = Tour.reduce cur (map snd arr) (snd init).
Proof.
  unfold Ref.reduce, Tour.reduce.
  induction arr as [| a arr IH]; intros init; cbn [fold_left map]; [reflexivity |].
  rewrite IH. f_equal. unfold Ref.closer, Tour.closer.
  now destruct (Js.ltb _ _).
Qed.

Lemma ref_indexOf_first (m : Ref.obj) (l1 l2 : list Ref.obj) :
  (forall b, In b l1 -> fst b <> fst m) ->
  Ref.indexOf m (l1 ++ m :: l2) = Some (List.length l1).
Proof.
  induction l1 as [| a l1 IH]; intros Hnone; cbn [app Ref.indexOf List.length].
  - destruct (Nat.eq_dec (fst m) (fst m)); congruence.
  - destruct (Nat.eq_dec (fst a) (fst m)) as [Heq | Hne].
    + exfalso. apply (Hnone a); [now left | exact Heq].
    + rewrite IH; [reflexivity |]. intros b Hb. apply Hnone. now right.
Qed.

(** On an array of waypoint objects, the object [reduce] returns is found by
    [indexOf], which compares references, at the index where the look-up by
    value finds its coordinates. *)
Lemma indexOf_identity_or_value (cur : Waypoint) (first : Ref.obj) (rest : list Ref.obj) :
  Ref.consistent (first :: rest) ->
  let arr := first :: rest in
  let chosen := Ref.reduce cur arr first in
  snd chosen = Tour.reduce cur (map snd arr) (snd first) /\
  Ref.indexOf chosen arr = Tour.indexOf (snd chosen) (map snd arr).
Proof.
  intros Hcons. cbv zeta. split; [apply ref_reduce_value |].
  pose proof (scan_first_least (fun o => Waypoint.distanceTo (snd o) cur)
                (Ref.closer cur) (fun _ _ => eq_refl) (first :: rest) first) as Hscan.
  cbv zeta in Hscan.
  set (chosen := Ref.reduce cur (first :: rest) first).
  change (fold_left (Ref.closer cur) (first :: rest) first) with chosen in Hscan.
  destruct Hscan as [[Hm _] | (l1 & l2 & Hl & _ & H1 & _)].
  - rewrite Hm. cbn [Ref.indexOf map Tour.indexOf].
    destruct (Nat.eq_dec (fst first) (fst first)); [| congruence].
    destruct (Waypoint.eq_dec (snd first) (snd first)); congruence.
  - rewrite Forall_forall in H1.
    assert (Hsame : forall b, In b l1 -> fst b = fst chosen -> snd b = snd chosen).
    { intros b Hin Hid. apply Hcons; [| | exact Hid]; rewrite Hl; apply in_or_app;
        [left; exact Hin | right; now left]. }
    clearbody chosen. rewrite Hl, map_app. cbn [map].
    rewrite ref_indexOf_first, indexOf_first, length_map; [reflexivity | |].
    + intros Hin. apply in_map_iff in Hin. destruct Hin as (b & Hb & Hin).
      specialize (H1 b Hin). rewrite Hb in H1. lra.
    + intros b Hin Hid. specialize (H1 b Hin).
      rewrite (Hsame b Hin Hid) in H1. lra.
Qed.

(** C3: an iteration of the tour builder's loop that finds the array of
    unvisited waypoints non-empty chooses the entry [m] of that array such
    that every entry before it is strictly farther from the current waypoint
    and every entry after it is at least as far: a nearest one, and the
    first of the nearest in input order.  It resolves the leg to [m] and
    goes on with [m] taken out of the array. *)
Theorem optimizeRoute_selects_first_nearest
  (resolve : Waypoint -> Waypoint -> outcome (list Waypoint))
  (fuel : nat) (route : list (option Waypoint))
  (unvisitedWaypoints : list Waypoint) (currentWaypoint : Waypoint) :
  unvisitedWaypoints <> [] ->
  Js.lastEntry route = Some (Some currentWaypoint) ->
  exists before m after,
    unvisitedWaypoints = before ++ m :: after /\
    Forall (fun w => Waypoint.distanceTo m currentWaypoint
                     < Waypoint.distanceTo w currentWaypoint) before /\
    Forall (fun w => Waypoint.distanceTo m currentWaypoint
                     <= Waypoint.distanceTo w currentWaypoint) after /\
    Tour.optimizeRoute_while resolve (S fuel) route unvisitedWaypoints =
    (safeRoute <- resolve currentWaypoint m ;;
     Tour.optimizeRoute_while resolve fuel
       (route ++ map Some (Js.slice1 safeRoute)) (before ++ after)) /\
    Plain.optimizeRoute_while (S fuel) route unvisitedWaypoints =
    Plain.optimizeRoute_while fuel (route ++ [Some m]) (before ++ after).
Proof.
  intros Hne Hlast.
  destruct unvisitedWaypoints as [| first rest]; [congruence |].
  destruct (iteration_choice currentWaypoint first rest)
    as (l1 & l2 & Hl & H1 & H2 & _ & Hsplice).
  exists l1, (Tour.reduce currentWaypoint (first :: rest) first), l2.
  repeat split; auto.
  - cbn [Tour.optimizeRoute_while]. rewrite Hlast. cbv zeta.
    rewrite Hsplice. reflexivity.
  - cbn [Plain.optimizeRoute_while]. rewrite Hlast. cbv zeta.
    rewrite Hsplice. reflexivity.
Qed.

(** ** The bounded-step resolver of model1.js *)

Lemma distanceTo_sym (a b : Waypoint) : Waypoint.distanceTo a b = Waypoint.distanceTo b a.
Proof. unfold Waypoint.distanceTo. f_equal. ring. Qed.

Lemma distanceTo_nonneg (a b : Waypoint) : 0 <= Waypoint.distanceTo a b.
Proof. apply sqrt_pos. Qed.

(** One step of the loop: the point inserted is a step [s] away from the
    current one, and exactly [s] nearer to the target. *)
Lemma intermediate_step (this : Model1.RouteOptimizer) (cur to : Waypoint) :
  0 < Model1.safeDistance this ->
  Model1.safeDistance this < Waypoint.distanceTo cur to ->
  let next := Model1.findIntermediateWaypoint this cur to in
  Waypoint.distanceTo cur next = Model1.safeDistance this /\
  Waypoint.distanceTo next to = Waypoint.distanceTo cur to - Model1.safeDistance this.
Proof.
  intros Hs Hfar. cbv zeta.
  unfold Model1.findIntermediateWaypoint. cbv zeta.
  set (s := Model1.safeDistance this) in *. clearbody s.
  destruct cur as [cx cy], to as [tx ty].
  unfold Waypoint.distanceTo in *. cbn [Waypoint.x Waypoint.y] in *.
  set (dx := tx - cx) in *. set (dy := ty - cy) in *.
  replace ((cx - tx) ^ 2 + (cy - ty) ^ 2) with (dx ^ 2 + dy ^ 2) in *
    by (unfold dx, dy; ring).
  assert (Hnz : dx <> 0 \/ dy <> 0).
  { destruct (Req_dec_T dx 0) as [Hx | Hx]; [| now left].
    destruct (Req_dec_T dy 0) as [Hy | Hy]; [| now right].
    exfalso. rewrite Hx, Hy in Hfar.
    replace (0 ^ 2 + 0 ^ 2) with 0 in Hfar by ring. rewrite sqrt_0 in Hfar. lra. }
  destruct (atan2_polar dy dx Hnz) as [Hcos Hsin]. rewrite Hcos, Hsin.
  pose proof (sqrt_sq_sum_sq dx dy) as HD.
  set (D := sqrt (dx ^ 2 + dy ^ 2)) in *.
  assert (HDpos : 0 < D) by lra.
  split.
  - apply sqrt_unique; [lra |].
    transitivity ((dx ^ 2 + dy ^ 2) * (s / D) ^ 2); [| field; lra].
    rewrite <- HD. field. lra.
  - apply sqrt_unique; [lra |].
    transitivity ((dx ^ 2 + dy ^ 2) * (1 - s / D) ^ 2);
      [| unfold dx, dy; field; lra].
    rewrite <- HD. field. lra.
Qed.

Lemma findSafeRoute_while_arrived (fuel : nat) (this : Model1.RouteOptimizer)
  (acc : list Waypoint) (cur to : Waypoint) :
  Waypoint.distanceTo cur to <= Model1.safeDistance this ->
  Model1.findSafeRoute_while (S fuel) this acc cur to = Returns (acc ++ [to]).
Proof.
  intros Hnear. cbn [Model1.findSafeRoute_while].
  replace (Js.gtb _ _) with false; [reflexivity |].
  symmetry. now apply gtb_false_iff.
Qed.

Lemma findSafeRoute_while_advance (fuel : nat) (this : Model1.RouteOptimizer)
  (acc : list Waypoint) (cur to : Waypoint) :
  Model1.safeDistance this < Waypoint.distanceTo cur to ->
  Model1.findSafeRoute_while (S fuel) this acc cur to =
  Model1.findSafeRoute_while fuel this
    (acc ++ [Model1.findIntermediateWaypoint this cur to])
    (Model1.findIntermediateWaypoint this cur to) to.
Proof.
  intros Hfar. cbn [Model1.findSafeRoute_while].
  replace (Js.gtb _ _) with true; [reflexivity |].
  symmetry. now apply gtb_true_iff.
Qed.

(** With a positive step the loop ends: [n] iterations are enough when the
    distance to cover is at most [n + 1] steps. *)
Lemma findSafeRoute_while_terminates (this : Model1.RouteOptimizer) (to : Waypoint) :
  0 < Model1.safeDistance this ->
  forall (n : nat) (cur : Waypoint),
    Waypoint.distanceTo cur to <= INR (S n) * Model1.safeDistance this ->
    exists mids,
      subdivides (Model1.safeDistance this) to cur mids /\
      (List.length mids <= n)%nat /\
      forall (fuel : nat) (acc : list Waypoint),
        (n < fuel)%nat ->
        Model1.findSafeRoute_while fuel this acc cur to = Returns (acc ++ mids ++ [to]).
Proof.
  intros Hs. induction n as [| n IH]; intros cur Hd.
  - exists []. split; [| split; [simpl; lia |]].
    + apply subdivides_arrived. simpl in Hd. lra.
    + intros [| fuel] acc Hfuel; [lia |].
      apply findSafeRoute_while_arrived. simpl in Hd. lra.
  - destruct (Rle_dec (Waypoint.distanceTo cur to) (Model1.safeDistance this))
      as [Hnear | Hfar].
    + exists []. split; [| split; [simpl; lia |]].
      * now apply subdivides_arrived.
      * intros [| fuel] acc Hfuel; [lia |].
        now apply findSafeRoute_while_arrived.
    + apply Rnot_le_lt in Hfar.
      destruct (intermediate_step this cur to Hs Hfar) as [_ Hleft].
      cbv zeta in Hleft.
      destruct (IH (Model1.findIntermediateWaypoint this cur to))
        as (mids & Hsub & Hlen & Hrun).
      { rewrite Hleft. rewrite S_INR in Hd. lra. }
      exists (Model1.findIntermediateWaypoint this cur to :: mids).
      split; [| split; [simpl; lia |]].
      * now apply subdivides_advance.
      * intros [| fuel] acc Hfuel; [lia |].
        rewrite findSafeRoute_while_advance by exact Hfar.
        rewrite Hrun by lia. now rewrite <- app_assoc.
Qed.

(** Enough fuel for a leg of a given length. *)
Lemma steps_bound (s d : R) : 0 < s -> exists n : nat, d <= INR (S n) * s.
Proof.
  intros Hs. destruct (INR_archimed s d Hs) as [n Hn].
  exists n. rewrite S_INR. lra.
Qed.

Lemma model1_findSafeRoute_total (this : Model1.RouteOptimizer) (from to : Waypoint) :
  0 < Model1.safeDistance this ->
  exists mids fuel0,
    subdivides (Model1.safeDistance this) to from mids /\
    forall fuel : nat,
      (fuel0 <= fuel)%nat ->
      Model1.findSafeRoute fuel this (Model1.newLineSegment from to)
      = Returns (from :: mids ++ [to]).
Proof.
  intros Hs.
  destruct (steps_bound (Model1.safeDistance this) (Waypoint.distanceTo from to) Hs)
    as [n Hn].
  destruct (findSafeRoute_while_terminates this to Hs n from Hn)
    as (mids & Hsub & _ & Hrun).
  exists mids, (S n). split; [exact Hsub |].
  intros fuel Hfuel. unfold Model1.findSafeRoute.
  cbn [Model1.start Model1.end_]. now rewrite Hrun by lia.
Qed.

(** The point inserted is the point of the leg at distance [s] from the
    current one. *)
Lemma intermediate_pointAlong (this : Model1.RouteOptimizer) (cur to : Waypoint) :
  0 < Model1.safeDistance this ->
  Model1.safeDistance this < Waypoint.distanceTo cur to ->
  Model1.findIntermediateWaypoint this cur to
  = pointAlong cur to (Model1.safeDistance this).
Proof.
  intros Hs Hfar.
  unfold Model1.findIntermediateWaypoint, pointAlong. cbv zeta.
  assert (Hnz : Waypoint.x to - Waypoint.x cur <> 0 \/ Waypoint.y to - Waypoint.y cur <> 0).
  { destruct (Req_dec_T (Waypoint.x to - Waypoint.x cur) 0) as [Hx | Hx]; [| now left].
    destruct (Req_dec_T (Waypoint.y to - Waypoint.y cur) 0) as [Hy | Hy]; [| now right].
    exfalso. unfold Waypoint.distanceTo in Hfar.
    replace ((Waypoint.x cur - Waypoint.x to) ^ 2 + (Waypoint.y cur - Waypoint.y to) ^ 2)
      with ((Waypoint.x to - Waypoint.x cur) ^ 2 + (Waypoint.y to - Waypoint.y cur) ^ 2)
      in Hfar by ring.
    rewrite Hx, Hy in Hfar.
    replace (0 ^ 2 + 0 ^ 2) with 0 in Hfar by ring. rewrite sqrt_0 in Hfar. lra. }
  destruct (atan2_polar _ _ Hnz) as [-> ->].
  rewrite (distanceTo_sym cur to). unfold Waypoint.distanceTo. reflexivity.
Qed.

Lemma pointAlong_shift (a b : Waypoint) (s c : R) :
  0 < s -> s < Waypoint.distanceTo a b ->
  Waypoint.distanceTo (pointAlong a b s) b = Waypoint.distanceTo a b - s ->
  pointAlong (pointAlong a b s) b c = pointAlong a b (s + c).
Proof.
  intros Hs Hfar Hleft. unfold pointAlong at 1. cbv zeta. rewrite Hleft.
  unfold pointAlong. cbv zeta. cbn [Waypoint.x Waypoint.y].
  set (d := Waypoint.distanceTo a b) in *. clearbody d.
  f_equal; field; lra.
Qed.

(** The points inserted are evenly spaced on the leg: the [k]-th is [k]
    steps from the start. *)
Lemma subdivides_evenly (s : R) (to : Waypoint) :
  0 < s ->
  forall (cur : Waypoint) (mids : list Waypoint),
    subdivides s to cur mids ->
    forall (k : nat) (p : Waypoint),
      nth_error mids k = Some p ->
      p = pointAlong cur to (INR (S k) * s) /\
      INR (S k) * s < Waypoint.distanceTo cur to.
Proof.
  intros Hs cur mids Hsub.
  induction Hsub as [cur Hnear | cur mids Hfar angle next Hsub IH]; intros k p Hk.
  - destruct k; discriminate.
  - set (this := Model1.newRouteOptimizer [] [] s).
    assert (Hnext : next = pointAlong cur to s)
      by exact (intermediate_pointAlong this cur to Hs Hfar).
    destruct (intermediate_step this cur to Hs Hfar) as [_ Hleft].
    cbv zeta in Hleft. cbn [Model1.safeDistance this] in Hleft.
    change (Model1.findIntermediateWaypoint this cur to) with next in Hleft.
    destruct k as [| k].
    + cbn [nth_error] in Hk. injection Hk as <-.
      cbn [INR]. rewrite Rmult_1_l. split; [exact Hnext | exact Hfar].
    + cbn [nth_error] in Hk. destruct (IH k p Hk) as [Hp Hlt].
      rewrite Hleft in Hlt. split.
      * rewrite Hp. rewrite Hnext at 1. rewrite Hnext in Hleft.
        rewrite pointAlong_shift by assumption.
        f_equal. rewrite (S_INR (S k)). ring.
      * rewrite (S_INR (S k)). lra.
Qed.

(** When the loop stops, at most one step is left: the distance to cover is
    at most one step more than the steps taken. *)
Lemma subdivides_count (s : R) (to : Waypoint) :
  0 < s ->
  forall (cur : Waypoint) (mids : list Waypoint),
    subdivides s to cur mids ->
    Waypoint.distanceTo cur to <= INR (S (List.length mids)) * s.
Proof.
  intros Hs cur mids Hsub.
  induction Hsub as [cur Hnear | cur mids Hfar angle next Hsub IH].
  - cbn [List.length INR]. lra.
  - set (this := Model1.newRouteOptimizer [] [] s).
    destruct (intermediate_step this cur to Hs Hfar) as [_ Hleft].
    cbv zeta in Hleft. cbn [Model1.safeDistance this] in Hleft.
    change (Model1.findIntermediateWaypoint this cur to) with next in Hleft.
    rewrite Hleft in IH. cbn [List.length]. rewrite (S_INR (S (List.length mids))). lra.
Qed.



Section DoublePrecision.

Import Floats.


End DoublePrecision.





(** ** Runs of the tour builder *)

Lemma lastEntry_snoc {A : Type} (l : list A) (a : A) : Js.lastEntry (l ++ [a]) = Some a.
Proof.
  unfold Js.lastEntry. rewrite length_app. cbn [List.length].
  replace (List.length l + 1 - 1)%nat with (List.length l) by lia.
  rewrite nth_error_app2 by lia. now rewrite Nat.sub_diag.
Qed.

Lemma lastEntry_app_snoc {A : Type} (l m : list A) (a : A) :
  Js.lastEntry (l ++ m ++ [a]) = Some a.
Proof. rewrite app_assoc. apply lastEntry_snoc. Qed.

Lemma nth_error_0_app {A : Type} (l m : list A) (a : A) :
  nth_error l 0 = Some a -> nth_error (l ++ m) 0 = Some a.
Proof. destruct l; [discriminate | trivial]. Qed.

Section TourRuns.

Variable resolve : Waypoint -> Waypoint -> outcome (list Waypoint).

(** The waypoints of the input, and the assumption that the resolver
    returns, for a leg between two of them, a path from the one to the
    other. *)
Variable W : list Waypoint.
Hypothesis resolve_returns :
  forall a b : Waypoint, In a W -> In b W ->
    exists mids, resolve a b = Returns (a :: mids ++ [b]).

Lemma while_runs :
  forall (n : nat) (unvisited : list Waypoint) (route : list (option Waypoint))
         (cur : Waypoint),
    List.length unvisited = n ->
    Js.lastEntry route = Some (Some cur) ->
    In cur W -> incl unvisited W ->
    exists (chosen : list Waypoint) (ext : list (option Waypoint)) (cur' : Waypoint),
      selects resolve route unvisited chosen (route ++ ext) /\
      Permutation chosen unvisited /\
      (forall w, In w chosen -> In (Some w) ext) /\
      (unvisited <> [] -> ext <> []) /\
      Js.lastEntry (route ++ ext) = Some (Some cur') /\ In cur' W /\
      forall fuel : nat,
        (n < fuel)%nat ->
        Tour.optimizeRoute_while resolve fuel route unvisited = Returns (route ++ ext).
Proof.
  induction n as [| n IH]; intros unvisited route cur Hlen Hlast Hcur Hincl.
  - destruct unvisited; [| discriminate].
    exists [], [], cur. rewrite app_nil_r.
    repeat split; auto; try constructor; try contradiction.
    intros [| fuel] Hfuel; [lia | reflexivity].
  - destruct unvisited as [| first rest]; [discriminate |].
    destruct (iteration_choice cur first rest) as (l1 & l2 & Hl & _ & _ & _ & Hsplice).
    set (m := Tour.reduce cur (first :: rest) first) in *.
    assert (Hm : In m W).
    { apply Hincl. rewrite Hl. apply in_or_app. right. now left. }
    destruct (resolve_returns cur m Hcur Hm) as [mids Hres].
    assert (Hlen' : List.length (l1 ++ l2) = n).
    { apply (f_equal (@List.length _)) in Hl.
      rewrite length_app in Hl. cbn [List.length] in Hl, Hlen.
      rewrite length_app. lia. }
    assert (Hincl' : incl (l1 ++ l2) W).
    { intros w Hw. apply Hincl. rewrite Hl.
      apply in_app_or in Hw. apply in_or_app. destruct Hw; [now left | right; now right]. }
    destruct (IH (l1 ++ l2) (route ++ map Some (mids ++ [m])) m Hlen')
      as (chosen & ext & cur' & Hsel & Hperm & Hin & _ & Hlast' & Hcur' & Hrun);
      auto.
    { rewrite map_app. cbn [map]. apply lastEntry_app_snoc. }
    exists (m :: chosen), (map Some (mids ++ [m]) ++ ext), cur'.
    rewrite app_assoc.
    repeat split; auto.
    + eapply selects_iteration; [exact Hlast | exact Hres |].
      cbn [Js.slice1 tl]. fold m. rewrite Hsplice. exact Hsel.
    + rewrite Hl. now apply Permutation_cons_app.
    + intros w [<- | Hw]; apply in_or_app.
      * left. apply in_map. apply in_or_app. right. now left.
      * right. now apply Hin.
    + intros _ Hnil. apply app_eq_nil in Hnil. destruct Hnil as [Hnil _].
      rewrite map_app in Hnil. apply app_eq_nil in Hnil. destruct Hnil. discriminate.
    + intros [| fuel] Hfuel; [lia |].
      cbn [Tour.optimizeRoute_while]. rewrite Hlast. cbv zeta. fold m.
      rewrite Hres. cbn [bind Js.slice1 tl]. rewrite Hsplice.
      apply Hrun. lia.
Qed.

(** The whole of [optimizeRoute] on a non-empty input. *)
Lemma optimizeRoute_runs (origin : Waypoint) (rest : list Waypoint) :
  W = origin :: rest ->
  exists (chosen : list Waypoint) (routeLoop route : list (option Waypoint)),
    selects resolve [Some origin] rest chosen routeLoop /\
    Permutation chosen rest /\
    (forall w, In w W -> In (Some w) route) /\
    (rest <> [] ->
     exists (last : Waypoint) (safeRoute : list Waypoint),
       Js.lastEntry routeLoop = Some (Some last) /\
       resolve last origin = Returns safeRoute /\
       route = routeLoop ++ map Some (Js.slice1 safeRoute)) /\
    (rest <> [] -> Js.lastEntry route = Some (Some origin)) /\
    (rest = [] -> route = [Some origin]) /\
    forall fuel : nat,
      (List.length rest < fuel)%nat ->
      Tour.optimizeRoute resolve fuel W = Returns route.
Proof.
  intros HW.
  assert (Horigin : In origin W) by (rewrite HW; now left).
  destruct rest as [| second rest'].
  - (* a single waypoint: no leg at all *)
    exists [], [Some origin], [Some origin].
    repeat split; auto; try congruence.
    + constructor.
    + intros w Hw. rewrite HW in Hw. destruct Hw as [<- | []]. now left.
    + intros [| fuel] Hfuel; [cbn [List.length] in Hfuel; lia |].
      unfold Tour.optimizeRoute. rewrite HW. reflexivity.
  - destruct (while_runs (List.length (second :: rest')) (second :: rest')
                         [Some origin] origin)
      as (chosen & ext & cur' & Hsel & Hperm & Hin & Hext & Hlast & Hcur' & Hrun);
      auto.
    { intros w Hw. rewrite HW. now right. }
    destruct (resolve_returns cur' origin Hcur' Horigin) as [mids Hres].
    assert (Hlong : (1 <? List.length ([Some origin] ++ ext))%nat = true).
    { apply Nat.ltb_lt. rewrite length_app. cbn [List.length].
      destruct ext; [exfalso; now apply Hext | cbn [List.length]; lia]. }
    exists chosen, ([Some origin] ++ ext),
      (([Some origin] ++ ext) ++ map Some (mids ++ [origin])).
    repeat split; auto; try discriminate.
    + intros w Hw. rewrite HW in Hw. destruct Hw as [<- | Hw].
      * now left.
      * apply in_or_app. left. apply in_or_app. right.
        apply Hin. eapply Permutation_in; [apply Permutation_sym, Hperm | exact Hw].
    + intros _. exists cur', (cur' :: mids ++ [origin]).
      repeat split; auto.
    + intros _. rewrite map_app. cbn [map]. apply lastEntry_app_snoc.
    + intros fuel Hfuel. unfold Tour.optimizeRoute. rewrite HW.
      cbn [nth_error Js.slice1 tl]. rewrite Hrun by exact Hfuel.
      cbn [bind]. unfold Tour.returnToStart. rewrite Hlong, Hlast.
      cbn [app nth_error]. rewrite Hres. reflexivity.
Qed.

End TourRuns.

(** ** The three variants *)

(** The plain variant is the tour builder run with [direct]. *)
Lemma plain_while_tour (fuel : nat) :
  forall (route : list (option Waypoint)) (unvisited : list Waypoint),
    Plain.optimizeRoute_while fuel route unvisited
    = Tour.optimizeRoute_while direct fuel route unvisited.
Proof.
  induction fuel as [| fuel IH]; intros route unvisited; [reflexivity |].
  cbn [Plain.optimizeRoute_while Tour.optimizeRoute_while].
  destruct unvisited as [| first rest]; [reflexivity |].
  destruct (Js.lastEntry route) as [[cur |] |]; reflexivity.
Qed.

Lemma plain_optimizeRoute_tour (fuel : nat) (W : list Waypoint)
  (route : list (option Waypoint)) :
  Tour.optimizeRoute direct fuel W = Returns route ->
  Plain.optimizeRoute fuel W = Returns route.
Proof.
  unfold Tour.optimizeRoute, Plain.optimizeRoute. cbv zeta.
  change (Plain.optimizeRoute_while fuel [nth_error W 0] (Js.slice1 W))
    with (Tour.optimizeRoute_while direct fuel [nth_error W 0] (Js.slice1 W)).
  destruct (Tour.optimizeRoute_while direct fuel _ _) as [r | msg |];
    cbn [bind]; try discriminate.
  unfold Tour.returnToStart.
  destruct (1 <? List.length r)%nat; [| trivial].
  destruct (Js.lastEntry r) as [[last |] |]; try discriminate.
  destruct (nth_error r 0) as [[origin |] |]; try discriminate.
  unfold direct. cbn [bind Js.slice1 tl map]. trivial.
Qed.

Lemma direct_returns (a b : Waypoint) :
  exists mids, direct a b = Returns (a :: mids ++ [b]).
Proof. now exists []. Qed.



Lemma findSafeRoute_while_never_throws (this : Model1.RouteOptimizer) (to : Waypoint) :
  forall (fuel : nat) (acc : list Waypoint) (cur : Waypoint),
    Model1.findSafeRoute_while fuel this acc cur to = OutOfFuel \/
    exists mids, Model1.findSafeRoute_while fuel this acc cur to
                 = Returns (acc ++ mids ++ [to]).
Proof.
  induction fuel as [| fuel IH]; intros acc cur; [now left |].
  cbn [Model1.findSafeRoute_while].
  destruct (Js.gtb _ _).
  - destruct (IH (acc ++ [Model1.findIntermediateWaypoint this cur to])
                 (Model1.findIntermediateWaypoint this cur to)) as [-> | [mids ->]].
    + now left.
    + right. exists (Model1.findIntermediateWaypoint this cur to :: mids).
      now rewrite <- app_assoc.
  - right. now exists [].
Qed.





(** The same holds of model2.js and of the plain variant, which have no
    step to get wrong. *)
Lemma model2_optimizeRoute_visits_every_waypoint_once
  (this : Model2.RouteOptimizer) (origin : Waypoint) (rest : list Waypoint) :
  Model2.waypoints this = origin :: rest ->
  forall fuel : nat, (List.length rest < fuel)%nat ->
    exists (chosen : list Waypoint) (routeLoop route : list (option Waypoint)),
      Model2.optimizeRoute fuel this = Returns route /\
      selects (Model2.findSafeRoute this) [Some origin] rest chosen routeLoop /\
      Permutation chosen rest /\
      forall w : Waypoint, In w (Model2.waypoints this) -> In (Some w) route.
Proof.
  intros HW fuel Hfuel.
  destruct (optimizeRoute_runs (Model2.findSafeRoute this) (Model2.waypoints this)
              (fun a b _ _ => model2_findSafeRoute_returns this a b) origin rest HW)
    as (chosen & routeLoop & route & Hsel & Hperm & Hin & _ & _ & _ & Hrun).
  exists chosen, routeLoop, route. repeat split; auto.
  unfold Model2.optimizeRoute. now apply Hrun.
Qed.

Lemma plain_optimizeRoute_visits_every_waypoint_once
  (origin : Waypoint) (rest : list Waypoint) :
  forall fuel : nat, (List.length rest < fuel)%nat ->
    exists (chosen : list Waypoint) (routeLoop route : list (option Waypoint)),
      Plain.optimizeRoute fuel (origin :: rest) = Returns route /\
      selects direct [Some origin] rest chosen routeLoop /\
      Permutation chosen rest /\
      forall w : Waypoint, In w (origin :: rest) -> In (Some w) route.
Proof.
  intros fuel Hfuel.
  destruct (optimizeRoute_runs direct (origin :: rest)
              (fun a b _ _ => direct_returns a b) origin rest eq_refl)
    as (chosen & routeLoop & route & Hsel & Hperm & Hin & _ & _ & _ & Hrun).
  exists chosen, routeLoop, route. repeat split; auto.
  apply plain_optimizeRoute_tour. now apply Hrun.
Qed.



Lemma optimizeRoute_selects_first_nearest_witness :
  exists before m after,
    [Waypoint.new 10 0; Waypoint.new 5 5] = before ++ m :: after /\
    Forall (fun w => Waypoint.distanceTo m (Waypoint.new 0 0)
                     < Waypoint.distanceTo w (Waypoint.new 0 0)) before /\
    Forall (fun w => Waypoint.distanceTo m (Waypoint.new 0 0)
                     <= Waypoint.distanceTo w (Waypoint.new 0 0)) after /\
    Tour.optimizeRoute_while direct 1 [Some (Waypoint.new 0 0)]
                             [Waypoint.new 10 0; Waypoint.new 5 5] =
    (safeRoute <- direct (Waypoint.new 0 0) m ;;
     Tour.optimizeRoute_while direct 0
       ([Some (Waypoint.new 0 0)] ++ map Some (Js.slice1 safeRoute)) (before ++ after)) /\
    Plain.optimizeRoute_while 1 [Some (Waypoint.new 0 0)]
                              [Waypoint.new 10 0; Waypoint.new 5 5] =
    Plain.optimizeRoute_while 0 ([Some (Waypoint.new 0 0)] ++ [Some m]) (before ++ after).
Proof.
  apply (optimizeRoute_selects_first_nearest direct 0 [Some (Waypoint.new 0 0)]
           [Waypoint.new 10 0; Waypoint.new 5 5] (Waypoint.new 0 0)).
  - discriminate.
  - reflexivity.
Defined.

(** ** Obstacles and the route *)

(** A tour of two waypoints whose legs the resolver leaves straight. *)
Lemma two_waypoint_tour (resolve : Waypoint -> Waypoint -> outcome (list Waypoint))
  (a b : Waypoint) :
  resolve a b = Returns [a; b] ->
  resolve b a = Returns [b; a] ->
  Tour.optimizeRoute resolve 3 [a; b] = Returns [Some a; Some b; Some a].
Proof.
  intros Hab Hba. unfold Tour.optimizeRoute.
  cbn [nth_error Js.slice1 tl Tour.optimizeRoute_while Js.lastEntry List.length Nat.sub].
  unfold Tour.reduce. cbn [fold_left].
  assert (Hb : Tour.closer a b b = b) by (unfold Tour.closer; now destruct (Js.ltb _ _)).
  rewrite Hb, Hab. cbn [bind Js.slice1 tl map app Tour.indexOf].
  destruct (Waypoint.eq_dec b b) as [_ | Hne]; [| congruence].
  cbn [Tour.splice1 firstn skipn app]. unfold Tour.returnToStart.
  cbn [bind List.length Nat.ltb Nat.leb Js.lastEntry Nat.sub nth_error].
  rewrite Hba. reflexivity.
Qed.

(** [isSafeRoute] is true when no obstacle intersects the segment. *)
Lemma isSafeRoute_for_forall (obstacles : list Model1.Obstacle) (seg : Model1.LineSegment) :
  Model1.isSafeRoute_for obstacles seg = true <->
  forall o, In o obstacles -> Model1.intersectsWithLineSegment o seg = false.
Proof.
  induction obstacles as [| o obstacles IH]; cbn [Model1.isSafeRoute_for].
  - split; [intros _ o [] | reflexivity].
  - destruct (Model1.intersectsWithLineSegment o seg) eqn:Ho.
    + split; [discriminate |]. intros H.
      specialize (H o (or_introl eq_refl)). congruence.
    + rewrite IH. split.
      * intros H o' [<- | Hin]; [exact Ho | now apply H].
      * intros H o' Hin. apply H. now right.
Qed.

Lemma distance_0_10 :
  Waypoint.distanceTo (Waypoint.new 0 0) (Waypoint.new 10 0) = 10.
Proof.
  unfold Waypoint.distanceTo. cbn [Waypoint.x Waypoint.y].
  apply sqrt_unique; [lra | ring].
Qed.

(** The point [(5, 0)] of the leg from [(0, 0)] to [(10, 0)]. *)
Lemma midpoint_onSegment :
  onSegment (Waypoint.new 0 0) (Waypoint.new 10 0) (Waypoint.new 5 0).
Proof. exists (1 / 2). cbn [Waypoint.x Waypoint.y]. repeat split; lra. Qed.

Lemma midpoint_distance_0 :
  Waypoint.distanceTo (Waypoint.new 5 0) (Waypoint.new 5 0) = 0.
Proof.
  unfold Waypoint.distanceTo. cbn [Waypoint.x Waypoint.y].
  apply sqrt_unique; [lra | ring].
Qed.

(** The resolver of model1.js reads nothing of the optimizer but its step. *)
Lemma findSafeRoute_while_step_only (this this' : Model1.RouteOptimizer) :
  Model1.safeDistance this = Model1.safeDistance this' ->
  forall (fuel : nat) (acc : list Waypoint) (cur to : Waypoint),
    Model1.findSafeRoute_while fuel this acc cur to
    = Model1.findSafeRoute_while fuel this' acc cur to.
Proof.
  intros Hs. induction fuel as [| fuel IH]; intros acc cur to; [reflexivity |].
  cbn [Model1.findSafeRoute_while]. unfold Model1.findIntermediateWaypoint.
  rewrite Hs. destruct (Js.gtb _ _); [apply IH | reflexivity].
Qed.

(** The tour builder depends on the resolver through its results only. *)
Lemma optimizeRoute_while_ext
  (resolve resolve' : Waypoint -> Waypoint -> outcome (list Waypoint)) :
  (forall a b, resolve a b = resolve' a b) ->
  forall (fuel : nat) (route : list (option Waypoint)) (unvisited : list Waypoint),
    Tour.optimizeRoute_while resolve fuel route unvisited
    = Tour.optimizeRoute_while resolve' fuel route unvisited.
Proof.
  intros Hext. induction fuel as [| fuel IH]; intros route unvisited; [reflexivity |].
  cbn [Tour.optimizeRoute_while].
  destruct unvisited as [| first rest]; [reflexivity |].
  destruct (Js.lastEntry route) as [[cur |] |]; try reflexivity.
  cbv zeta. rewrite Hext.
  destruct (resolve' cur _); cbn [bind]; [apply IH | reflexivity | reflexivity].
Qed.

Lemma optimizeRoute_ext
  (resolve resolve' : Waypoint -> Waypoint -> outcome (list Waypoint)) :
  (forall a b, resolve a b = resolve' a b) ->
  forall (fuel : nat) (W : list Waypoint),
    Tour.optimizeRoute resolve fuel W = Tour.optimizeRoute resolve' fuel W.
Proof.
  intros Hext fuel W. unfold Tour.optimizeRoute. cbv zeta.
  rewrite (optimizeRoute_while_ext resolve resolve' Hext).
  destruct (Tour.optimizeRoute_while resolve' fuel _ _) as [r | |];
    cbn [bind]; try reflexivity.
  unfold Tour.returnToStart.
  destruct (1 <? List.length r)%nat; [| reflexivity].
  destruct (Js.lastEntry r) as [[last |] |]; try reflexivity.
  destruct (nth_error r 0) as [[origin |] |]; try reflexivity.
  now rewrite Hext.
Qed.

(** ** Inputs the specification calls invalid *)

Lemma model1_distance_nonneg (o : Model1.Obstacle) (seg : Model1.LineSegment) :
  0 <= Model1.distanceToLineSegment o seg.
Proof. rewrite model1_distance_closest. apply distanceTo_nonneg. Qed.

Lemma model2_distance_nonneg (o : Model2.Obstacle) (seg : Model2.LineSegment) :
  0 <= Model2.distanceToLineSegment o seg.
Proof. rewrite model2_distance_closest. apply distanceTo_nonneg. Qed.

Lemma model1_negative_radius (o : Model1.Obstacle) (seg : Model1.LineSegment) :
  Model1.radius o < 0 -> Model1.intersectsWithLineSegment o seg = false.
Proof.
  intros Hr. unfold Model1.intersectsWithLineSegment. cbv zeta.
  apply leb_false_iff. pose proof (model1_distance_nonneg o seg). lra.
Qed.

Lemma model2_negative_radius (o : Model2.Obstacle) (seg : Model2.LineSegment) :
  Model2.radius o < 0 -> Model2.intersectsWithLineSegment o seg = false.
Proof.
  intros Hr. unfold Model2.intersectsWithLineSegment. cbv zeta.
  apply leb_false_iff. pose proof (model2_distance_nonneg o seg). lra.
Qed.


(** C9, as stated, fails: on an empty waypoint sequence [optimizeRoute]
    returns a route (its one entry is [undefined]); and an obstacle of
    radius [-1] across the leg is accepted, the route is returned as if the
    obstacle were not there. *)
Lemma invalid_input_returns_a_route :
  let a := Waypoint.new 0 0 in
  let b := Waypoint.new 10 0 in
  Model1.optimizeRoute 1 (Model1.newRouteOptimizer [] [] 1) = Returns [None] /\
  Model2.optimizeRoute 1 (Model2.newRouteOptimizer [] []) = Returns [None] /\
  Model2.optimizeRoute 3 (Model2.newRouteOptimizer [a; b] [Model2.newObstacle 5 0 (-1)])
  = Returns [Some a; Some b; Some a].
Proof.
  cbv zeta. repeat split.
  unfold Model2.optimizeRoute. cbn [Model2.waypoints].
  apply two_waypoint_tour; unfold Model2.findSafeRoute; cbv zeta;
    cbn [Model2.obstacles existsb];
    rewrite model2_negative_radius by (cbn [Model2.radius]; lra); reflexivity.
Qed.

(** C9, amended: nothing is validated and no error is raised for these
    inputs.  On an empty waypoint sequence every variant returns the route
    whose one entry is [undefined]; an obstacle of negative radius intersects
    no segment; and whatever the step, the resolver of model1.js does not
    throw: if it returns, it returns a path from the start of the leg to its
    end. *)
Theorem optimizeRoute_validates_nothing
  (o1 : Model1.Obstacle) (o2 : Model2.Obstacle) :
  Model1.radius o1 < 0 ->
  Model2.radius o2 < 0 ->
  (forall (fuel : nat) (obstacles : list Model1.Obstacle) (s : R),
     Model1.optimizeRoute (S fuel) (Model1.newRouteOptimizer [] obstacles s)
     = Returns [None]) /\
  (forall (fuel : nat) (obstacles : list Model2.Obstacle),
     Model2.optimizeRoute (S fuel) (Model2.newRouteOptimizer [] obstacles)
     = Returns [None]) /\
  (forall fuel : nat, Plain.optimizeRoute (S fuel) [] = Returns [None]) /\
  (forall seg, Model1.intersectsWithLineSegment o1 seg = false) /\
  (forall seg, Model2.intersectsWithLineSegment o2 seg = false) /\
  (forall (fuel : nat) (this : Model1.RouteOptimizer) (from to : Waypoint),
     Model1.findSafeRoute fuel this (Model1.newLineSegment from to) = OutOfFuel \/
     exists mids,
       Model1.findSafeRoute fuel this (Model1.newLineSegment from to)
       = Returns (from :: mids ++ [to])).
Proof.
  intros Hr1 Hr2. repeat split.
  - intros seg. now apply model1_negative_radius.
  - intros seg. now apply model2_negative_radius.
  - intros fuel this from to. unfold Model1.findSafeRoute.
    cbn [Model1.start Model1.end_].
    exact (findSafeRoute_while_never_throws this to fuel [from] from).
Qed.

Lemma optimizeRoute_validates_nothing_witness :
  (forall (fuel : nat) (obstacles : list Model1.Obstacle) (s : R),
     Model1.optimizeRoute (S fuel) (Model1.newRouteOptimizer [] obstacles s)
     = Returns [None]) /\
  (forall (fuel : nat) (obstacles : list Model2.Obstacle),
     Model2.optimizeRoute (S fuel) (Model2.newRouteOptimizer [] obstacles)
     = Returns [None]) /\
  (forall fuel : nat, Plain.optimizeRoute (S fuel) [] = Returns [None]) /\
  (forall seg, Model1.intersectsWithLineSegment (Model1.newObstacle 5 0 (-1)) seg = false) /\
  (forall seg, Model2.intersectsWithLineSegment (Model2.newObstacle 5 0 (-1)) seg = false) /\
  (forall (fuel : nat) (this : Model1.RouteOptimizer) (from to : Waypoint),
     Model1.findSafeRoute fuel this (Model1.newLineSegment from to) = OutOfFuel \/
     exists mids,
       Model1.findSafeRoute fuel this (Model1.newLineSegment from to)
       = Returns (from :: mids ++ [to])).
Proof.
  apply (optimizeRoute_validates_nothing
           (Model1.newObstacle 5 0 (-1)) (Model2.newObstacle 5 0 (-1)));
    simpl; lra.
Defined.

Lemma findAlternativeSafePath_finds_obstacle_witness :
  let a := Waypoint.new 0 0 in
  let b := Waypoint.new 10 0 in
  let this := Model2.newRouteOptimizer [a; b] [Model2.newObstacle 5 0 2] in
  exists obstacle,
    In obstacle (Model2.obstacles this) /\
    Model2.findAlternativeSafePath this a b =
    Returns [a; offset1 obstacle a b; offset2 obstacle a b; b].
Proof.
  apply (findAlternativeSafePath_finds_obstacle
           (Model2.newRouteOptimizer [Waypoint.new 0 0; Waypoint.new 10 0]
                                     [Model2.newObstacle 5 0 2])
           (Waypoint.new 0 0) (Waypoint.new 10 0)).
  cbn [Model2.obstacles existsb]. apply orb_true_iff. left.
  apply model2_intersects_meets. exists (Waypoint.new 5 0).
  split; [exact midpoint_onSegment |].
  cbn [Model2.x Model2.y Model2.radius]. rewrite midpoint_distance_0. lra.
Defined.

(** ** The point test of the grid-walking variant *)

(** [isObstructed] is a test on a point, against a fixed clearance of [10],
    and it is strict: a point at exactly [10] from an obstacle is free. *)
Lemma isObstructed_iff (obstacles : list Waypoint) (point : Waypoint) :
  Grid.isObstructed obstacles point = true <->
  exists obstacle, In obstacle obstacles /\ Grid.calculateDistance point obstacle < 10.
Proof.
  induction obstacles as [| o obstacles IH]; cbn [Grid.isObstructed].
  - split; [discriminate | intros (o & [] & _)].
  - destruct (Js.ltb (Grid.calculateDistance point o) 10) eqn:Hlt.
    + apply ltb_true_iff in Hlt. split; [| reflexivity].
      intros _. exists o. split; [now left | exact Hlt].
    + apply ltb_false_iff in Hlt. rewrite IH. split.
      * intros (o' & Hin & Hd). exists o'. split; [now right | exact Hd].
      * intros (o' & [<- | Hin] & Hd); [lra | now exists o'].
Qed.

Example isObstructed_boundary :
  Grid.calculateDistance (Waypoint.new 10 0) (Waypoint.new 0 0) = 10 /\
  Grid.isObstructed [Waypoint.new 0 0] (Waypoint.new 10 0) = false.
Proof.
  assert (Hd : Grid.calculateDistance (Waypoint.new 10 0) (Waypoint.new 0 0) = 10).
  { unfold Grid.calculateDistance. cbn [Waypoint.x Waypoint.y].
    apply sqrt_unique; [lra | ring]. }
  split; [exact Hd |].
  cbn [Grid.isObstructed]. rewrite Hd.
  replace (Js.ltb 10 10) with false; [reflexivity |].
  symmetry. apply ltb_false_iff. lra.
Qed.

(** ** The sample runs printed in the sources *)

Lemma closer_nearer (cur m w : Waypoint) :
  Waypoint.distanceTo w cur < Waypoint.distanceTo m cur -> Tour.closer cur m w = w.
Proof. intros H. unfold Tour.closer. now apply ltb_true_iff in H as ->. Qed.

Lemma closer_keeps (cur m w : Waypoint) :
  Waypoint.distanceTo m cur <= Waypoint.distanceTo w cur -> Tour.closer cur m w = m.
Proof. intros H. unfold Tour.closer. now apply ltb_false_iff in H as ->. Qed.

Lemma indexOf_here (w : Waypoint) (arr : list Waypoint) :
  Tour.indexOf w (w :: arr) = Some O.
Proof. cbn [Tour.indexOf]. destruct (Waypoint.eq_dec w w); congruence. Qed.

Lemma indexOf_later (v w : Waypoint) (arr : list Waypoint) :
  v <> w ->
  Tour.indexOf w (v :: arr)
  = match Tour.indexOf w arr with Some i => Some (S i) | None => None end.
Proof. intros H. cbn [Tour.indexOf]. destruct (Waypoint.eq_dec v w); congruence. Qed.

Ltac distances :=
  unfold Waypoint.distanceTo; cbn [Waypoint.x Waypoint.y];
  first [ apply sqrt_lt_1_alt; split; lra | apply sqrt_le_1_alt; lra ].

(** The plain variant on the waypoints of its example: [(5, 5)] is nearest
    to the start; from there [(10, 0)] and [(0, 10)] are equally far and the
    first in input order is taken. *)
Example plain_sample_route :
  Plain.optimizeRoute 4
    [Waypoint.new 0 0; Waypoint.new 10 0; Waypoint.new 5 5; Waypoint.new 0 10]
  = Returns [Some (Waypoint.new 0 0); Some (Waypoint.new 5 5); Some (Waypoint.new 10 0);
             Some (Waypoint.new 0 10); Some (Waypoint.new 0 0)].
Proof.
  unfold Plain.optimizeRoute.
  cbn [nth_error Js.slice1 tl Plain.optimizeRoute_while Js.lastEntry List.length Nat.sub app].
  unfold Tour.reduce. cbn [fold_left].
  (* from (0, 0) *)
  rewrite (closer_keeps _ (Waypoint.new 10 0) (Waypoint.new 10 0)) by distances.
  rewrite (closer_nearer _ (Waypoint.new 10 0) (Waypoint.new 5 5)) by distances.
  rewrite (closer_keeps _ (Waypoint.new 5 5) (Waypoint.new 0 10)) by distances.
  rewrite indexOf_later by (intros H; injection H; intros; lra).
  rewrite indexOf_here.
  cbn [Tour.splice1 firstn skipn app Plain.optimizeRoute_while Js.lastEntry
       List.length Nat.sub nth_error fold_left].
  (* from (5, 5) *)
  rewrite (closer_keeps _ (Waypoint.new 10 0) (Waypoint.new 10 0)) by distances.
  rewrite (closer_keeps _ (Waypoint.new 10 0) (Waypoint.new 0 10)) by distances.
  rewrite indexOf_here.
  cbn [Tour.splice1 firstn skipn app Plain.optimizeRoute_while Js.lastEntry
       List.length Nat.sub nth_error fold_left].
  (* from (10, 0) *)
  rewrite (closer_keeps _ (Waypoint.new 0 10) (Waypoint.new 0 10)) by distances.
  rewrite indexOf_here.
  cbn [Tour.splice1 firstn skipn app Plain.optimizeRoute_while Js.lastEntry
       List.length Nat.sub nth_error fold_left bind Nat.ltb Nat.leb].
  reflexivity.
Qed.

Lemma find_first_hit {A : Type} (f : A -> bool) (before after : list A) (a : A) :
  Forall (fun b => f b = false) before -> f a = true ->
  find f (before ++ a :: after) = Some a.
Proof.
  intros Hb Ha. induction Hb as [| b before Hfb _ IH]; cbn [app find].
  - now rewrite Ha.
  - now rewrite Hfb.
Qed.

Lemma model2_findSafeRoute_detour (this : Model2.RouteOptimizer) (a b : Waypoint)
  (before after : list Model2.Obstacle) (o : Model2.Obstacle) :
  Model2.obstacles this = before ++ o :: after ->
  Forall (fun o' => Model2.intersectsWithLineSegment o' (Model2.segmentOf a b) = false)
         before ->
  Model2.intersectsWithLineSegment o (Model2.segmentOf a b) = true ->
  Model2.findSafeRoute this a b = Returns [a; offset1 o a b; offset2 o a b; b].
Proof.
  intros Hobs Hb Ho.
  unfold Model2.findSafeRoute, Model2.findAlternativeSafePath. cbv zeta.
  rewrite existsb_find, Hobs.
  rewrite (find_first_hit _ before after o Hb Ho). reflexivity.
Qed.

Lemma model2_findSafeRoute_straight (this : Model2.RouteOptimizer) (a b : Waypoint) :
  Forall (fun o => Model2.intersectsWithLineSegment o (Model2.segmentOf a b) = false)
         (Model2.obstacles this) ->
  Model2.findSafeRoute this a b = Returns [a; b].
Proof.
  intros Hall. unfold Model2.findSafeRoute. cbv zeta.
  replace (existsb _ _) with false; [reflexivity |].
  symmetry. induction Hall as [| o l Ho _ IH]; cbn [existsb]; [reflexivity |].
  now rewrite Ho.
Qed.

Lemma lt_sqrt (r u : R) : 0 <= r -> r ^ 2 < u -> r < sqrt u.
Proof.
  intros Hr Hu. rewrite <- (sqrt_pow2 r Hr). apply sqrt_lt_1_alt. split; [nra | exact Hu].
Qed.

(** The segment stays clear of the obstacle when each of its points is
    farther from the centre than the radius. *)
Lemma model2_misses (o : Model2.Obstacle) (a b : Waypoint) :
  0 <= Model2.radius o ->
  (forall t : R, 0 <= t <= 1 ->
     Model2.radius o ^ 2 <
     (Waypoint.x a + t * (Waypoint.x b - Waypoint.x a) - Model2.x o) ^ 2
     + (Waypoint.y a + t * (Waypoint.y b - Waypoint.y a) - Model2.y o) ^ 2) ->
  Model2.intersectsWithLineSegment o (Model2.segmentOf a b) = false.
Proof.
  intros Hr Hclear.
  destruct (Model2.intersectsWithLineSegment o (Model2.segmentOf a b)) eqn:Hhit;
    [| reflexivity].
  apply model2_intersects_meets in Hhit. destruct Hhit as (q & (t & Ht & Hx & Hy) & Hd).
  exfalso. apply (Rlt_irrefl (Model2.radius o)).
  eapply Rlt_le_trans; [| exact Hd].
  unfold Waypoint.distanceTo. cbn [Waypoint.x Waypoint.y]. rewrite Hx, Hy.
  apply lt_sqrt; [exact Hr | now apply Hclear].
Qed.

Lemma model2_hits (o : Model2.Obstacle) (a b : Waypoint) (t : R) :
  0 <= t <= 1 -> 0 <= Model2.radius o ->
  (Waypoint.x a + t * (Waypoint.x b - Waypoint.x a) - Model2.x o) ^ 2
  + (Waypoint.y a + t * (Waypoint.y b - Waypoint.y a) - Model2.y o) ^ 2
  <= Model2.radius o ^ 2 ->
  Model2.intersectsWithLineSegment o (Model2.segmentOf a b) = true.
Proof.
  intros Ht Hr Hin. apply model2_intersects_meets.
  exists (Waypoint.new (Waypoint.x a + t * (Waypoint.x b - Waypoint.x a))
                       (Waypoint.y a + t * (Waypoint.y b - Waypoint.y a))).
  split; [exists t; cbn [Waypoint.x Waypoint.y]; auto |].
  unfold Waypoint.distanceTo. cbn [Waypoint.x Waypoint.y].
  rewrite <- (sqrt_pow2 (Model2.radius o) Hr). now apply sqrt_le_1_alt.
Qed.

Lemma atan_minus_1 : atan (-1) = - (PI / 4).
Proof. replace (-1) with (Ropp 1) by lra. now rewrite atan_opp, atan_1. Qed.

(** The first leg of model2.js's example, from [(0, 0)] to [(5, 5)], hits
    the obstacle at [(3, 3)]: the detour goes through [(0, 3)] and [(2, 5)],
    as in the output the source prints. *)
Example model2_sample_first_leg :
  let this :=
    Model2.newRouteOptimizer
      [Waypoint.new 0 0; Waypoint.new 10 0; Waypoint.new 5 5; Waypoint.new 0 10]
      [Model2.newObstacle 3 3 2; Model2.newObstacle 7 2 1] in
  Model2.findSafeRoute this (Waypoint.new 0 0) (Waypoint.new 5 5)
  = Returns [Waypoint.new 0 0; Waypoint.new 0 3; Waypoint.new 2 5; Waypoint.new 5 5].
Proof.
  cbv zeta.
  rewrite (model2_findSafeRoute_detour _ _ _ [] [Model2.newObstacle 7 2 1]
             (Model2.newObstacle 3 3 2)); [| reflexivity | constructor |].
  - unfold offset1, offset2. cbv zeta. cbn [Waypoint.x Waypoint.y Model2.radius].
    replace (Js.atan2 (5 - 0) (5 - 0)) with (PI / 4).
    2:{ unfold Js.atan2. destruct (Rlt_dec 0 (5 - 0)); [| lra].
        replace ((5 - 0) / (5 - 0)) with 1 by lra. now rewrite atan_1. }
    replace (PI / 4 + PI / 4) with (PI / 2) by lra.
    replace (PI / 4 - PI / 4) with 0 by lra.
    rewrite cos_PI2, sin_PI2, cos_0, sin_0.
    repeat f_equal; lra.
  - apply (model2_hits _ _ _ (3 / 5)); cbn [Waypoint.x Waypoint.y Model2.x Model2.y Model2.radius]; lra.
Qed.

Ltac sample_coordinates :=
  cbn [Waypoint.x Waypoint.y Model2.x Model2.y Model2.radius].

Lemma sample2_leg1 :
  Model2.findSafeRoute sample2 (Waypoint.new 0 0) (Waypoint.new 5 5)
  = Returns [Waypoint.new 0 0; Waypoint.new 0 3; Waypoint.new 2 5; Waypoint.new 5 5].
Proof. exact model2_sample_first_leg. Qed.

Lemma sample2_leg2 :
  Model2.findSafeRoute sample2 (Waypoint.new 5 5) (Waypoint.new 10 0)
  = Returns [Waypoint.new 5 5; Waypoint.new 7 5; Waypoint.new 10 2; Waypoint.new 10 0].
Proof.
  rewrite (model2_findSafeRoute_detour _ _ _ [Model2.newObstacle 3 3 2] []
             (Model2.newObstacle 7 2 1)); [| reflexivity | |].
  - unfold offset1, offset2. cbv zeta. sample_coordinates.
    replace (Js.atan2 (0 - 5) (10 - 5)) with (- (PI / 4)).
    2:{ unfold Js.atan2. destruct (Rlt_dec 0 (10 - 5)); [| lra].
        replace ((0 - 5) / (10 - 5)) with (-1) by lra. now rewrite atan_minus_1. }
    replace (- (PI / 4) + PI / 4) with 0 by lra.
    replace (- (PI / 4) - PI / 4) with (- (PI / 2)) by lra.
    rewrite cos_neg, sin_neg, cos_PI2, sin_PI2, cos_0, sin_0.
    repeat f_equal; lra.
  - constructor; [| constructor].
    apply model2_misses; sample_coordinates; [lra |]. intros t Ht. nra.
  - apply (model2_hits _ _ _ (1 / 2)); sample_coordinates; lra.
Qed.

Lemma sample2_leg3 :
  Model2.findSafeRoute sample2 (Waypoint.new 10 0) (Waypoint.new 0 10)
  = Returns [Waypoint.new 10 0; Waypoint.new 8 0; Waypoint.new 0 8; Waypoint.new 0 10].
Proof.
  rewrite (model2_findSafeRoute_detour _ _ _ [Model2.newObstacle 3 3 2] []
             (Model2.newObstacle 7 2 1)); [| reflexivity | |].
  - unfold offset1, offset2. cbv zeta. sample_coordinates.
    replace (Js.atan2 (10 - 0) (0 - 10)) with (- (PI / 4) + PI).
    2:{ unfold Js.atan2. destruct (Rlt_dec 0 (0 - 10)); [lra |].
        destruct (Rlt_dec (0 - 10) 0); [| lra].
        destruct (Rle_dec 0 (10 - 0)); [| lra].
        replace ((10 - 0) / (0 - 10)) with (-1) by lra. now rewrite atan_minus_1. }
    replace (- (PI / 4) + PI + PI / 4) with PI by lra.
    replace (- (PI / 4) + PI - PI / 4) with (PI / 2) by lra.
    rewrite cos_PI, sin_PI, cos_PI2, sin_PI2.
    repeat f_equal; lra.
  - constructor; [| constructor].
    apply model2_misses; sample_coordinates; [lra |]. intros t Ht.
    pose proof (pow2_ge_0 (2 * t - 1)). nra.
  - apply (model2_hits _ _ _ (1 / 4)); sample_coordinates; lra.
Qed.

Lemma sample2_leg4 :
  Model2.findSafeRoute sample2 (Waypoint.new 0 10) (Waypoint.new 0 0)
  = Returns [Waypoint.new 0 10; Waypoint.new 0 0].
Proof.
  apply model2_findSafeRoute_straight. cbn [sample2 Model2.obstacles].
  apply Forall_cons; [| apply Forall_cons; [| apply Forall_nil]].
  - apply model2_misses; sample_coordinates; [lra |]. intros t Ht.
    pose proof (pow2_ge_0 (7 - 10 * t)). nra.
  - apply model2_misses; sample_coordinates; [lra |]. intros t Ht.
    pose proof (pow2_ge_0 (8 - 10 * t)). nra.
Qed.

(** The whole run of model2.js's example: the route the source prints
    (where it prints [1.8e-16] and the like, the exact coordinate is [0]). *)
Example model2_sample_route :
  Model2.optimizeRoute 4 sample2
  = Returns (map Some
      [Waypoint.new 0 0; Waypoint.new 0 3; Waypoint.new 2 5; Waypoint.new 5 5;
       Waypoint.new 7 5; Waypoint.new 10 2; Waypoint.new 10 0; Waypoint.new 8 0;
       Waypoint.new 0 8; Waypoint.new 0 10; Waypoint.new 0 0]).
Proof.
  unfold Model2.optimizeRoute, Tour.optimizeRoute.
  change (Model2.waypoints sample2)
    with [Waypoint.new 0 0; Waypoint.new 10 0; Waypoint.new 5 5; Waypoint.new 0 10].
  cbn [nth_error Js.slice1 tl Tour.optimizeRoute_while Js.lastEntry List.length Nat.sub app].
  unfold Tour.reduce. cbn [fold_left].
  (* from (0, 0) *)
  rewrite (closer_keeps _ (Waypoint.new 10 0) (Waypoint.new 10 0)) by distances.
  rewrite (closer_nearer _ (Waypoint.new 10 0) (Waypoint.new 5 5)) by distances.
  rewrite (closer_keeps _ (Waypoint.new 5 5) (Waypoint.new 0 10)) by distances.
  rewrite sample2_leg1.
  rewrite indexOf_later by (intros H; injection H; intros; lra).
  rewrite indexOf_here.
  cbn [bind Js.slice1 tl map Tour.splice1 firstn skipn app Tour.optimizeRoute_while
       Js.lastEntry List.length Nat.sub nth_error fold_left].
  (* from (5, 5) *)
  rewrite (closer_keeps _ (Waypoint.new 10 0) (Waypoint.new 10 0)) by distances.
  rewrite (closer_keeps _ (Waypoint.new 10 0) (Waypoint.new 0 10)) by distances.
  rewrite sample2_leg2.
  rewrite indexOf_here.
  cbn [bind Js.slice1 tl map Tour.splice1 firstn skipn app Tour.optimizeRoute_while
       Js.lastEntry List.length Nat.sub nth_error fold_left].
  (* from (10, 0) *)
  rewrite (closer_keeps _ (Waypoint.new 0 10) (Waypoint.new 0 10)) by distances.
  rewrite sample2_leg3.
  rewrite indexOf_here.
  cbn [bind Js.slice1 tl map Tour.splice1 firstn skipn app Tour.optimizeRoute_while
       Js.lastEntry List.length Nat.sub nth_error fold_left].
  (* back to (0, 0) *)
  unfold Tour.returnToStart.
  cbn [List.length Nat.ltb Nat.leb Js.lastEntry Nat.sub nth_error].
  rewrite sample2_leg4. reflexivity.
Qed.

Lemma distance_origin_5_5 :
  Waypoint.distanceTo (Waypoint.new 0 0) (Waypoint.new 5 5) = sqrt 50.
Proof.
  unfold Waypoint.distanceTo. cbn [Waypoint.x Waypoint.y]. f_equal. ring.
Qed.

Lemma sqrt_50_bounds : 6 < sqrt 50 < 15 / 2.
Proof.
  split.
  - apply lt_sqrt; lra.
  - rewrite <- (sqrt_pow2 (15 / 2)) by lra. apply sqrt_lt_1_alt. lra.
Qed.

(** The first leg of model1.js's example, from [(0, 0)] to [(5, 5)] with a
    step of [1.5]: four points are inserted, [1.5], [3], [4.5] and [6] along
    the leg, as in the output the source prints. *)
Example model1_sample_first_leg :
  let a := Waypoint.new 0 0 in
  let b := Waypoint.new 5 5 in
  exists fuel0 : nat,
    forall fuel : nat, (fuel0 <= fuel)%nat ->
      Model1.findSafeRoute fuel sample1 (Model1.newLineSegment a b)
      = Returns [a; pointAlong a b (3 / 2); pointAlong a b 3;
                 pointAlong a b (9 / 2); pointAlong a b 6; b].
Proof.
  cbv zeta.
  assert (Hs : 0 < Model1.safeDistance sample1) by (cbn; lra).
  destruct (model1_findSafeRoute_total sample1 (Waypoint.new 0 0) (Waypoint.new 5 5) Hs)
    as (mids & fuel0 & Hsub & Hrun).
  pose proof (subdivides_evenly _ _ Hs _ _ Hsub) as Heven.
  pose proof (subdivides_count _ _ Hs _ _ Hsub) as Hcount.
  rewrite distance_origin_5_5 in Heven, Hcount.
  change (Model1.safeDistance sample1) with (3 / 2) in Heven, Hcount.
  pose proof sqrt_50_bounds as [Hlo Hhi].
  exists fuel0. intros fuel Hfuel. rewrite (Hrun fuel Hfuel). do 2 f_equal.
  destruct mids as [| m1 [| m2 [| m3 [| m4 [| m5 mids]]]]].
  - exfalso. cbn [List.length INR] in Hcount. lra.
  - exfalso. cbn [List.length INR] in Hcount. lra.
  - exfalso. cbn [List.length INR] in Hcount. lra.
  - exfalso. cbn [List.length INR] in Hcount. lra.
  - destruct (Heven 0%nat m1 eq_refl) as [-> _].
    destruct (Heven 1%nat m2 eq_refl) as [-> _].
    destruct (Heven 2%nat m3 eq_refl) as [-> _].
    destruct (Heven 3%nat m4 eq_refl) as [-> _].
    replace (INR 1 * (3 / 2)) with (3 / 2) by (simpl INR; lra).
    replace (INR 2 * (3 / 2)) with 3 by (simpl INR; lra).
    replace (INR 3 * (3 / 2)) with (9 / 2) by (simpl INR; lra).
    replace (INR 4 * (3 / 2)) with 6 by (simpl INR; lra).
    reflexivity.
  - exfalso. destruct (Heven 4%nat m5 eq_refl) as [_ Hlt].
    simpl INR in Hlt. lra.
Qed.

(** ** Segment safety of the routes returned *)

(** In model2.js's example the detour leg from [(8, 0)] to [(0, 8)] passes
    within the radius of both obstacles. *)
Lemma sample2_detour_leg_hits :
  Model2.intersectsWithLineSegment (Model2.newObstacle 3 3 2)
    (Model2.segmentOf (Waypoint.new 8 0) (Waypoint.new 0 8)) = true /\
  Model2.intersectsWithLineSegment (Model2.newObstacle 7 2 1)
    (Model2.segmentOf (Waypoint.new 8 0) (Waypoint.new 0 8)) = true.
Proof.
  split.
  - apply (model2_hits _ _ _ (1 / 2)); sample_coordinates; lra.
  - apply (model2_hits _ _ _ (3 / 16)); sample_coordinates; lra.
Qed.

(** C1, as stated, fails.  With waypoints [(0,0)] and [(10,0)], one obstacle
    of radius [2] centred at [(5,0)] and a step of [20], model1.js returns
    the route [(0,0), (10,0), (0,0)], whose first leg passes through the
    obstacle's centre.  And the route model2.js returns on its own example
    has the consecutive points [(8,0)] and [(0,8)], a leg that intersects
    the obstacle of radius [2] centred at [(3,3)].  A route is a plain list
    of points: nothing flags these legs. *)
Lemma model1_route_crosses_obstacle :
  let a := Waypoint.new 0 0 in
  let b := Waypoint.new 10 0 in
  let o := Model1.newObstacle 5 0 2 in
  let this := Model1.newRouteOptimizer [a; b] [o] 20 in
  Model1.optimizeRoute 3 this = Returns [Some a; Some b; Some a] /\
  Waypoint.distanceTo (closestPointOnSegment (Waypoint.new 5 0) a b) (Waypoint.new 5 0)
  = 0 /\
  Model1.intersectsWithLineSegment o (Model1.newLineSegment a b) = true /\
  Model1.isSafeRoute this (Model1.newLineSegment a b) = false /\
  Model2.optimizeRoute 4 sample2
  = Returns (map Some
      [Waypoint.new 0 0; Waypoint.new 0 3; Waypoint.new 2 5; Waypoint.new 5 5;
       Waypoint.new 7 5; Waypoint.new 10 2; Waypoint.new 10 0; Waypoint.new 8 0;
       Waypoint.new 0 8; Waypoint.new 0 10; Waypoint.new 0 0]) /\
  Model2.intersectsWithLineSegment (Model2.newObstacle 3 3 2)
    (Model2.segmentOf (Waypoint.new 8 0) (Waypoint.new 0 8)) = true.
Proof.
  cbv zeta.
  assert (Hclosest :
    Waypoint.distanceTo
      (closestPointOnSegment (Waypoint.new 5 0) (Waypoint.new 0 0) (Waypoint.new 10 0))
      (Waypoint.new 5 0) = 0).
  { apply Rle_antisym; [| apply distanceTo_nonneg].
    eapply Rle_trans;
      [ apply closestPointOnSegment_nearest, midpoint_onSegment
      | rewrite midpoint_distance_0; apply Rle_refl ]. }
  assert (Hhit : Model1.intersectsWithLineSegment (Model1.newObstacle 5 0 2)
                   (Model1.newLineSegment (Waypoint.new 0 0) (Waypoint.new 10 0)) = true).
  { unfold Model1.intersectsWithLineSegment. cbv zeta.
    apply leb_true_iff. rewrite model1_distance_closest.
    cbn [Model1.x Model1.y Model1.start Model1.end_ Model1.radius].
    rewrite Hclosest. lra. }
  repeat split.
  - unfold Model1.optimizeRoute. cbn [Model1.waypoints].
    apply two_waypoint_tour.
    + unfold Model1.findSafeRoute. cbn [Model1.start Model1.end_].
      rewrite findSafeRoute_while_arrived; [reflexivity |].
      rewrite distance_0_10. cbn [Model1.safeDistance]. lra.
    + unfold Model1.findSafeRoute. cbn [Model1.start Model1.end_].
      rewrite findSafeRoute_while_arrived; [reflexivity |].
      rewrite distanceTo_sym, distance_0_10. cbn [Model1.safeDistance]. lra.
  - exact Hclosest.
  - exact Hhit.
  - unfold Model1.isSafeRoute. cbn [Model1.obstacles Model1.isSafeRoute_for].
    now rewrite Hhit.
  - exact model2_sample_route.
  - exact (proj1 sample2_detour_leg_hits).
Qed.

(** In model2.js a leg is left straight exactly when no obstacle intersects
    it. *)
Lemma model2_straight_iff (this : Model2.RouteOptimizer) (from to : Waypoint) :
  Model2.findSafeRoute this from to = Returns [from; to] <->
  forall o, In o (Model2.obstacles this) ->
    Model2.intersectsWithLineSegment o (Model2.segmentOf from to) = false.
Proof.
  split.
  - intros Hret o Ho.
    unfold Model2.findSafeRoute, Model2.findAlternativeSafePath in Hret.
    cbv zeta in Hret. rewrite existsb_find in Hret.
    destruct (find _ (Model2.obstacles this)) as [o' |] eqn:Hfind;
      [discriminate |].
    exact (find_none _ _ Hfind o Ho).
  - intros Hall. apply model2_findSafeRoute_straight.
    now apply Forall_forall.
Qed.

(** C1, amended: [isSafeRoute(p, q)] is true exactly when every obstacle's
    centre is at a distance strictly greater than the obstacle's radius from
    the closest point of the segment.  The route model1.js returns is the
    same whatever the obstacles (neither the resolver nor the loop looks at
    them).  In model2.js a leg is left as it is exactly when every obstacle
    is clear of it in that sense; the legs of a detour are not tested. *)
Theorem isSafeRoute_iff_clear_and_route_ignores_obstacles :
  (forall (this : Model1.RouteOptimizer) (seg : Model1.LineSegment),
     Model1.isSafeRoute this seg = true <->
     forall o, In o (Model1.obstacles this) ->
       let centre := Waypoint.new (Model1.x o) (Model1.y o) in
       Model1.radius o <
       Waypoint.distanceTo
         (closestPointOnSegment centre (Model1.start seg) (Model1.end_ seg)) centre) /\
  (forall (fuel : nat) (W : list Waypoint) (obstacles obstacles' : list Model1.Obstacle)
          (s : R),
     Model1.optimizeRoute fuel (Model1.newRouteOptimizer W obstacles s)
     = Model1.optimizeRoute fuel (Model1.newRouteOptimizer W obstacles' s)) /\
  (forall (this : Model2.RouteOptimizer) (from to : Waypoint),
     Model2.findSafeRoute this from to = Returns [from; to] <->
     forall o, In o (Model2.obstacles this) ->
       let centre := Waypoint.new (Model2.x o) (Model2.y o) in
       Model2.radius o <
       Waypoint.distanceTo (closestPointOnSegment centre from to) centre).
Proof.
  split; [| split].
  - intros this seg. unfold Model1.isSafeRoute. rewrite isSafeRoute_for_forall.
    split; intros H o Ho; specialize (H o Ho); cbv zeta in *.
    + unfold Model1.intersectsWithLineSegment in H. cbv zeta in H.
      apply leb_false_iff in H. now rewrite model1_distance_closest in H.
    + unfold Model1.intersectsWithLineSegment. cbv zeta.
      apply leb_false_iff. now rewrite model1_distance_closest.
  - intros fuel W obstacles obstacles' s. unfold Model1.optimizeRoute.
    apply optimizeRoute_ext. intros a b. unfold Model1.findSafeRoute.
    now apply findSafeRoute_while_step_only.
  - intros this from to. rewrite model2_straight_iff.
    assert (Hdist : forall o,
      Model2.distanceToLineSegment o (Model2.segmentOf from to)
      = Waypoint.distanceTo
          (closestPointOnSegment (Waypoint.new (Model2.x o) (Model2.y o)) from to)
          (Waypoint.new (Model2.x o) (Model2.y o))).
    { intros o. rewrite model2_distance_closest.
      cbn [Model2.segmentOf Model2.x1 Model2.y1 Model2.x2 Model2.y2].
      now destruct from, to. }
    split; intros H o Ho; specialize (H o Ho); cbv zeta in *.
    + unfold Model2.intersectsWithLineSegment in H. cbv zeta in H.
      apply leb_false_iff in H. now rewrite Hdist in H.
    + unfold Model2.intersectsWithLineSegment. cbv zeta.
      apply leb_false_iff. now rewrite Hdist.
Qed.

(** * More of the code *)

(** ** The scan of [findNextPoint] *)

(** The inner loop goes through the 21 points of a column. *)
Lemma forY_column (this : Drone.DroneRouteOptimizer) (route : list (option Waypoint))
  (last : Waypoint) (i : nat) :
  forall (n j fuel : nat) (st : Drone.scan),
    (j + n = 21)%nat -> (n < fuel)%nat ->
    Drone.forY fuel this route last (Waypoint.x last - 10 + INR i)
               (Waypoint.y last - 10 + INR j) st
    = Drone.visitAll this route
        (map (fun j => Waypoint.new (Waypoint.x last - 10 + INR i)
                                    (Waypoint.y last - 10 + INR j)) (seq j n)) st.
Proof.
  induction n as [| n IH]; intros j fuel st Hj Hfuel;
    (destruct fuel as [| fuel]; [lia |]); cbn [Drone.forY].
  - replace (Js.leb _ _) with false; [reflexivity |].
    symmetry. apply leb_false_iff.
    replace j with 21%nat by lia. simpl INR. lra.
  - replace (Js.leb _ _) with true.
    2:{ symmetry. apply leb_true_iff.
        assert (INR j <= 20) by (replace 20 with (INR 20) by (simpl; lra); apply le_INR; lia).
        lra. }
    cbn [seq map Drone.visitAll Waypoint.x Waypoint.y].
    destruct (Drone.visit this route _ _ st) as [st' | msg |]; cbn [bind]; try reflexivity.
    replace (Waypoint.y last - 10 + INR j + 1) with (Waypoint.y last - 10 + INR (S j))
      by (rewrite S_INR; ring).
    apply IH; lia.
Qed.

Lemma visitAll_app (this : Drone.DroneRouteOptimizer) (route : list (option Waypoint))
  (l1 l2 : list Waypoint) :
  forall st : Drone.scan,
    Drone.visitAll this route (l1 ++ l2) st
    = (st' <- Drone.visitAll this route l1 st ;; Drone.visitAll this route l2 st').
Proof.
  induction l1 as [| p l1 IH]; intros st; cbn [app Drone.visitAll bind]; [reflexivity |].
  destruct (Drone.visit this route _ _ st); cbn [bind]; auto.
Qed.

(** The two loops go through the 441 candidates, column after column. *)
Lemma forX_candidates (this : Drone.DroneRouteOptimizer) (route : list (option Waypoint))
  (last : Waypoint) (scanFuel : nat) :
  (22 <= scanFuel)%nat ->
  forall (n i fuel : nat) (st : Drone.scan),
    (i + n = 21)%nat -> (n < fuel)%nat ->
    Drone.forX fuel scanFuel this route last (Waypoint.x last - 10 + INR i) st
    = Drone.visitAll this route (flat_map (Drone.column last) (seq i n)) st.
Proof.
  intros Hscan.
  induction n as [| n IH]; intros i fuel st Hi Hfuel;
    (destruct fuel as [| fuel]; [lia |]); cbn [Drone.forX].
  - replace (Js.leb _ _) with false; [reflexivity |].
    symmetry. apply leb_false_iff.
    replace i with 21%nat by lia. simpl INR. lra.
  - replace (Js.leb _ _) with true.
    2:{ symmetry. apply leb_true_iff.
        assert (INR i <= 20) by (replace 20 with (INR 20) by (simpl; lra); apply le_INR; lia).
        lra. }
    cbn [seq flat_map]. rewrite visitAll_app.
    replace (Waypoint.y last - 10) with (Waypoint.y last - 10 + INR 0) by (simpl; ring).
    rewrite (forY_column this route last i 21 0 scanFuel st) by lia.
    unfold Drone.column at 1.
    destruct (Drone.visitAll this route _ st) as [st' | msg |]; cbn [bind]; try reflexivity.
    replace (Waypoint.x last - 10 + INR i + 1) with (Waypoint.x last - 10 + INR (S i))
      by (rewrite S_INR; ring).
    apply IH; lia.
Qed.

Lemma findNextPoint_scan (this : Drone.DroneRouteOptimizer)
  (route : list (option Waypoint)) (last : Waypoint) (fuel : nat) :
  (22 <= fuel)%nat ->
  Js.lastEntry route = Some (Some last) ->
  Drone.findNextPoint fuel this route
  = (st <- Drone.visitAll this route (Drone.candidates last) (Drone.newScan None None) ;;
     Returns (Drone.nextPoint st)).
Proof.
  intros Hfuel Hlast. unfold Drone.findNextPoint. rewrite Hlast.
  replace (Waypoint.x last - 10) with (Waypoint.x last - 10 + INR 0) by (simpl; ring).
  rewrite (forX_candidates this route last fuel Hfuel 21 0 fuel) by lia.
  reflexivity.
Qed.

Lemma onRoute_clean (points : list Waypoint) (q : Waypoint) :
  exists b : bool,
    Drone.onRoute (map Some points) q = Returns b /\ (b = true <-> In q points).
Proof.
  induction points as [| p points (b & Hb & Hin)]; cbn [map Drone.onRoute].
  - exists false. split; [reflexivity |]. split; [discriminate | intros []].
  - destruct (Js.eqb (Waypoint.x p) (Waypoint.x q)) eqn:Hx;
      [destruct (Js.eqb (Waypoint.y p) (Waypoint.y q)) eqn:Hy |]; cbn [andb].
    + exists true. split; [reflexivity |]. split; [| reflexivity].
      intros _. left. apply eqb_true_iff in Hx, Hy.
      destruct p, q. cbn in Hx, Hy. now subst.
    + exists b. split; [exact Hb |]. rewrite Hin. split; [now right |].
      intros [<- | H]; [| exact H].
      apply eqb_false_iff in Hy. congruence.
    + exists b. split; [exact Hb |]. rewrite Hin. split; [now right |].
      intros [<- | H]; [| exact H].
      apply eqb_false_iff in Hx. congruence.
Qed.

Lemma waypoint_eta (p : Waypoint) : Waypoint.new (Waypoint.x p) (Waypoint.y p) = p.
Proof. now destruct p. Qed.

(** One more point scanned. *)
Lemma visit_scanned (this : Drone.DroneRouteOptimizer) (points seen : list Waypoint)
  (p : Waypoint) (st : Drone.scan) :
  Drone.scanned this points seen st ->
  exists st' : Drone.scan,
    Drone.visit this (map Some points) (Waypoint.x p) (Waypoint.y p) st = Returns st' /\
    Drone.scanned this points (seen ++ [p]) st'.
Proof.
  intros [Hbest Hmin]. unfold Drone.visit. cbv zeta. rewrite waypoint_eta.
  destruct (onRoute_clean points p) as (b & -> & Hb). cbn [bind].
  destruct (b || Grid.isObstructed (Drone.obstacles this) p) eqn:Hskip.
  - (* skipped: [p] is not admissible *)
    assert (Hp : ~ Drone.admissible this points p).
    { intros [Hnew Hfree]. apply orb_true_iff in Hskip.
      destruct Hskip as [-> | Hobs]; [apply Hnew; now apply Hb | congruence]. }
    exists st. split; [reflexivity |]. split; [| exact Hmin].
    unfold Drone.nearestAdmissible in *. destruct (Drone.nextPoint st) as [p0 |].
    + destruct Hbest as (Hp0 & before & after & -> & Hbefore & Hafter).
      split; [exact Hp0 |]. exists before, (after ++ [p]).
      split; [now rewrite <- app_assoc |]. split; [exact Hbefore |].
      intros q Hq Hadm. apply in_app_or in Hq.
      destruct Hq as [Hq | [<- | []]]; [now apply Hafter | contradiction].
    + intros q Hq. apply in_app_or in Hq.
      destruct Hq as [Hq | [<- | []]]; [now apply Hbest | exact Hp].
  - apply orb_false_iff in Hskip. destruct Hskip as [-> Hfree].
    assert (Hp : Drone.admissible this points p).
    { split; [| exact Hfree]. intros Hin. apply Hb in Hin. discriminate. }
    unfold Drone.nearestAdmissible in Hbest.
    destruct (Drone.nextPoint st) as [p0 |] eqn:Hnext.
    + destruct Hbest as (Hp0 & before & after & -> & Hbefore & Hafter).
      rewrite Hmin. cbn [Drone.below].
      destruct (Js.ltb _ _) eqn:Hlt.
      * apply ltb_true_iff in Hlt. eexists. split; [reflexivity |].
        split; [| reflexivity]. cbn [Drone.nextPoint Drone.nearestAdmissible].
        split; [exact Hp |]. exists (before ++ p0 :: after), [].
        split; [reflexivity |]. split; [| intros q []].
        intros q Hq Hadm. apply in_app_or in Hq.
        destruct Hq as [Hq | [<- | Hq]].
        -- specialize (Hbefore q Hq Hadm). lra.
        -- exact Hlt.
        -- specialize (Hafter q Hq Hadm). lra.
      * apply ltb_false_iff in Hlt. exists st. split; [reflexivity |].
        split; [| now rewrite Hnext]. rewrite Hnext.
        cbn [Drone.nearestAdmissible]. split; [exact Hp0 |].
        exists before, (after ++ [p]). split; [now rewrite <- app_assoc |].
        split; [exact Hbefore |].
        intros q Hq Hadm. apply in_app_or in Hq.
        destruct Hq as [Hq | [<- | []]]; [now apply Hafter | exact Hlt].
    + rewrite Hmin. cbn [Drone.below]. eexists. split; [reflexivity |].
      split; [| reflexivity]. cbn [Drone.nextPoint Drone.nearestAdmissible].
      split; [exact Hp |]. exists seen, []. split; [reflexivity |].
      split; [| intros q []].
      intros q Hq Hadm. exfalso. now apply (Hbest q Hq).
Qed.

Lemma visitAll_scanned (this : Drone.DroneRouteOptimizer) (points : list Waypoint)
  (todo : list Waypoint) :
  forall (seen : list Waypoint) (st : Drone.scan),
    Drone.scanned this points seen st ->
    exists st' : Drone.scan,
      Drone.visitAll this (map Some points) todo st = Returns st' /\
      Drone.scanned this points (seen ++ todo) st'.
Proof.
  induction todo as [| p todo IH]; intros seen st Hst; cbn [Drone.visitAll].
  - exists st. rewrite app_nil_r. now split.
  - destruct (visit_scanned this points seen p st Hst) as (st1 & -> & Hst1).
    cbn [bind]. destruct (IH (seen ++ [p]) st1 Hst1) as (st' & Hrun & Hst').
    exists st'. split; [exact Hrun |]. now rewrite <- app_assoc in Hst'.
Qed.

(** What [findNextPoint] returns on a route without [null]. *)
Lemma findNextPoint_returns (this : Drone.DroneRouteOptimizer) (points : list Waypoint)
  (last : Waypoint) (fuel : nat) :
  (22 <= fuel)%nat ->
  Js.lastEntry (map Some points) = Some (Some last) ->
  exists r : option Waypoint,
    Drone.findNextPoint fuel this (map Some points) = Returns r /\
    Drone.nearestAdmissible this points (Drone.candidates last) r.
Proof.
  intros Hfuel Hlast. rewrite (findNextPoint_scan this _ last fuel Hfuel Hlast).
  destruct (visitAll_scanned this points (Drone.candidates last) [] (Drone.newScan None None))
    as (st & -> & Hbest & _).
  { split; [intros q [] | reflexivity]. }
  exists (Drone.nextPoint st). split; [reflexivity | exact Hbest].
Qed.

(** ** The walk of [DroneRouteOptimizer.optimizeRoute] *)

Lemma lastEntry_map_Some (points : list Waypoint) :
  Js.lastEntry (map Some points) = option_map Some (Js.lastEntry points).
Proof.
  unfold Js.lastEntry. rewrite length_map. apply nth_error_map.
Qed.

Lemma in_candidates (last q : Waypoint) :
  In q (Drone.candidates last) <->
  exists i j : nat,
    (i <= 20)%nat /\ (j <= 20)%nat /\
    q = Waypoint.new (Waypoint.x last - 10 + INR i) (Waypoint.y last - 10 + INR j).
Proof.
  unfold Drone.candidates, Drone.column. rewrite in_flat_map. split.
  - intros (i & Hi & Hq). apply in_map_iff in Hq. destruct Hq as (j & <- & Hj).
    apply in_seq in Hi, Hj. exists i, j. repeat split; lia.
  - intros (i & j & Hi & Hj & ->). exists i. split; [apply in_seq; lia |].
    apply in_map_iff. exists j. split; [reflexivity | apply in_seq; lia].
Qed.

Lemma candidate_within_box (last q : Waypoint) :
  In q (Drone.candidates last) ->
  Rabs (Waypoint.x q - Waypoint.x last) <= 10 /\
  Rabs (Waypoint.y q - Waypoint.y last) <= 10.
Proof.
  intros Hq. apply in_candidates in Hq. destruct Hq as (i & j & Hi & Hj & ->).
  cbn [Waypoint.x Waypoint.y].
  assert (0 <= INR i <= 20).
  { split; [apply pos_INR |].
    replace 20 with (INR 20) by (simpl; lra). now apply le_INR. }
  assert (0 <= INR j <= 20).
  { split; [apply pos_INR |].
    replace 20 with (INR 20) by (simpl; lra). now apply le_INR. }
  split; apply Rabs_le; lra.
Qed.

(** Every run of the loop that returns is a walk. *)
Lemma drone_while_walk (this : Drone.DroneRouteOptimizer) (scanFuel : nat) :
  (22 <= scanFuel)%nat ->
  forall (fuel : nat) (points : list Waypoint) (route : list (option Waypoint)),
    Drone.optimizeRoute_while fuel scanFuel this (map Some points) = Returns route ->
    exists final : list Waypoint,
      route = map Some final /\ Drone.walk this points final.
Proof.
  intros Hscan. induction fuel as [| fuel IH]; intros points route Hrun; [discriminate |].
  cbn [Drone.optimizeRoute_while] in Hrun. rewrite lastEntry_map_Some in Hrun.
  destruct (Js.lastEntry points) as [last |] eqn:Hlast; cbn [option_map] in Hrun;
    [| discriminate].
  destruct (Js.gtb _ _) eqn:Hfar.
  - apply gtb_true_iff in Hfar.
    destruct (findNextPoint_returns this points last scanFuel Hscan) as (r & Hr & Hbest).
    { rewrite lastEntry_map_Some, Hlast. reflexivity. }
    rewrite Hr in Hrun. cbn [bind] in Hrun. destruct r as [next |].
    + replace (map Some points ++ [Some next]) with (map Some (points ++ [next])) in Hrun
        by (rewrite map_app; reflexivity).
      destruct (IH _ _ Hrun) as (final & -> & Hwalk).
      exists final. split; [reflexivity |].
      now apply (Drone.walk_on this points last next final).
    + (* [null] was pushed: the next test of the loop cannot return *)
      exfalso. destruct fuel as [| fuel]; [discriminate |].
      cbn [Drone.optimizeRoute_while] in Hrun. rewrite lastEntry_snoc in Hrun.
      discriminate.
  - apply gtb_false_iff in Hfar. injection Hrun as <-.
    exists points. split; [reflexivity |].
    now apply (Drone.walk_arrived this points last).
Qed.

(** What a walk keeps. *)
Lemma walk_invariants (this : Drone.DroneRouteOptimizer) (points final : list Waypoint) :
  Drone.walk this points final ->
  exists more : list Waypoint,
    final = points ++ more /\
    (NoDup points -> NoDup final) /\
    (Drone.hops points -> Drone.hops final) /\
    (forall q, In q more -> Grid.isObstructed (Drone.obstacles this) q = false) /\
    exists last : Waypoint,
      Js.lastEntry final = Some last /\
      Grid.calculateDistance last (Drone.destination this) <= 10.
Proof.
  induction 1 as [points last Hlast Hnear
                 | points last next final Hlast Hfar Hbest Hwalk IH].
  - exists []. rewrite app_nil_r. repeat split; auto; try contradiction.
    now exists last.
  - destruct IH as (more & -> & Hnodup & Hhops & Hfree & Harrive).
    destruct Hbest as ([Hnew Hunobs] & before & after & Hcand & _).
    exists (next :: more). rewrite <- app_assoc in *. cbn [app] in *.
    repeat split.
    + intros Hpoints. apply Hnodup.
      apply NoDup_rev in Hpoints. rewrite <- (rev_involutive (points ++ [next])).
      apply NoDup_rev. rewrite rev_app_distr. cbn [rev app].
      constructor; [| exact Hpoints]. now rewrite <- in_rev.
    + intros Hpoints. apply Hhops.
      assert (Hbox : In next (Drone.candidates last))
        by (rewrite Hcand; apply in_or_app; right; now left).
      apply candidate_within_box in Hbox.
      clear - Hpoints Hlast Hbox. revert Hlast Hpoints.
      unfold Js.lastEntry.
      induction points as [| p [| q points] IH]; cbn [List.length Nat.sub nth_error app].
      * discriminate.
      * intros [= ->] _. cbn [Drone.hops]. tauto.
      * intros Hl (Hx & Hy & Hrest). cbn [Drone.hops].
        repeat split; auto.
        apply IH; [| exact Hrest].
        cbn [List.length Nat.sub] in *. now rewrite Nat.sub_0_r in *.
    + intros q [<- | Hq]; [exact Hunobs | now apply Hfree].
    + exact Harrive.
Qed.

(** *** The points scanned, and their order *)








(** *** More fuel changes nothing to a scan that returned *)





(** X2: when [optimizeRoute] of the grid-walking variant returns, the route
    starts at [start], holds no point twice, moves by at most [10] along each
    axis from a point to the next, holds after [start] only points that are
    not obstructed, and ends within [10] of the destination. *)
Theorem drone_optimizeRoute_route_invariants
  (this : Drone.DroneRouteOptimizer) (fuel : nat) (route : list (option Waypoint)) :
  (22 <= fuel)%nat ->
  Drone.optimizeRoute fuel this = Returns route ->
  exists more : list Waypoint,
    route = map Some (Drone.start this :: more) /\
    NoDup (Drone.start this :: more) /\
    Drone.hops (Drone.start this :: more) /\
    (forall q, In q more -> Grid.isObstructed (Drone.obstacles this) q = false) /\
    exists last : Waypoint,
      Js.lastEntry (Drone.start this :: more) = Some last /\
      Grid.calculateDistance last (Drone.destination this) <= 10.
Proof.
  intros Hfuel Hrun. unfold Drone.optimizeRoute, Drone.initialRoute in Hrun.
  destruct (drone_while_walk this fuel Hfuel fuel [Drone.start this] route Hrun)
    as (final & -> & Hwalk).
  destruct (walk_invariants this _ _ Hwalk) as (more & -> & Hnodup & Hhops & Hfree & Hlast).
  exists more. cbn [app]. repeat split; auto.
  - apply Hnodup. constructor; [intros [] | constructor].
  - apply Hhops. exact I.
Qed.

(** X3: when the last point of the route is more than [10] from the
    destination and none of the 441 points around it is admissible,
    [findNextPoint] returns [null], [optimizeRoute] pushes it, and the next
    test of the loop reads a coordinate of [null]: the call throws a
    [TypeError]. *)
Theorem drone_optimizeRoute_stuck_throws
  (this : Drone.DroneRouteOptimizer) (points : list Waypoint) (last : Waypoint)
  (fuel scanFuel : nat) :
  Js.lastEntry points = Some last ->
  10 < Grid.calculateDistance last (Drone.destination this) ->
  (forall q, In q (Drone.candidates last) -> ~ Drone.admissible this points q) ->
  (2 <= fuel)%nat -> (22 <= scanFuel)%nat ->
  Drone.findNextPoint scanFuel this (map Some points) = Returns None /\
  Drone.optimizeRoute_while fuel scanFuel this (map Some points) = Throws "TypeError".
Proof.
  intros Hlast Hfar Hnone Hfuel Hscan.
  destruct (findNextPoint_returns this points last scanFuel Hscan) as (r & Hr & Hbest).
  { rewrite lastEntry_map_Some, Hlast. reflexivity. }
  assert (r = None) as ->.
  { destruct r as [p |]; [| reflexivity]. exfalso.
    destruct Hbest as (Hadm & before & after & Hcand & _).
    apply (Hnone p); [| exact Hadm].
    rewrite Hcand. apply in_or_app. right. now left. }
  split; [exact Hr |].
  destruct fuel as [| [| fuel]]; try lia.
  cbn [Drone.optimizeRoute_while]. rewrite lastEntry_map_Some, Hlast. cbn [option_map].
  replace (Js.gtb _ 10) with true by (symmetry; now apply gtb_true_iff).
  rewrite Hr. cbn [bind]. now rewrite lastEntry_snoc.
Qed.

Lemma sqrt_lt_bound (u r : R) : 0 < r -> u < r ^ 2 -> sqrt u < r.
Proof.
  intros Hr Hu. destruct (Rle_dec 0 u) as [Hpos | Hneg].
  - rewrite <- (sqrt_pow2 r) by lra. apply sqrt_lt_1_alt. lra.
  - rewrite sqrt_neg_0 by lra. exact Hr.
Qed.

Lemma Rabs_le_bounds (a b : R) : Rabs a <= b -> - b <= a <= b.
Proof. unfold Rabs. destruct (Rcase_abs a); lra. Qed.

(** Four obstacles around the origin leave no point of the square free. *)
Lemma boxed_in (q : Waypoint) :
  In q (Drone.candidates (Waypoint.new 0 0)) ->
  Grid.isObstructed
    [Waypoint.new 5 5; Waypoint.new 5 (-5); Waypoint.new (-5) 5; Waypoint.new (-5) (-5)] q
  = true.
Proof.
  intros Hq. pose proof (candidate_within_box _ _ Hq) as [Hx Hy].
  cbn [Waypoint.x Waypoint.y] in Hx, Hy.
  apply Rabs_le_bounds in Hx. apply Rabs_le_bounds in Hy.
  replace (Waypoint.x q - 0) with (Waypoint.x q) in Hx by ring.
  replace (Waypoint.y q - 0) with (Waypoint.y q) in Hy by ring.
  apply isObstructed_iff.
  destruct (Rle_dec 0 (Waypoint.x q)) as [Hxs | Hxs];
    destruct (Rle_dec 0 (Waypoint.y q)) as [Hys | Hys].
  - exists (Waypoint.new 5 5). split; [cbn; tauto |].
    apply sqrt_lt_bound; [lra |]. cbn [Waypoint.x Waypoint.y]. nra.
  - exists (Waypoint.new 5 (-5)). split; [cbn; tauto |].
    apply sqrt_lt_bound; [lra |]. cbn [Waypoint.x Waypoint.y]. nra.
  - exists (Waypoint.new (-5) 5). split; [cbn; tauto |].
    apply sqrt_lt_bound; [lra |]. cbn [Waypoint.x Waypoint.y]. nra.
  - exists (Waypoint.new (-5) (-5)). split; [cbn; tauto |].
    apply sqrt_lt_bound; [lra |]. cbn [Waypoint.x Waypoint.y]. nra.
Qed.

Lemma drone_optimizeRoute_stuck_throws_witness :
  let this :=
    Drone.newDroneRouteOptimizer (Waypoint.new 0 0) (Waypoint.new 100 100)
      [Waypoint.new 5 5; Waypoint.new 5 (-5); Waypoint.new (-5) 5; Waypoint.new (-5) (-5)] in
  Drone.findNextPoint 22 this (map Some [Waypoint.new 0 0]) = Returns None /\
  Drone.optimizeRoute_while 2 22 this (map Some [Waypoint.new 0 0]) = Throws "TypeError".
Proof.
  apply (drone_optimizeRoute_stuck_throws
           (Drone.newDroneRouteOptimizer (Waypoint.new 0 0) (Waypoint.new 100 100)
              [Waypoint.new 5 5; Waypoint.new 5 (-5); Waypoint.new (-5) 5;
               Waypoint.new (-5) (-5)])
           [Waypoint.new 0 0] (Waypoint.new 0 0) 2 22).
  - reflexivity.
  - cbn [Drone.destination]. unfold Grid.calculateDistance. cbn [Waypoint.x Waypoint.y].
    apply lt_sqrt; lra.
  - intros q Hq [_ Hfree]. cbn [Drone.obstacles] in Hfree.
    rewrite (boxed_in q Hq) in Hfree. discriminate.
  - lia.
  - lia.
Defined.

(** *** A first hop

    From [(0, 0)] to [(20, 0)], with an obstacle at [(0, -15)] that
    obstructs some of the points scanned: the nearest of these to the
    destination is [(10, 0)], and from there the destination is within
    [10]. *)

Lemma calculateDistance_sq (p q : Waypoint) :
  Grid.calculateDistance p q ^ 2
  = (Waypoint.x q - Waypoint.x p) ^ 2 + (Waypoint.y q - Waypoint.y p) ^ 2.
Proof. unfold Grid.calculateDistance. apply pow2_sqrt, sqrt_sq_sum_nonneg. Qed.

Lemma calculateDistance_nonneg (p q : Waypoint) : 0 <= Grid.calculateDistance p q.
Proof. apply sqrt_pos. Qed.

Lemma sq_le_distance (a b : R) : 0 <= a -> 0 <= b -> a ^ 2 <= b ^ 2 -> a <= b.
Proof. intros. nra. Qed.

Lemma first_hop_candidate :
  In (Waypoint.new 10 0) (Drone.candidates (Waypoint.new 0 0)).
Proof.
  apply in_candidates. exists 20%nat, 10%nat. split; [lia |]. split; [lia |].
  cbn [Waypoint.x Waypoint.y]. f_equal; simpl INR; lra.
Qed.

Lemma first_hop :
  Drone.findNextPoint 22
    (Drone.newDroneRouteOptimizer (Waypoint.new 0 0) (Waypoint.new 20 0)
       [Waypoint.new 0 (-15)])
    (map Some [Waypoint.new 0 0])
  = Returns (Some (Waypoint.new 10 0)).
Proof.
  set (this := Drone.newDroneRouteOptimizer (Waypoint.new 0 0) (Waypoint.new 20 0)
                 [Waypoint.new 0 (-15)]).
  set (c := Waypoint.new 10 0).
  destruct (findNextPoint_returns this [Waypoint.new 0 0] (Waypoint.new 0 0) 22)
    as (r & Hr & Hbest); [lia | reflexivity |].
  rewrite Hr. f_equal.
  pose proof first_hop_candidate as Hc. fold c in Hc.
  assert (Hadm : Drone.admissible this [Waypoint.new 0 0] c).
  { split.
    - intros [H | []]. injection H. lra.
    - cbn [this Drone.obstacles Grid.isObstructed].
      replace (Js.ltb _ 10) with false; [reflexivity |].
      symmetry. apply ltb_false_iff.
      unfold Grid.calculateDistance, c. cbn [Waypoint.x Waypoint.y].
      apply Rlt_le, lt_sqrt; lra. }
  assert (Hdc : Grid.calculateDistance c (Drone.destination this) = 10).
  { unfold Grid.calculateDistance, c. cbn [this Drone.destination Waypoint.x Waypoint.y].
    apply sqrt_unique; [lra | ring]. }
  assert (Hfar : forall p, In p (Drone.candidates (Waypoint.new 0 0)) ->
            10 <= Grid.calculateDistance p (Drone.destination this) /\
            (Grid.calculateDistance p (Drone.destination this) <= 10 -> p = c)).
  { intros p Hp. apply in_candidates in Hp. destruct Hp as (i & j & Hi & Hj & ->).
    cbn [Waypoint.x Waypoint.y].
    assert (Hi' : INR i <= 20)
      by (replace 20 with (INR 20) by (simpl; lra); now apply le_INR).
    change (Drone.destination this) with (Waypoint.new 20 0).
    pose proof (calculateDistance_nonneg
                  (Waypoint.new (0 - 10 + INR i) (0 - 10 + INR j))
                  (Waypoint.new 20 0)) as Hpos.
    pose proof (calculateDistance_sq
                  (Waypoint.new (0 - 10 + INR i) (0 - 10 + INR j))
                  (Waypoint.new 20 0)) as Hsq.
    cbn [Waypoint.x Waypoint.y] in Hsq.
    set (d := Grid.calculateDistance
                (Waypoint.new (0 - 10 + INR i) (0 - 10 + INR j)) (Waypoint.new 20 0)) in *.
    clearbody d.
    set (u := INR i) in *. set (v := INR j) in *. clearbody u v.
    split.
    - apply sq_le_distance; [lra | exact Hpos |]. rewrite Hsq.
      pose proof (pow2_ge_0 (0 - (0 - 10 + v))). nra.
    - intros Hd. unfold c.
      assert (Hd2 : d ^ 2 <= 100) by nra. rewrite Hsq in Hd2.
      pose proof (pow2_ge_0 (0 - (0 - 10 + v))) as Hv.
      assert (Hu : 100 <= (20 - (0 - 10 + u)) ^ 2) by nra.
      assert (Hv0 : (0 - (0 - 10 + v)) ^ 2 = 0) by lra.
      assert (Hu0 : (20 - (0 - 10 + u)) ^ 2 = 100) by lra.
      f_equal; nra. }
  destruct r as [p |]; cbn [Drone.nearestAdmissible] in Hbest.
  - destruct Hbest as (_ & before & after & Hcand & Hbefore & Hafter).
    f_equal.
    assert (Hp : In p (Drone.candidates (Waypoint.new 0 0)))
      by (rewrite Hcand; apply in_or_app; right; now left).
    destruct (Hfar p Hp) as [Hge Heq]. apply Heq.
    rewrite Hcand in Hc. apply in_app_or in Hc. destruct Hc as [Hc | [<- | Hc]].
    + pose proof (Hbefore c Hc Hadm). lra.
    + lra.
    + pose proof (Hafter c Hc Hadm). lra.
  - exfalso. exact (Hbest c Hc Hadm).
Qed.

Lemma two_hops :
  Drone.optimizeRoute 22
    (Drone.newDroneRouteOptimizer (Waypoint.new 0 0) (Waypoint.new 20 0)
       [Waypoint.new 0 (-15)])
  = Returns [Some (Waypoint.new 0 0); Some (Waypoint.new 10 0)].
Proof.
  unfold Drone.optimizeRoute, Drone.initialRoute.
  cbn [Drone.optimizeRoute_while Drone.start Drone.destination Js.lastEntry
       List.length Nat.sub nth_error].
  replace (Js.gtb (Grid.calculateDistance (Waypoint.new 0 0) (Waypoint.new 20 0)) 10)
    with true.
  2:{ symmetry. apply gtb_true_iff.
      unfold Grid.calculateDistance. cbn [Waypoint.x Waypoint.y].
      apply lt_sqrt; lra. }
  change [Some (Waypoint.new 0 0)] with (map Some [Waypoint.new 0 0]).
  rewrite first_hop.
  cbn [bind map app Drone.optimizeRoute_while Drone.destination Js.lastEntry
       List.length Nat.sub nth_error].
  replace (Js.gtb _ 10) with false; [reflexivity |].
  symmetry. apply gtb_false_iff.
  unfold Grid.calculateDistance. cbn [Waypoint.x Waypoint.y].
  replace ((20 - 10) ^ 2 + (0 - 0) ^ 2) with (10 ^ 2) by ring.
  rewrite sqrt_pow2 by lra. lra.
Qed.


Lemma drone_optimizeRoute_route_invariants_witness :
  let this := Drone.newDroneRouteOptimizer (Waypoint.new 0 0) (Waypoint.new 20 0)
                [Waypoint.new 0 (-15)] in
  exists more : list Waypoint,
    [Some (Waypoint.new 0 0); Some (Waypoint.new 10 0)]
    = map Some (Drone.start this :: more) /\
    NoDup (Drone.start this :: more) /\
    Drone.hops (Drone.start this :: more) /\
    (forall q, In q more -> Grid.isObstructed (Drone.obstacles this) q = false) /\
    exists last : Waypoint,
      Js.lastEntry (Drone.start this :: more) = Some last /\
      Grid.calculateDistance last (Drone.destination this) <= 10.
Proof.
  apply (drone_optimizeRoute_route_invariants
           (Drone.newDroneRouteOptimizer (Waypoint.new 0 0) (Waypoint.new 20 0)
              [Waypoint.new 0 (-15)])
           22 [Some (Waypoint.new 0 0); Some (Waypoint.new 10 0)]).
  - lia.
  - exact two_hops.
Defined.

(** ** The compass of [getDirection] *)



(** ** The plain tour, and when the other variants return it *)

Lemma selects_direct_route (route : list (option Waypoint)) (unvisited chosen : list Waypoint)
  (route' : list (option Waypoint)) :
  selects direct route unvisited chosen route' ->
  route' = route ++ map Some chosen.
Proof.
  induction 1 as [route | route first rest cur safeRoute chosen route' Hlast closest Hres Hsel IH].
  - now rewrite app_nil_r.
  - unfold direct in Hres. injection Hres as <-.
    rewrite IH. cbn [Js.slice1 tl map]. now rewrite <- app_assoc.
Qed.

(** X8: the plain variant, on a non-empty input, returns the first waypoint,
    then the other waypoints, each once, in the order they were chosen,
    and then, when there are other waypoints, the first one again: a closed
    tour of [|W| + 1] entries. *)
Theorem plain_optimizeRoute_closed_tour (origin : Waypoint) (rest : list Waypoint)
  (fuel : nat) :
  (List.length rest < fuel)%nat ->
  exists chosen : list Waypoint,
    Permutation chosen rest /\
    Plain.optimizeRoute fuel (origin :: rest)
    = Returns (map Some (origin :: chosen ++ match rest with [] => [] | _ => [origin] end)).
Proof.
  intros Hfuel.
  destruct (optimizeRoute_runs direct (origin :: rest)
              (fun a b _ _ => direct_returns a b) origin rest eq_refl)
    as (chosen & routeLoop & route & Hsel & Hperm & _ & Hclose & _ & Hsingle & Hrun).
  apply selects_direct_route in Hsel.
  exists chosen. split; [exact Hperm |].
  apply plain_optimizeRoute_tour. rewrite (Hrun fuel Hfuel). f_equal.
  destruct rest as [| second rest'].
  - rewrite (Hsingle eq_refl).
    apply Permutation_sym, Permutation_nil in Hperm. now subst chosen.
  - destruct (Hclose ltac:(discriminate)) as (last & safeRoute & _ & Hres & ->).
    unfold direct in Hres. injection Hres as <-.
    rewrite Hsel. cbn [Js.slice1 tl map app]. rewrite map_app. reflexivity.
Qed.

Lemma plain_optimizeRoute_closed_tour_witness :
  exists chosen : list Waypoint,
    Permutation chosen [Waypoint.new 10 0; Waypoint.new 5 5; Waypoint.new 0 10] /\
    Plain.optimizeRoute 4
      [Waypoint.new 0 0; Waypoint.new 10 0; Waypoint.new 5 5; Waypoint.new 0 10]
    = Returns (map Some (Waypoint.new 0 0 :: chosen ++ [Waypoint.new 0 0])).
Proof.
  apply (plain_optimizeRoute_closed_tour (Waypoint.new 0 0)
           [Waypoint.new 10 0; Waypoint.new 5 5; Waypoint.new 0 10] 4).
  cbn. lia.
Defined.

Lemma lastEntry_In {A : Type} (l : list A) (a : A) : Js.lastEntry l = Some a -> In a l.
Proof. unfold Js.lastEntry. apply nth_error_In. Qed.

Section StraightLegs.

Variable resolve : Waypoint -> Waypoint -> outcome (list Waypoint).
Variable W : list Waypoint.

(** The resolver leaves as it is every leg between two waypoints of [W]. *)
Hypothesis resolve_straight :
  forall a b : Waypoint, In a W -> In b W -> resolve a b = Returns [a; b].

(** On routes whose entries are waypoints of [W], the loop runs as the plain
    one does, and keeps the entries of the route among the waypoints. *)
Lemma while_straight :
  forall (fuel : nat) (route : list (option Waypoint)) (unvisited : list Waypoint),
    (forall e, In e route -> exists w, e = Some w /\ In w W) ->
    incl unvisited W ->
    Tour.optimizeRoute_while resolve fuel route unvisited
    = Tour.optimizeRoute_while direct fuel route unvisited /\
    forall r, Tour.optimizeRoute_while direct fuel route unvisited = Returns r ->
      forall e, In e r -> exists w, e = Some w /\ In w W.
Proof.
  induction fuel as [| fuel IH]; intros route unvisited Hroute Hincl;
    [split; [reflexivity | discriminate] |].
  cbn [Tour.optimizeRoute_while].
  destruct unvisited as [| first rest].
  { split; [reflexivity |]. now intros r [= <-]. }
  destruct (Js.lastEntry route) as [[cur |] |] eqn:Hlast;
    try (split; [reflexivity | discriminate]).
  cbv zeta.
  destruct (iteration_choice cur first rest) as (l1 & l2 & Hl & _ & _ & _ & Hsplice).
  cbv zeta in Hl, Hsplice.
  assert (Hcur : In cur W).
  { destruct (Hroute _ (lastEntry_In _ _ Hlast)) as (w & [= <-] & Hw). exact Hw. }
  assert (Hm : In (Tour.reduce cur (first :: rest) first) W).
  { apply Hincl. rewrite Hl at 2. apply in_or_app. right. now left. }
  rewrite (resolve_straight cur _ Hcur Hm). unfold direct at 2 3.
  cbn [bind Js.slice1 tl map]. rewrite Hsplice.
  apply IH.
  - intros e He. apply in_app_or in He. destruct He as [He | [<- | []]].
    + now apply Hroute.
    + eexists. split; [reflexivity | exact Hm].
  - intros w Hw. apply Hincl. rewrite Hl.
    apply in_app_or in Hw. apply in_or_app. destruct Hw; [now left | right; now right].
Qed.

Lemma optimizeRoute_straight (fuel : nat) :
  Tour.optimizeRoute resolve fuel W = Plain.optimizeRoute fuel W.
Proof.
  unfold Tour.optimizeRoute, Plain.optimizeRoute. cbv zeta.
  change (Plain.optimizeRoute_while fuel [nth_error W 0] (Js.slice1 W))
    with (Tour.optimizeRoute_while direct fuel [nth_error W 0] (Js.slice1 W)).
  assert (HW : W = [] \/ exists origin rest, W = origin :: rest).
  { destruct W as [| origin rest]; [now left | right; now exists origin, rest]. }
  destruct HW as [HW | (origin & rest & HW)].
  - rewrite HW. destruct fuel; reflexivity.
  - destruct (while_straight fuel [nth_error W 0] (Js.slice1 W)) as [Hsame Hwithin].
    { rewrite HW. intros e [<- | []]. exists origin. split; [reflexivity | now left]. }
    { rewrite HW. intros w Hw. now right. }
    rewrite Hsame.
    destruct (Tour.optimizeRoute_while direct fuel _ _) as [r | msg |];
      cbn [bind]; try reflexivity.
    specialize (Hwithin r eq_refl). unfold Tour.returnToStart.
    destruct (1 <? List.length r)%nat eqn:Hlong; [| reflexivity].
    apply Nat.ltb_lt in Hlong.
    destruct (Js.lastEntry r) as [e |] eqn:Hlast.
    2:{ exfalso. unfold Js.lastEntry in Hlast. apply nth_error_None in Hlast. lia. }
    destruct (Hwithin _ (lastEntry_In _ _ Hlast)) as (last & -> & Hlast_in).
    destruct (nth_error r 0) as [e |] eqn:Hfirst.
    2:{ exfalso. apply nth_error_None in Hfirst. lia. }
    destruct (Hwithin _ (nth_error_In _ _ Hfirst)) as (first & -> & Hfirst_in).
    rewrite (resolve_straight last first Hlast_in Hfirst_in). reflexivity.
Qed.

End StraightLegs.

(** X9: when no obstacle intersects the segment between any two of the input
    waypoints, model2.js returns the route of the plain variant: no detour
    point is inserted. *)
Theorem model2_clear_legs_plain_route (this : Model2.RouteOptimizer) (fuel : nat) :
  (forall (a b : Waypoint) (o : Model2.Obstacle),
     In a (Model2.waypoints this) -> In b (Model2.waypoints this) ->
     In o (Model2.obstacles this) ->
     Model2.intersectsWithLineSegment o (Model2.segmentOf a b) = false) ->
  Model2.optimizeRoute fuel this = Plain.optimizeRoute fuel (Model2.waypoints this).
Proof.
  intros Hclear. unfold Model2.optimizeRoute. apply optimizeRoute_straight.
  intros a b Ha Hb. apply model2_findSafeRoute_straight.
  apply Forall_forall. intros o Ho. now apply Hclear.
Qed.

Lemma model2_clear_legs_plain_route_witness :
  let this := Model2.newRouteOptimizer [Waypoint.new 0 0; Waypoint.new 10 0]
                                       [Model2.newObstacle 5 50 1] in
  Model2.optimizeRoute 3 this = Plain.optimizeRoute 3 (Model2.waypoints this).
Proof.
  apply (model2_clear_legs_plain_route
           (Model2.newRouteOptimizer [Waypoint.new 0 0; Waypoint.new 10 0]
                                     [Model2.newObstacle 5 50 1]) 3).
  cbn [Model2.waypoints Model2.obstacles].
  intros a b o Ha Hb [<- | []].
  apply model2_misses; cbn [Model2.radius Model2.x Model2.y]; [lra |].
  intros t Ht.
  destruct Ha as [<- | [<- | []]]; destruct Hb as [<- | [<- | []]];
    cbn [Waypoint.x Waypoint.y]; nra.
Defined.

(** X10: when the step is at least the distance between any two of the
    input waypoints, model1.js returns the route of the plain variant: no
    leg is subdivided. *)
Theorem model1_long_step_plain_route (this : Model1.RouteOptimizer) (fuel : nat) :
  (forall a b : Waypoint,
     In a (Model1.waypoints this) -> In b (Model1.waypoints this) ->
     Waypoint.distanceTo a b <= Model1.safeDistance this) ->
  Model1.optimizeRoute fuel this = Plain.optimizeRoute fuel (Model1.waypoints this).
Proof.
  intros Hnear. unfold Model1.optimizeRoute. destruct fuel as [| fuel]; [reflexivity |].
  apply optimizeRoute_straight. intros a b Ha Hb.
  unfold Model1.findSafeRoute. cbn [Model1.start Model1.end_].
  rewrite findSafeRoute_while_arrived; [reflexivity | now apply Hnear].
Qed.

Lemma model1_long_step_plain_route_witness :
  let this := Model1.newRouteOptimizer [Waypoint.new 0 0; Waypoint.new 10 0] [] 20 in
  Model1.optimizeRoute 3 this = Plain.optimizeRoute 3 (Model1.waypoints this).
Proof.
  apply (model1_long_step_plain_route
           (Model1.newRouteOptimizer [Waypoint.new 0 0; Waypoint.new 10 0] [] 20) 3).
  cbn [Model1.waypoints Model1.safeDistance].
  intros a b Ha Hb. apply Rle_trans with 10; [| lra].
  rewrite <- (sqrt_pow2 10) by lra. unfold Waypoint.distanceTo. apply sqrt_le_1_alt.
  destruct Ha as [<- | [<- | []]]; destruct Hb as [<- | [<- | []]];
    cbn [Waypoint.x Waypoint.y]; lra.
Defined.



(** ** [findAlternativeSafePath] on its own *)

(** X14: [findAlternativeSafePath] called on its own throws
    ["No obstacle found"] exactly when the test of no obstacle is true of
    the leg.  If not, it returns a path of four points, from [from] to [to],
    around an obstacle of the list whose test is true, and whose radius is
    then not negative. *)
Theorem findAlternativeSafePath_throws_iff_no_obstacle
  (this : Model2.RouteOptimizer) (from to : Waypoint) :
  let hits := fun o : Model2.Obstacle =>
    Model2.intersectsWithLineSegment o (Model2.segmentOf from to) in
  (Model2.findAlternativeSafePath this from to = Throws "No obstacle found" <->
   forall o, In o (Model2.obstacles this) -> hits o = false) /\
  (Model2.findAlternativeSafePath this from to = Throws "No obstacle found" \/
   exists (o : Model2.Obstacle) (p1 p2 : Waypoint),
     In o (Model2.obstacles this) /\ hits o = true /\ 0 <= Model2.radius o /\
     Model2.findAlternativeSafePath this from to = Returns [from; p1; p2; to]).
Proof.
  cbv zeta. unfold Model2.findAlternativeSafePath. cbv zeta.
  destruct (find _ (Model2.obstacles this)) as [o |] eqn:Hfind.
  - apply find_some in Hfind. destruct Hfind as [Hin Hhit]. split.
    + split; [discriminate |]. intros Hnone. rewrite (Hnone o Hin) in Hhit. discriminate.
    + right. eexists o, _, _. repeat split; try eassumption.
      unfold Model2.intersectsWithLineSegment in Hhit. cbv zeta in Hhit.
      apply leb_true_iff in Hhit.
      eapply Rle_trans; [apply model2_distance_nonneg | exact Hhit].
  - split; [| now left]. split; [| reflexivity].
    intros _ o Hin. exact (find_none _ _ Hfind o Hin).
Qed.

(** ** The character grids *)

Lemma assign_length {A : Type} (arr : list A) (i : nat) (v : A) :
  List.length (View.assign arr i v) = List.length arr.
Proof.
  revert i. induction arr as [| a arr IH]; intros [| i]; cbn; try reflexivity.
  now rewrite IH.
Qed.

Lemma nth_error_assign_eq {A : Type} (arr : list A) (i : nat) (v : A) :
  (i < List.length arr)%nat -> nth_error (View.assign arr i v) i = Some v.
Proof.
  revert i. induction arr as [| a arr IH]; intros [| i] Hi; cbn in *; try lia.
  - reflexivity.
  - apply IH. lia.
Qed.

Lemma nth_error_assign_ne {A : Type} (arr : list A) (i k : nat) (v : A) :
  i <> k -> nth_error (View.assign arr i v) k = nth_error arr k.
Proof.
  revert i k. induction arr as [| a arr IH]; intros [| i] [| k] Hne; cbn;
    try reflexivity; try congruence.
  apply IH. congruence.
Qed.

Lemma Forall_assign {A : Type} (P : A -> Prop) (arr : list A) (i : nat) (v : A) :
  Forall P arr -> P v -> Forall P (View.assign arr i v).
Proof.
  intros Harr Hv. revert i.
  induction Harr as [| a arr Ha Harr IH]; intros [| i]; cbn; constructor; auto.
Qed.

Lemma wellFormed_row (grid : View.Grid) (n : nat) (row : list string) :
  View.wellFormed grid -> nth_error grid n = Some row ->
  List.length row = Z.to_nat View.gridSize.
Proof.
  intros [_ Hrows] Hn. apply nth_error_In in Hn.
  rewrite Forall_forall in Hrows. now apply Hrows.
Qed.

Lemma put_wellFormed (grid : View.Grid) (y x : Z) (c : string) :
  View.wellFormed grid -> View.wellFormed (View.put grid y x c).
Proof.
  intros Hwf. unfold View.put.
  destruct (nth_error grid (Z.to_nat y)) as [row |] eqn:Hrow; [| exact Hwf].
  pose proof (wellFormed_row grid _ row Hwf Hrow) as Hlen.
  destruct Hwf as [Hsize Hrows]. split.
  - now rewrite assign_length.
  - apply Forall_assign; [exact Hrows |]. now rewrite assign_length.
Qed.

(** An assignment within the grid changes the cell assigned, and no other. *)
Lemma cell_put (grid : View.Grid) (y x y' x' : Z) (c : string) :
  View.wellFormed grid ->
  (0 <= y < View.gridSize)%Z -> (0 <= x < View.gridSize)%Z ->
  (0 <= y' < View.gridSize)%Z -> (0 <= x' < View.gridSize)%Z ->
  (y' = y /\ x' = x /\ View.cell (View.put grid y x c) y' x' = Some c) \/
  (~ (y' = y /\ x' = x) /\
   View.cell (View.put grid y x c) y' x' = View.cell grid y' x').
Proof.
  intros Hwf Hy Hx Hy' Hx'. unfold View.cell, View.put.
  replace ((0 <=? y')%Z && (0 <=? x')%Z) with true
    by (symmetry; apply andb_true_iff; split; apply Z.leb_le; lia).
  destruct (nth_error grid (Z.to_nat y)) as [row |] eqn:Hrow.
  2:{ exfalso. apply nth_error_None in Hrow. destruct Hwf as [Hsize _].
      rewrite Hsize in Hrow. lia. }
  pose proof (wellFormed_row grid _ row Hwf Hrow) as Hlen.
  destruct (Z.eq_dec y' y) as [-> | Hney].
  - rewrite nth_error_assign_eq
      by (destruct Hwf as [Hsize _]; rewrite Hsize; lia).
    destruct (Z.eq_dec x' x) as [-> | Hnex].
    + left. repeat split. apply nth_error_assign_eq. rewrite Hlen. lia.
    + right. split; [intros [_ H]; contradiction |].
      rewrite Hrow. apply nth_error_assign_ne. lia.
  - right. split; [intros [H _]; contradiction |].
    rewrite nth_error_assign_ne by lia. reflexivity.
Qed.

Lemma inGrid_true (x y : Z) :
  View.inGrid x y = true <-> (0 <= x < View.gridSize)%Z /\ (0 <= y < View.gridSize)%Z.
Proof.
  unfold View.inGrid. rewrite !andb_true_iff, !Z.leb_le, !Z.ltb_lt. tauto.
Qed.

Lemma blank_wellFormed : View.wellFormed View.blank.
Proof.
  split; [apply repeat_length |].
  apply Forall_forall. intros row Hrow. apply repeat_spec in Hrow. subst row.
  apply repeat_length.
Qed.

Lemma blank_cell (y x : Z) :
  (0 <= y < View.gridSize)%Z -> (0 <= x < View.gridSize)%Z ->
  View.cell View.blank y x = Some " "%string.
Proof.
  intros Hy Hx. unfold View.cell, View.blank.
  replace ((0 <=? y)%Z && (0 <=? x)%Z) with true
    by (symmetry; apply andb_true_iff; split; apply Z.leb_le; lia).
  rewrite nth_error_repeat by lia. apply nth_error_repeat. lia.
Qed.

Lemma in_range (lo hi k : Z) : In k (View.range lo hi) <-> (lo <= k <= hi)%Z.
Proof.
  unfold View.range. rewrite in_map_iff. split.
  - intros (n & <- & Hn). apply in_seq in Hn. lia.
  - intros Hk. exists (Z.to_nat (k - lo)). split; [lia |]. apply in_seq. lia.
Qed.

(** A loop whose body writes [c] in the cells its entry hits, and leaves the
    others as they are, writes [c] in the cells one of its entries hits. *)
Section Painter.

Context {A : Type}.
Variable c : string.
Variable hit : A -> Z -> Z -> Prop.
Variable body : View.Grid -> A -> View.Grid.

Hypothesis body_paints :
  forall (grid : View.Grid) (a : A),
    View.wellFormed grid ->
    View.wellFormed (body grid a) /\
    forall y x : Z,
      (0 <= y < View.gridSize)%Z -> (0 <= x < View.gridSize)%Z ->
      (hit a y x /\ View.cell (body grid a) y x = Some c) \/
      (~ hit a y x /\ View.cell (body grid a) y x = View.cell grid y x).

Lemma loop_paints (l : list A) :
  forall grid : View.Grid,
    View.wellFormed grid ->
    View.wellFormed (fold_left body l grid) /\
    forall y x : Z,
      (0 <= y < View.gridSize)%Z -> (0 <= x < View.gridSize)%Z ->
      ((exists a, In a l /\ hit a y x) /\
       View.cell (fold_left body l grid) y x = Some c) \/
      (~ (exists a, In a l /\ hit a y x) /\
       View.cell (fold_left body l grid) y x = View.cell grid y x).
Proof.
  induction l as [| a l IH]; intros grid Hwf; cbn [fold_left].
  - split; [exact Hwf |]. intros y x _ _. right.
    split; [intros (a & [] & _) | reflexivity].
  - destruct (body_paints grid a Hwf) as [Hwf' Hbody].
    destruct (IH (body grid a) Hwf') as [Hwf'' Hloop].
    split; [exact Hwf'' |]. intros y x Hy Hx.
    destruct (Hloop y x Hy Hx) as [[(a' & Hin & Hhit) Hcell] | [Hnone Hcell]].
    + left. split; [| exact Hcell]. exists a'. split; [now right | exact Hhit].
    + destruct (Hbody y x Hy Hx) as [[Hhit Hc] | [Hmiss Hc]].
      * left. split; [| now rewrite Hcell]. exists a. split; [now left | exact Hhit].
      * right. split; [| now rewrite Hcell].
        intros (a' & [<- | Hin] & Hhit); [contradiction |].
        apply Hnone. now exists a'.
Qed.

End Painter.

(** The test of the source on a cell of the disk, on integers. *)
Lemma disk_test (i j radius : Z) :
  Js.leb (sqrt (IZR i ^ 2 + IZR j ^ 2)) (IZR radius) = true <->
  (0 <= radius /\ i * i + j * j <= radius * radius)%Z.
Proof.
  rewrite leb_true_iff.
  assert (Hsum : IZR i ^ 2 + IZR j ^ 2 = IZR (i * i + j * j))
    by (rewrite plus_IZR, !mult_IZR; ring).
  assert (Hnonneg : 0 <= IZR i ^ 2 + IZR j ^ 2)
    by (pose proof (pow2_ge_0 (IZR i)); pose proof (pow2_ge_0 (IZR j)); lra).
  split.
  - intros Hle.
    assert (Hr : 0 <= IZR radius)
      by (eapply Rle_trans; [apply sqrt_pos | exact Hle]).
    split; [now apply le_IZR |].
    apply le_IZR. rewrite <- Hsum, mult_IZR.
    rewrite <- (sqrt_sqrt (IZR i ^ 2 + IZR j ^ 2)) by exact Hnonneg.
    apply Rmult_le_compat; try apply sqrt_pos; exact Hle.
  - intros [Hr Hle]. apply IZR_le in Hr, Hle.
    rewrite <- Hsum, mult_IZR in Hle.
    rewrite <- (sqrt_square (IZR radius)) by exact Hr.
    now apply sqrt_le_1_alt.
Qed.

Lemma disk_in_square (i j radius : Z) :
  (0 <= radius)%Z -> (i * i + j * j <= radius * radius)%Z ->
  (- radius <= i <= radius)%Z /\ (- radius <= j <= radius)%Z.
Proof.
  intros Hr Hd.
  assert (0 <= i * i)%Z by nia. assert (0 <= j * j)%Z by nia.
  repeat split.
  - destruct (Z.le_gt_cases (- radius) i); [assumption | nia].
  - destruct (Z.le_gt_cases i radius); [assumption | nia].
  - destruct (Z.le_gt_cases (- radius) j); [assumption | nia].
  - destruct (Z.le_gt_cases j radius); [assumption | nia].
Qed.

(** The loops on [i] and [j] write ["O"] in the cells of the disk. *)
Lemma drawObstacle_paints (grid : View.Grid) (obstacle : Model1.Obstacle) :
  View.wellFormed grid ->
  View.wellFormed (View.drawObstacle grid obstacle) /\
  forall y x : Z,
    (0 <= y < View.gridSize)%Z -> (0 <= x < View.gridSize)%Z ->
    (View.covers obstacle y x /\
     View.cell (View.drawObstacle grid obstacle) y x = Some "O"%string) \/
    (~ View.covers obstacle y x /\
     View.cell (View.drawObstacle grid obstacle) y x = View.cell grid y x).
Proof.
  intros Hwf. unfold View.drawObstacle. cbv zeta.
  set (X := View.floor (Model1.x obstacle)).
  set (Y := View.floor (Model1.y obstacle)).
  set (radius := View.floor (Model1.radius obstacle)).
  pose (hitJ := fun (i j y x : Z) =>
    (x = X + i /\ y = Y + j /\ 0 <= radius /\ i * i + j * j <= radius * radius)%Z).
  pose (hitI := fun (i y x : Z) =>
    exists j, In j (View.range (- radius) radius) /\ hitJ i j y x).
  assert (Hinner : forall (i : Z) (g : View.Grid) (j : Z),
    View.wellFormed g ->
    View.wellFormed
      (if View.inGrid (X + i) (Y + j) &&
          Js.leb (sqrt (IZR i ^ 2 + IZR j ^ 2)) (IZR radius)
       then View.put g (Y + j) (X + i) "O" else g) /\
    forall y x : Z,
      (0 <= y < View.gridSize)%Z -> (0 <= x < View.gridSize)%Z ->
      (hitJ i j y x /\
       View.cell (if View.inGrid (X + i) (Y + j) &&
                     Js.leb (sqrt (IZR i ^ 2 + IZR j ^ 2)) (IZR radius)
                  then View.put g (Y + j) (X + i) "O" else g) y x = Some "O"%string) \/
      (~ hitJ i j y x /\
       View.cell (if View.inGrid (X + i) (Y + j) &&
                     Js.leb (sqrt (IZR i ^ 2 + IZR j ^ 2)) (IZR radius)
                  then View.put g (Y + j) (X + i) "O" else g) y x = View.cell g y x)).
  { intros i g j Hg.
    destruct (View.inGrid (X + i) (Y + j)) eqn:Hin; cbn [andb].
    - apply inGrid_true in Hin. destruct Hin as [HinX HinY].
      destruct (Js.leb _ _) eqn:Htest.
      + apply disk_test in Htest.
        split; [now apply put_wellFormed |]. intros y x Hy Hx.
        destruct (cell_put g (Y + j) (X + i) y x "O" Hg HinY HinX Hy Hx)
          as [(Hey & Hex & Hc) | [Hne Hc]].
        * left. split; [| exact Hc]. unfold hitJ. tauto.
        * right. split; [| exact Hc]. unfold hitJ. tauto.
      + split; [exact Hg |]. intros y x _ _. right. split; [| reflexivity].
        unfold hitJ. intros (_ & _ & Hd).
        apply disk_test in Hd. congruence.
    - split; [exact Hg |]. intros y x Hy Hx. right. split; [| reflexivity].
      unfold hitJ. intros (-> & -> & _).
      assert (View.inGrid (X + i) (Y + j) = true) by (apply inGrid_true; tauto).
      congruence. }
  assert (Houter : forall (g : View.Grid) (i : Z),
    View.wellFormed g ->
    View.wellFormed
      (fold_left
         (fun g j =>
            if View.inGrid (X + i) (Y + j) &&
               Js.leb (sqrt (IZR i ^ 2 + IZR j ^ 2)) (IZR radius)
            then View.put g (Y + j) (X + i) "O" else g)
         (View.range (- radius) radius) g) /\
    forall y x : Z,
      (0 <= y < View.gridSize)%Z -> (0 <= x < View.gridSize)%Z ->
      (hitI i y x /\
       View.cell
         (fold_left
            (fun g j =>
               if View.inGrid (X + i) (Y + j) &&
                  Js.leb (sqrt (IZR i ^ 2 + IZR j ^ 2)) (IZR radius)
               then View.put g (Y + j) (X + i) "O" else g)
            (View.range (- radius) radius) g) y x = Some "O"%string) \/
      (~ hitI i y x /\
       View.cell
         (fold_left
            (fun g j =>
               if View.inGrid (X + i) (Y + j) &&
                  Js.leb (sqrt (IZR i ^ 2 + IZR j ^ 2)) (IZR radius)
               then View.put g (Y + j) (X + i) "O" else g)
            (View.range (- radius) radius) g) y x = View.cell g y x)).
  { intros g i Hg.
    exact (loop_paints "O" (hitJ i) _ (Hinner i) (View.range (- radius) radius) g Hg). }
  destruct (loop_paints "O" hitI _ Houter (View.range (- radius) radius) grid Hwf)
    as [Hwf' Hcells].
  split; [exact Hwf' |]. intros y x Hy Hx.
  assert (Hiff : (exists i, In i (View.range (- radius) radius) /\ hitI i y x) <->
                 View.covers obstacle y x).
  { unfold View.covers, hitI, hitJ. cbv zeta. fold X Y radius. split.
    - intros (i & _ & j & _ & -> & -> & Hr & Hd). split; [exact Hr |].
      replace (X + i - X)%Z with i by lia. replace (Y + j - Y)%Z with j by lia.
      exact Hd.
    - intros [Hr Hd].
      destruct (disk_in_square _ _ _ Hr Hd) as [Hi Hj].
      exists (x - X)%Z. split; [now apply in_range |].
      exists (y - Y)%Z. split; [now apply in_range |].
      repeat split; try lia; assumption. }
  destruct (Hcells y x Hy Hx) as [[Hhit Hc] | [Hmiss Hc]].
  - left. split; [now apply Hiff | exact Hc].
  - right. split; [| exact Hc]. intros Hcov. apply Hmiss. now apply Hiff.
Qed.

Lemma drawObstacles_paints (this : Model1.RouteOptimizer) (grid : View.Grid) :
  View.wellFormed grid ->
  View.wellFormed (View.drawObstacles this grid) /\
  forall y x : Z,
    (0 <= y < View.gridSize)%Z -> (0 <= x < View.gridSize)%Z ->
    ((exists o, In o (Model1.obstacles this) /\ View.covers o y x) /\
     View.cell (View.drawObstacles this grid) y x = Some "O"%string) \/
    (~ (exists o, In o (Model1.obstacles this) /\ View.covers o y x) /\
     View.cell (View.drawObstacles this grid) y x = View.cell grid y x).
Proof.
  intros Hwf. unfold View.drawObstacles.
  exact (loop_paints "O" (fun o y x => View.covers o y x) View.drawObstacle
           drawObstacle_paints (Model1.obstacles this) grid Hwf).
Qed.

Lemma markWaypoint_paints (grid : View.Grid) (waypoint : Waypoint) :
  View.wellFormed grid ->
  View.wellFormed (View.markWaypoint grid waypoint) /\
  forall y x : Z,
    (0 <= y < View.gridSize)%Z -> (0 <= x < View.gridSize)%Z ->
    ((View.floor (Waypoint.x waypoint) = x /\ View.floor (Waypoint.y waypoint) = y) /\
     View.cell (View.markWaypoint grid waypoint) y x = Some "W"%string) \/
    (~ (View.floor (Waypoint.x waypoint) = x /\ View.floor (Waypoint.y waypoint) = y) /\
     View.cell (View.markWaypoint grid waypoint) y x = View.cell grid y x).
Proof.
  intros Hwf. unfold View.markWaypoint. cbv zeta.
  destruct (View.inGrid _ _) eqn:Hin.
  - apply inGrid_true in Hin. destruct Hin as [HinX HinY].
    split; [now apply put_wellFormed |]. intros y x Hy Hx.
    destruct (cell_put grid _ _ y x "W" Hwf HinY HinX Hy Hx)
      as [(Hey & Hex & Hc) | [Hne Hc]].
    + left. split; [| exact Hc]. now split.
    + right. split; [| exact Hc]. intros [Hex Hey]. apply Hne. now split.
  - split; [exact Hwf |]. intros y x Hy Hx. right. split; [| reflexivity].
    intros [Hex Hey]. rewrite Hex, Hey in Hin.
    assert (View.inGrid x y = true) by (apply inGrid_true; tauto). congruence.
Qed.

(** X15: the grid [printTopDownView] prints, cell by cell.  A cell of the
    grid shows ["O"] when it is in the disk of cells of an obstacle (the
    cells at most [floor radius] from the cell of its centre; none for a
    radius below [0]); if not, ["W"] when a waypoint of the route falls in
    it; if not, a blank.  Obstacles are drawn over waypoints, and what falls
    outside the grid is dropped. *)
Theorem printTopDownView_cell (this : Model1.RouteOptimizer) (route : list Waypoint)
  (y x : Z) :
  (0 <= y < View.gridSize)%Z -> (0 <= x < View.gridSize)%Z ->
  let covered := exists o, In o (Model1.obstacles this) /\ View.covers o y x in
  let visited :=
    exists w, In w route /\
      View.floor (Waypoint.x w) = x /\ View.floor (Waypoint.y w) = y in
  let shown := View.cell (View.printTopDownView this route) y x in
  (covered /\ shown = Some "O"%string) \/
  (~ covered /\ visited /\ shown = Some "W"%string) \/
  (~ covered /\ ~ visited /\ shown = Some " "%string).
Proof.
  intros Hy Hx. cbv zeta. unfold View.printTopDownView. cbv zeta.
  destruct (loop_paints "W"
              (fun w y x => View.floor (Waypoint.x w) = x /\ View.floor (Waypoint.y w) = y)
              View.markWaypoint markWaypoint_paints route View.blank blank_wellFormed)
    as [Hwf Hmarks].
  destruct (drawObstacles_paints this _ Hwf) as [_ Hdraws].
  destruct (Hdraws y x Hy Hx) as [[Hcov Hc] | [Hfree Hc]]; [now left | right].
  rewrite Hc.
  destruct (Hmarks y x Hy Hx) as [[Hvis Hw] | [Hnot Hw]]; [left | right].
  - repeat split; assumption.
  - repeat split; try assumption. rewrite Hw. now apply blank_cell.
Qed.

Lemma drawLeg_paints (grid : View.Grid) (p q : Waypoint) :
  View.wellFormed grid ->
  View.wellFormed (View.drawLeg grid p q) /\
  forall y x : Z,
    (0 <= y < View.gridSize)%Z -> (0 <= x < View.gridSize)%Z ->
    (View.onLeg p q y x /\ View.cell (View.drawLeg grid p q) y x = Some "*"%string) \/
    (~ View.onLeg p q y x /\ View.cell (View.drawLeg grid p q) y x = View.cell grid y x).
Proof.
  intros Hwf. unfold View.drawLeg, View.onLeg. cbv zeta.
  set (x1 := View.floor (Waypoint.x p)). set (y1 := View.floor (Waypoint.y p)).
  set (dx := (View.floor (Waypoint.x q) - x1)%Z).
  set (dy := (View.floor (Waypoint.y q) - y1)%Z).
  set (steps := Z.max (Z.abs dx) (Z.abs dy)).
  pose (hit := fun (j y x : Z) =>
    (steps <> 0 /\ x = x1 + j * dx / steps /\ y = y1 + j * dy / steps)%Z).
  set (body := fun (grid : View.Grid) (j : Z) =>
    match View.floorDiv (j * dx) steps, View.floorDiv (j * dy) steps with
    | Some qx, Some qy =>
      if View.inGrid (x1 + qx) (y1 + qy) then View.put grid (y1 + qy) (x1 + qx) "*"
      else grid
    | _, _ => grid
    end).
  assert (Hbody : forall (g : View.Grid) (j : Z),
    View.wellFormed g ->
    View.wellFormed (body g j) /\
    forall y x : Z,
      (0 <= y < View.gridSize)%Z -> (0 <= x < View.gridSize)%Z ->
      (hit j y x /\ View.cell (body g j) y x = Some "*"%string) \/
      (~ hit j y x /\ View.cell (body g j) y x = View.cell g y x)).
  { intros g j Hg. unfold body, View.floorDiv.
    destruct (steps =? 0)%Z eqn:Hsteps.
    - apply Z.eqb_eq in Hsteps. split; [exact Hg |]. intros y x _ _. right.
      split; [| reflexivity]. unfold hit. tauto.
    - apply Z.eqb_neq in Hsteps.
      destruct (View.inGrid _ _) eqn:Hin.
      + apply inGrid_true in Hin. destruct Hin as [HinX HinY].
        split; [now apply put_wellFormed |]. intros y x Hy Hx.
        destruct (cell_put g _ _ y x "*" Hg HinY HinX Hy Hx)
          as [(Hey & Hex & Hc) | [Hne Hc]].
        * left. split; [| exact Hc]. unfold hit. tauto.
        * right. split; [| exact Hc]. unfold hit. tauto.
      + split; [exact Hg |]. intros y x Hy Hx. right. split; [| reflexivity].
        unfold hit. intros (_ & -> & ->).
        assert (View.inGrid (x1 + j * dx / steps) (y1 + j * dy / steps) = true)
          by (apply inGrid_true; tauto).
        congruence. }
  destruct (loop_paints "*" hit body Hbody (View.range 0 steps) grid Hwf)
    as [Hwf' Hcells].
  split; [exact Hwf' |]. intros y x Hy Hx.
  assert (Hiff : (exists j, In j (View.range 0 steps) /\ hit j y x) <->
                 (steps <> 0%Z /\
                  exists j : Z,
                    (0 <= j <= steps /\ x = x1 + j * dx / steps /\
                     y = y1 + j * dy / steps)%Z)).
  { unfold hit. split.
    - intros (j & Hj & Hne & Hex & Hey). apply in_range in Hj.
      split; [exact Hne |]. now exists j.
    - intros (Hne & j & Hj & Hex & Hey). exists j.
      split; [now apply in_range | tauto]. }
  destruct (Hcells y x Hy Hx) as [[Hhit Hc] | [Hmiss Hc]].
  - left. split; [now apply Hiff | exact Hc].
  - right. split; [| exact Hc]. intros Hon. apply Hmiss. now apply Hiff.
Qed.

Lemma printAsciiArt_for_paints (route : list Waypoint) :
  forall grid : View.Grid,
    View.wellFormed grid ->
    View.wellFormed (View.printAsciiArt_for route grid) /\
    forall y x : Z,
      (0 <= y < View.gridSize)%Z -> (0 <= x < View.gridSize)%Z ->
      ((exists (i : nat) (p q : Waypoint),
          nth_error route i = Some p /\ nth_error route (S i) = Some q /\
          View.onLeg p q y x) /\
       View.cell (View.printAsciiArt_for route grid) y x = Some "*"%string) \/
      (~ (exists (i : nat) (p q : Waypoint),
            nth_error route i = Some p /\ nth_error route (S i) = Some q /\
            View.onLeg p q y x) /\
       View.cell (View.printAsciiArt_for route grid) y x = View.cell grid y x).
Proof.
  induction route as [| a route IH]; intros grid Hwf.
  - split; [exact Hwf |]. intros y x _ _. right. split; [| reflexivity].
    intros ([| i] & p & q & Hp & _); discriminate.
  - destruct route as [| b route].
    + split; [exact Hwf |]. intros y x _ _. right. split; [| reflexivity].
      intros ([| [| i]] & p & q & _ & Hq & _); discriminate.
    + change (View.printAsciiArt_for (a :: b :: route) grid)
        with (View.printAsciiArt_for (b :: route) (View.drawLeg grid a b)).
      destruct (drawLeg_paints grid a b Hwf) as [Hwf' Hleg].
      destruct (IH _ Hwf') as [Hwf'' Hrest].
      split; [exact Hwf'' |]. intros y x Hy Hx.
      destruct (Hrest y x Hy Hx) as [[(i & p & q & Hp & Hq & Hon) Hc] | [Hnone Hc]].
      * left. split; [| exact Hc]. now exists (S i), p, q.
      * destruct (Hleg y x Hy Hx) as [[Hon Hs] | [Hoff Hs]].
        -- left. split; [| now rewrite Hc]. now exists 0%nat, a, b.
        -- right. split; [| now rewrite Hc].
           intros ([| i] & p & q & Hp & Hq & Hon).
           ++ cbn in Hp, Hq. injection Hp as <-. injection Hq as <-. contradiction.
           ++ apply Hnone. now exists i, p, q.
Qed.

(** X16: the grid [printAsciiArt] prints, cell by cell.  A cell of the
    grid shows ["O"] when it is in the disk of cells of an obstacle; if not,
    ["*"] when the loop on [j] reaches it on a leg of the route, that is
    between two consecutive entries that fall in different cells, at
    [(x1 + floor (j * dx / steps), y1 + floor (j * dy / steps))] for a [j]
    from [0] to [steps = max |dx| |dy|]; if not, a blank. *)
Theorem printAsciiArt_cell (this : Model1.RouteOptimizer) (route : list Waypoint)
  (y x : Z) :
  (0 <= y < View.gridSize)%Z -> (0 <= x < View.gridSize)%Z ->
  let covered := exists o, In o (Model1.obstacles this) /\ View.covers o y x in
  let drawn :=
    exists (i : nat) (p q : Waypoint),
      nth_error route i = Some p /\ nth_error route (S i) = Some q /\
      View.onLeg p q y x in
  let shown := View.cell (View.printAsciiArt this route) y x in
  (covered /\ shown = Some "O"%string) \/
  (~ covered /\ drawn /\ shown = Some "*"%string) \/
  (~ covered /\ ~ drawn /\ shown = Some " "%string).
Proof.
  intros Hy Hx. cbv zeta. unfold View.printAsciiArt.
  destruct (printAsciiArt_for_paints route View.blank blank_wellFormed) as [Hwf Hlegs].
  destruct (drawObstacles_paints this _ Hwf) as [_ Hdraws].
  destruct (Hdraws y x Hy Hx) as [[Hcov Hc] | [Hfree Hc]]; [now left | right].
  rewrite Hc.
  destruct (Hlegs y x Hy Hx) as [[Hon Hs] | [Hoff Hs]]; [left | right].
  - repeat split; assumption.
  - repeat split; try assumption. rewrite Hs. now apply blank_cell.
Qed.

Lemma floor_between (r : R) (z : Z) : IZR z <= r < IZR z + 1 -> View.floor r = z.
Proof.
  intros [Hlow Hup]. unfold View.floor, Int_part.
  rewrite <- (tech_up r (z + 1)); [lia | |]; rewrite plus_IZR; lra.
Qed.

Lemma floor_IZR (z : Z) : View.floor (IZR z) = z.
Proof. apply floor_between. lra. Qed.

Lemma printTopDownView_cell_witness :
  let this := Model1.newRouteOptimizer [] [Model1.newObstacle 3 3 2] 1 in
  let route := [Waypoint.new 0 0; Waypoint.new 10 0] in
  let covered := exists o, In o (Model1.obstacles this) /\ View.covers o 0 0 in
  let visited :=
    exists w, In w route /\
      View.floor (Waypoint.x w) = 0%Z /\ View.floor (Waypoint.y w) = 0%Z in
  let shown := View.cell (View.printTopDownView this route) 0 0 in
  (covered /\ shown = Some "O"%string) \/
  (~ covered /\ visited /\ shown = Some "W"%string) \/
  (~ covered /\ ~ visited /\ shown = Some " "%string).
Proof.
  apply (printTopDownView_cell
           (Model1.newRouteOptimizer [] [Model1.newObstacle 3 3 2] 1)
           [Waypoint.new 0 0; Waypoint.new 10 0] 0 0);
    unfold View.gridSize; lia.
Defined.

Lemma printAsciiArt_cell_witness :
  let this := Model1.newRouteOptimizer [] [Model1.newObstacle 3 3 2] 1 in
  let route := [Waypoint.new 0 0; Waypoint.new 10 0] in
  let covered := exists o, In o (Model1.obstacles this) /\ View.covers o 0 5 in
  let drawn :=
    exists (i : nat) (p q : Waypoint),
      nth_error route i = Some p /\ nth_error route (S i) = Some q /\
      View.onLeg p q 0 5 in
  let shown := View.cell (View.printAsciiArt this route) 0 5 in
  (covered /\ shown = Some "O"%string) \/
  (~ covered /\ drawn /\ shown = Some "*"%string) \/
  (~ covered /\ ~ drawn /\ shown = Some " "%string).
Proof.
  apply (printAsciiArt_cell
           (Model1.newRouteOptimizer [] [Model1.newObstacle 3 3 2] 1)
           [Waypoint.new 0 0; Waypoint.new 10 0] 0 5);
    unfold View.gridSize; lia.
Defined.

(** X17: [printAsciiArt] marks the two ends of a leg between two cells.  For
    two consecutive entries of the route that fall in different cells, the
    cell of each shows ["*"], if it is in the grid and no obstacle is drawn
    over it. *)
Theorem printAsciiArt_marks_leg_ends
  (this : Model1.RouteOptimizer) (route : list Waypoint) (i : nat) (p q w : Waypoint) :
  nth_error route i = Some p -> nth_error route (S i) = Some q ->
  View.floor (Waypoint.x p) <> View.floor (Waypoint.x q) \/
  View.floor (Waypoint.y p) <> View.floor (Waypoint.y q) ->
  w = p \/ w = q ->
  (0 <= View.floor (Waypoint.y w) < View.gridSize)%Z ->
  (0 <= View.floor (Waypoint.x w) < View.gridSize)%Z ->
  ~ (exists o, In o (Model1.obstacles this) /\
       View.covers o (View.floor (Waypoint.y w)) (View.floor (Waypoint.x w))) ->
  View.cell (View.printAsciiArt this route)
            (View.floor (Waypoint.y w)) (View.floor (Waypoint.x w))
  = Some "*"%string.
Proof.
  intros Hp Hq Hcells Hw Hy Hx Hfree. unfold View.printAsciiArt.
  destruct (printAsciiArt_for_paints route View.blank blank_wellFormed) as [Hwf Hlegs].
  destruct (drawObstacles_paints this _ Hwf) as [_ Hdraws].
  destruct (Hdraws _ _ Hy Hx) as [[Hcov _] | [_ Hc]]; [contradiction |].
  rewrite Hc.
  destruct (Hlegs _ _ Hy Hx) as [[_ Hs] | [Hoff _]]; [exact Hs | exfalso].
  apply Hoff. exists i, p, q. split; [exact Hp |]. split; [exact Hq |].
  unfold View.onLeg. cbv zeta.
  set (x1 := View.floor (Waypoint.x p)) in *. set (y1 := View.floor (Waypoint.y p)) in *.
  set (x2 := View.floor (Waypoint.x q)) in *. set (y2 := View.floor (Waypoint.y q)) in *.
  set (steps := Z.max (Z.abs (x2 - x1)) (Z.abs (y2 - y1))).
  assert (Hsteps : steps <> 0%Z) by (unfold steps; lia).
  split; [exact Hsteps |].
  destruct Hw as [-> | ->].
  - exists 0%Z. fold x1 y1. rewrite !Z.mul_0_l, !Z.div_0_l by exact Hsteps.
    split; [unfold steps; lia | lia].
  - exists steps. fold x2 y2.
    rewrite (Z.mul_comm steps (x2 - x1)), (Z.mul_comm steps (y2 - y1)).
    rewrite !Z.div_mul by exact Hsteps.
    split; [unfold steps; lia | lia].
Qed.

Lemma printAsciiArt_marks_leg_ends_witness :
  let this := Model1.newRouteOptimizer [] [] 1 in
  let p := Waypoint.new 0 0 in
  let q := Waypoint.new 10 0 in
  View.cell (View.printAsciiArt this [p; q])
            (View.floor (Waypoint.y q)) (View.floor (Waypoint.x q))
  = Some "*"%string.
Proof.
  apply (printAsciiArt_marks_leg_ends
           (Model1.newRouteOptimizer [] [] 1)
           [Waypoint.new 0 0; Waypoint.new 10 0] 0
           (Waypoint.new 0 0) (Waypoint.new 10 0) (Waypoint.new 10 0));
    cbn [Waypoint.x Waypoint.y Model1.obstacles]; rewrite ?floor_IZR;
    unfold View.gridSize.
  - reflexivity.
  - reflexivity.
  - left. lia.
  - now right.
  - lia.
  - lia.
  - intros (o & [] & _).
Defined.

Lemma drawLeg_within_a_cell (grid : View.Grid) (p q : Waypoint) :
  View.floor (Waypoint.x p) = View.floor (Waypoint.x q) ->
  View.floor (Waypoint.y p) = View.floor (Waypoint.y q) ->
  View.drawLeg grid p q = grid.
Proof.
  intros Hx Hy. unfold View.drawLeg. cbv zeta. rewrite Hx, Hy, !Z.sub_diag.
  reflexivity.
Qed.

(** X18: a leg within one cell leaves no mark.  When the two ends of a leg
    fall in the same cell, [steps] is [0], the quotients are NaN and no
    cell passes the test of the grid: for a route whose waypoints all fall
    in one cell, [printAsciiArt] prints the obstacles on a blank grid, as for
    an empty route. *)
Theorem printAsciiArt_route_within_a_cell
  (this : Model1.RouteOptimizer) (route : list Waypoint) (x0 y0 : Z) :
  (forall w, In w route ->
     View.floor (Waypoint.x w) = x0 /\ View.floor (Waypoint.y w) = y0) ->
  View.printAsciiArt this route = View.drawObstacles this View.blank /\
  forall y x : Z,
    (0 <= y < View.gridSize)%Z -> (0 <= x < View.gridSize)%Z ->
    View.cell (View.printAsciiArt this route) y x <> Some "*"%string.
Proof.
  intros Hcell.
  assert (Hlegs : forall grid, View.printAsciiArt_for route grid = grid).
  { induction route as [| a route IH]; intros grid; [reflexivity |].
    destruct route as [| b route]; [reflexivity |].
    change (View.printAsciiArt_for (a :: b :: route) grid)
      with (View.printAsciiArt_for (b :: route) (View.drawLeg grid a b)).
    destruct (Hcell a (or_introl eq_refl)) as [Hax Hay].
    destruct (Hcell b (or_intror (or_introl eq_refl))) as [Hbx Hby].
    rewrite drawLeg_within_a_cell by congruence.
    apply IH. intros w Hw. apply Hcell. now right. }
  assert (Hart : View.printAsciiArt this route = View.drawObstacles this View.blank)
    by (unfold View.printAsciiArt; now rewrite Hlegs).
  split; [exact Hart |]. intros y x Hy Hx. rewrite Hart.
  destruct (drawObstacles_paints this View.blank blank_wellFormed) as [_ Hdraws].
  destruct (Hdraws y x Hy Hx) as [[_ Hc] | [_ Hc]]; rewrite Hc.
  - discriminate.
  - rewrite blank_cell by assumption. discriminate.
Qed.

Lemma printAsciiArt_route_within_a_cell_witness :
  let this := Model1.newRouteOptimizer [] [Model1.newObstacle 3 3 2] 1 in
  let route := [Waypoint.new 1 1; Waypoint.new (3 / 2) (5 / 4)] in
  View.printAsciiArt this route = View.drawObstacles this View.blank /\
  forall y x : Z,
    (0 <= y < View.gridSize)%Z -> (0 <= x < View.gridSize)%Z ->
    View.cell (View.printAsciiArt this route) y x <> Some "*"%string.
Proof.
  apply (printAsciiArt_route_within_a_cell
           (Model1.newRouteOptimizer [] [Model1.newObstacle 3 3 2] 1)
           [Waypoint.new 1 1; Waypoint.new (3 / 2) (5 / 4)] 1 1).
  intros w [<- | [<- | []]]; cbn [Waypoint.x Waypoint.y];
    split; apply floor_between; lra.
Defined.

(** ** [drawLine] *)

Lemma writeAt_assign (row : list string) (n : nat) (c : string) :
  (n < List.length row)%nat -> View.writeAt row n c = View.assign row n c.
Proof.
  revert n. induction row as [| a row IH]; intros [| n] Hn; cbn in *; try lia.
  - reflexivity.
  - f_equal. apply IH. lia.
Qed.

(** Within the grid the assignment of [drawLine] is the guarded one. *)
Lemma store_inGrid (grid : View.Grid) (y x : Z) (c : string) :
  View.wellFormed grid ->
  (0 <= y < View.gridSize)%Z -> (0 <= x < View.gridSize)%Z ->
  View.store grid (Some y) (Some x) c = Returns (View.put grid y x c).
Proof.
  intros Hwf Hy Hx. unfold View.store, View.put.
  replace (y <? 0)%Z with false by (symmetry; apply Z.ltb_ge; lia).
  destruct (nth_error grid (Z.to_nat y)) as [row |] eqn:Hrow.
  - replace (x <? 0)%Z with false by (symmetry; apply Z.ltb_ge; lia).
    rewrite writeAt_assign; [reflexivity |].
    rewrite (wellFormed_row grid _ row Hwf Hrow). lia.
  - exfalso. apply nth_error_None in Hrow. destruct Hwf as [Hsize _].
    rewrite Hsize in Hrow. lia.
Qed.

(** The rounded quotient for the step [i] is between [0] and [d]. *)
Lemma roundDiv_between (d i steps : Z) :
  (0 < steps)%Z -> (0 <= i <= steps)%Z -> (Z.abs d <= steps)%Z ->
  (Z.min 0 d <= (2 * (d * i) + steps) / (2 * steps) <= Z.max 0 d)%Z.
Proof.
  intros Hsteps Hi Hd.
  destruct (Z.le_gt_cases 0 d) as [Hpos | Hneg].
  - rewrite Z.min_l, Z.max_r by lia. split.
    + apply Z.div_pos; nia.
    + apply Z.lt_succ_r. apply Z.div_lt_upper_bound; nia.
  - rewrite Z.min_r, Z.max_l by lia. split.
    + apply Z.div_le_lower_bound; nia.
    + apply Z.lt_succ_r. apply Z.div_lt_upper_bound; nia.
Qed.

Lemma roundDiv_first (d steps : Z) :
  (0 < steps)%Z -> ((2 * (d * 0) + steps) / (2 * steps) = 0)%Z.
Proof. intros Hsteps. apply Z.div_small. lia. Qed.

Lemma roundDiv_last (d steps : Z) :
  (0 < steps)%Z -> ((2 * (d * steps) + steps) / (2 * steps) = d)%Z.
Proof.
  intros Hsteps. symmetry. apply (Z.div_unique _ _ d steps); lia.
Qed.

(** While the cells reached are in the grid, the loop of [drawLine] returns,
    and does what a loop of guarded assignments does. *)
Lemma drawLine_for_inGrid (x1 y1 dx dy steps : Z) (values : list Z) :
  steps <> 0%Z ->
  forall grid : View.Grid,
    View.wellFormed grid ->
    (forall i, In i values ->
       View.inGrid (x1 + (2 * (dx * i) + steps) / (2 * steps))
                   (y1 + (2 * (dy * i) + steps) / (2 * steps)) = true) ->
    View.drawLine_for values x1 y1 dx dy steps grid =
    Returns
      (fold_left
         (fun g i =>
            if View.inGrid (x1 + (2 * (dx * i) + steps) / (2 * steps))
                           (y1 + (2 * (dy * i) + steps) / (2 * steps))
            then View.put g (y1 + (2 * (dy * i) + steps) / (2 * steps))
                            (x1 + (2 * (dx * i) + steps) / (2 * steps)) "*"
            else g)
         values grid).
Proof.
  intros Hsteps. induction values as [| i values IH]; intros grid Hwf Hin;
    [reflexivity |].
  cbn [View.drawLine_for fold_left]. cbv zeta. unfold View.roundDiv.
  replace (steps =? 0)%Z with false by (symmetry; now apply Z.eqb_neq).
  cbn [option_map].
  pose proof (Hin i (or_introl eq_refl)) as Hi. rewrite Hi.
  apply inGrid_true in Hi. destruct Hi as [HiX HiY].
  rewrite store_inGrid by assumption. cbn [bind].
  apply IH; [now apply put_wellFormed |].
  intros k Hk. apply Hin. now right.
Qed.

(** X19: [drawLine] throws on a line within one cell.  With equal ends,
    [steps] is [0], the two quotients are NaN, [grid[NaN]] is [undefined]
    and the assignment is a [TypeError], whatever the grid. *)
Theorem drawLine_within_a_cell_throws (grid : View.Grid) (x y : Z) :
  View.drawLine grid x y x y = Throws "TypeError".
Proof.
  unfold View.drawLine. cbv zeta. rewrite !Z.sub_diag. reflexivity.
Qed.

(** X20: [drawLine] between two different cells of the grid returns.  The
    grid keeps its size, the cells of the two ends show ["*"], and a cell
    that changed shows ["*"] and is in the rectangle between the two ends. *)
Theorem drawLine_between_cells (grid : View.Grid) (x1 y1 x2 y2 : Z) :
  View.wellFormed grid ->
  (0 <= x1 < View.gridSize)%Z -> (0 <= y1 < View.gridSize)%Z ->
  (0 <= x2 < View.gridSize)%Z -> (0 <= y2 < View.gridSize)%Z ->
  x1 <> x2 \/ y1 <> y2 ->
  exists grid' : View.Grid,
    View.drawLine grid x1 y1 x2 y2 = Returns grid' /\
    View.wellFormed grid' /\
    View.cell grid' y1 x1 = Some "*"%string /\
    View.cell grid' y2 x2 = Some "*"%string /\
    forall y x : Z,
      (0 <= y < View.gridSize)%Z -> (0 <= x < View.gridSize)%Z ->
      View.cell grid' y x = View.cell grid y x \/
      (View.cell grid' y x = Some "*"%string /\
       (Z.min x1 x2 <= x <= Z.max x1 x2)%Z /\ (Z.min y1 y2 <= y <= Z.max y1 y2)%Z).
Proof.
  intros Hwf Hx1 Hy1 Hx2 Hy2 Hends. unfold View.drawLine. cbv zeta.
  set (dx := (x2 - x1)%Z). set (dy := (y2 - y1)%Z).
  set (steps := Z.max (Z.abs dx) (Z.abs dy)).
  assert (Hsteps : (0 < steps)%Z) by (unfold steps, dx, dy; lia).
  assert (Hbox : forall i, (0 <= i <= steps)%Z ->
            (Z.min x1 x2 <= x1 + (2 * (dx * i) + steps) / (2 * steps) <= Z.max x1 x2)%Z /\
            (Z.min y1 y2 <= y1 + (2 * (dy * i) + steps) / (2 * steps) <= Z.max y1 y2)%Z).
  { intros i Hi.
    pose proof (roundDiv_between dx i steps Hsteps Hi) as Hqx.
    pose proof (roundDiv_between dy i steps Hsteps Hi) as Hqy.
    unfold steps in Hqx at 1. unfold steps in Hqy at 1. unfold dx, dy in *. lia. }
  rewrite drawLine_for_inGrid; [| lia | exact Hwf |].
  2:{ intros i Hi. apply in_range in Hi. apply inGrid_true.
      destruct (Hbox i Hi). lia. }
  eexists. split; [reflexivity |].
  pose (hit := fun (i y x : Z) =>
    (y = y1 + (2 * (dy * i) + steps) / (2 * steps) /\
     x = x1 + (2 * (dx * i) + steps) / (2 * steps))%Z).
  match goal with
  | |- View.wellFormed (fold_left ?body _ _) /\ _ =>
    assert (Hbody : forall (g : View.Grid) (i : Z),
      View.wellFormed g ->
      View.wellFormed (body g i) /\
      forall y x : Z,
        (0 <= y < View.gridSize)%Z -> (0 <= x < View.gridSize)%Z ->
        (hit i y x /\ View.cell (body g i) y x = Some "*"%string) \/
        (~ hit i y x /\ View.cell (body g i) y x = View.cell g y x))
  end.
  { intros g i Hg. cbv beta.
    destruct (View.inGrid _ _) eqn:Hin.
    - apply inGrid_true in Hin. destruct Hin as [HinX HinY].
      split; [now apply put_wellFormed |]. intros y x Hy Hx.
      destruct (cell_put g _ _ y x "*" Hg HinY HinX Hy Hx)
        as [(Hey & Hex & Hc) | [Hne Hc]].
      + left. split; [| exact Hc]. unfold hit. tauto.
      + right. split; [| exact Hc]. unfold hit. tauto.
    - split; [exact Hg |]. intros y x Hy Hx. right. split; [| reflexivity].
      unfold hit. intros [-> ->].
      match type of Hin with View.inGrid ?a ?b = false =>
        assert (View.inGrid a b = true) by (apply inGrid_true; tauto)
      end.
      congruence. }
  destruct (loop_paints "*" hit _ Hbody (View.range 0 steps) grid Hwf)
    as [Hwf' Hcells].
  split; [exact Hwf' |].
  assert (Hfirst : exists i, In i (View.range 0 steps) /\ hit i y1 x1).
  { exists 0%Z. split; [apply in_range; lia |]. unfold hit.
    rewrite !roundDiv_first by exact Hsteps. lia. }
  assert (Hlast : exists i, In i (View.range 0 steps) /\ hit i y2 x2).
  { exists steps. split; [apply in_range; lia |]. unfold hit.
    rewrite !roundDiv_last by exact Hsteps. unfold dx, dy. lia. }
  split; [| split].
  - destruct (Hcells y1 x1 Hy1 Hx1) as [[_ Hc] | [Hnone _]];
      [exact Hc | contradiction].
  - destruct (Hcells y2 x2 Hy2 Hx2) as [[_ Hc] | [Hnone _]];
      [exact Hc | contradiction].
  - intros y x Hy Hx.
    destruct (Hcells y x Hy Hx) as [[(i & Hi & Hey & Hex) Hc] | [_ Hc]];
      [right | now left].
    split; [exact Hc |]. apply in_range in Hi.
    destruct (Hbox i Hi). subst x y. tauto.
Qed.

Lemma drawLine_between_cells_witness :
  exists grid' : View.Grid,
    View.drawLine View.blank 0 0 19 6 = Returns grid' /\
    View.wellFormed grid' /\
    View.cell grid' 0 0 = Some "*"%string /\
    View.cell grid' 6 19 = Some "*"%string /\
    forall y x : Z,
      (0 <= y < View.gridSize)%Z -> (0 <= x < View.gridSize)%Z ->
      View.cell grid' y x = View.cell View.blank y x \/
      (View.cell grid' y x = Some "*"%string /\
       (Z.min 0 19 <= x <= Z.max 0 19)%Z /\ (Z.min 0 6 <= y <= Z.max 0 6)%Z).
Proof.
  apply (drawLine_between_cells View.blank 0 0 19 6).
  - exact blank_wellFormed.
  - unfold View.gridSize. lia.
  - unfold View.gridSize. lia.
  - unfold View.gridSize. lia.
  - unfold View.gridSize. lia.
  - left. lia.
Defined.
